(** * The I/O thread of a watched root (watchman/root/iothread.cpp)

    A shallow embedding of [InMemoryView]'s I/O thread: [fullCrawl],
    [doSettleThings], [handleShouldRecrawl], [getBiggestTimeout],
    [ioThread], [stepIoThread], [processAllPending], [processPath] and
    [crawler].

    The thread is embedded as a state-and-error monad over one record
    [State] holding the fields of [Root], [InMemoryView] and
    [IoThreadState] that the thread reads and writes.  Calls that leave
    the file (the watcher, the file system, [CookieSync], [statPath],
    promises, the subscribers' queue) are answered by a record of
    collaborators [External] working on an abstract [World], and each
    such call is recorded, in order, in [log].  A collaborator that can
    throw [std::system_error] where the thread catches it
    ([getFileInformation], [startWatchDir], [readDir]) says so in its
    answer; the others return.  What the other threads
    do is a script [env], one action consumed each time the I/O thread
    takes the lock of the queue shared with the watcher; the stop flag
    is raised after a number of reads chosen by the environment.

    Left out: logging and perf sampling, the time stamps [crawlStart]
    and [crawlFinish], the locks themselves, and the size hint
    [crawler] gives to an empty directory node, which reserves space
    and nothing else.  The local buffer [char path[WATCHMAN_NAME_MAX]]
    of [crawler] is the path itself: paths hold no NUL byte and fit the
    buffer.  [waitUntilReadyToQuery] and [clientModeCrawl] run on other
    threads or outside the loop and are not embedded; of the promise of
    [crawlState_] only its presence is kept.

    Loops that the code runs until the batch is empty take a bound
    [fuel] and fail with [OutOfFuel] when it runs out; a run that
    returns does so under every larger bound
    ([stepIoThread_fuel_mono]). *)

From Stdlib Require Import ZArith List String Bool Lia.
Import ListNotations.
Local Open Scope Z_scope.

(** ** Basic data *)

Definition w_string := string.
Definition time_point := Z.
Definition ClockTicks := Z.
Definition error_code := Z.

(** A [folly::Promise<folly::Unit>] handed out by [addSync], by identity. *)
Definition Promise := nat.

(** Modelled from the spec: the header declaring [mostRecentTick_] is not
    part of the sources; the spec gives it as a 64-bit counter.
    [fetch_add] on an unsigned atomic wraps around. *)
Definition tick_modulus : Z := 2 ^ 64.

Definition fetch_add_1 (t : ClockTicks) : ClockTicks := (t + 1) mod tick_modulus.

(** Modelled from the spec: [RecrawlInfo] is declared outside the sources;
    [recrawlCount] is taken as an unsigned 32-bit counter. *)
Definition recrawl_modulus : Z := 2 ^ 32.

(** [std::chrono::milliseconds] counts in a signed 64-bit integer. *)
Definition ms_min : Z := - 2 ^ 63.
Definition ms_max : Z := 2 ^ 63 - 1.

(** [std::chrono::hours(24)] converted to milliseconds. *)
Definition hours_24 : Z := 24 * 60 * 60 * 1000.

(** ** Option sets *)

(** Modelled from the spec: the headers declaring [PendingFlags], the
    watcher's capability flags and their constants are not part of the
    sources.  Both are bit sets, and the flags of each alphabet are
    distinct single bits. *)
Definition PendingFlags := Z.

Definition W_PENDING_RECURSIVE : PendingFlags := 1.
Definition W_PENDING_VIA_NOTIFY : PendingFlags := 2.
Definition W_PENDING_CRAWL_ONLY : PendingFlags := 4.
Definition W_PENDING_NONRECURSIVE_SCAN : PendingFlags := 8.
Definition W_PENDING_IS_DESYNCED : PendingFlags := 16.

Definition WATCHER_HAS_PER_FILE_NOTIFICATIONS : Z := 2.
Definition WATCHER_COALESCED_RENAME : Z := 4.

(** [explicit operator bool] of an option set, and of an integer. *)
Definition to_bool (f : Z) : bool := negb (f =? 0).

(** [flags.contains(other)] *)
Definition contains (f other : PendingFlags) : bool := Z.land f other =? other.

(** [flags.set(other)] *)
Definition set_flag (f other : PendingFlags) : PendingFlags := Z.lor f other.

Record PendingChange := mkPending {
  pc_path : w_string;
  pc_now : time_point;
  pc_flags : PendingFlags
}.

Record DirEntry := mkDirEntry {
  d_name : string
}.

(** An open directory: the entries [readDir] hands out, in order, and
    then either the end of the directory or a [std::system_error]. *)
Record DirHandle := mkDirHandle {
  dh_entries : list DirEntry;
  dh_error : option error_code
}.

(** ** PendingChanges *)

(** Modelled from the spec: [PendingChanges] is declared outside the
    sources; it holds the pending items, in order, and beside them the
    sync promises. *)
Record PendingChanges := mkColl {
  coll_items : list PendingChange;
  coll_syncs : list Promise
}.

Definition coll_nil : PendingChanges := mkColl [] [].

(** Modelled from the spec: [PendingChanges::empty] is not part of the
    sources.  The batch is empty when it holds neither an item nor a
    sync, which is what the [w_check] of [processAllPending] relies on. *)
Definition coll_empty (c : PendingChanges) : bool :=
  match coll_items c, coll_syncs c with
  | [], [] => true
  | _, _ => false
  end.

(** ** ViewDatabase *)

(** Modelled from the spec: [ViewDatabase], [watchman_dir] and
    [watchman_file] are declared outside the sources.  A directory node
    is found under its full path; it owns a map from child name to file
    node. *)
Record watchman_file := mkFile {
  f_exists : bool;
  maybe_deleted : bool;
  f_isDir : bool
}.

Record watchman_dir := mkDir {
  files : list (w_string * watchman_file)
}.

Record ViewDatabase := mkView {
  dirs : list (w_string * watchman_dir);
  rootInode : Z
}.

Fixpoint assoc {A : Type} (k : w_string) (l : list (w_string * A)) : option A :=
  match l with
  | [] => None
  | (k', a) :: l' => if String.eqb k k' then Some a else assoc k l'
  end.

Fixpoint assoc_update {A : Type} (k : w_string) (f : A -> A)
    (l : list (w_string * A)) : list (w_string * A) :=
  match l with
  | [] => []
  | (k', a) :: l' =>
      if String.eqb k k' then (k', f a) :: l' else (k', a) :: assoc_update k f l'
  end.

(** Modelled from the spec: [view.resolveDir(path, true)] is not part of
    the sources; it gives the node for [path], created when the view has
    none.  The node is named by its path. *)
Definition resolveDir (v : ViewDatabase) (path : w_string) : ViewDatabase :=
  match assoc path (dirs v) with
  | Some _ => v
  | None => mkView (dirs v ++ [(path, mkDir [])]) (rootInode v)
  end.

Definition dir_files (v : ViewDatabase) (dir : w_string)
    : list (w_string * watchman_file) :=
  match assoc dir (dirs v) with
  | Some d => files d
  | None => []
  end.

Definition update_dir (v : ViewDatabase) (dir : w_string)
    (f : list (w_string * watchman_file) -> list (w_string * watchman_file))
    : ViewDatabase :=
  mkView (assoc_update dir (fun d => mkDir (f (files d))) (dirs v)) (rootInode v).

Definition setRootInode (v : ViewDatabase) (ino : Z) : ViewDatabase :=
  mkView (dirs v) ino.

(** Modelled from the spec: [dir->getFullPathToChild(name)] is not part
    of the sources; a node's path is the path it is found under. *)
Definition getFullPathToChild (dir name : w_string) : w_string :=
  String.append dir (String.append "/" name).

(** The loop "flag for delete detection" of [crawler]. *)
Definition flag_maybe_deleted (fs : list (w_string * watchman_file))
    : list (w_string * watchman_file) :=
  map (fun nf =>
         let f := snd nf in
         (fst nf, if f_exists f then mkFile (f_exists f) true (f_isDir f) else f))
      fs.

Definition clear_maybe_deleted (name : w_string)
    (fs : list (w_string * watchman_file)) : list (w_string * watchman_file) :=
  assoc_update name (fun f => mkFile (f_exists f) false (f_isDir f)) fs.

(** ** The environment *)

(** What the other threads did since the I/O thread last held the lock
    of the shared queue: the watcher posts items and syncs and may
    ping, a recrawl is asked for, the root is cancelled.  A query
    thread that creates the ready promise while the I/O thread runs is
    not among these actions; no statement below speaks of a promise
    created in the middle of a crawl. *)
Record EnvAction := mkEnv {
  ea_pinged : bool;
  ea_items : list PendingChange;
  ea_syncs : list Promise;
  ea_recrawl : bool;
  ea_cancel : bool
}.

Definition env_quiet : EnvAction := mkEnv false [] [] false false.

(** The calls that leave the file, as the log records them.  [EvProcess]
    marks [processAllPending] handing an item to [processPath], with the
    tick current at that moment. *)
Inductive Event :=
| EvLockAndWait (timeout : Z)
| EvProcess (tick : ClockTicks) (p : PendingChange)
| EvNotifyCookie (path : w_string)
| EvStatPath (p : PendingChange) (pre_stat : option DirEntry)
| EvScheduleRecrawl (reason : string)
| EvHandleOpenErrno (dir : w_string) (syscall : string) (err : error_code)
| EvMarkDirDeleted (dir : w_string) (tick : ClockTicks)
| EvPendingAdd (p : PendingChange)
| EvSyncSetValue (p : Promise)
| EvReadyToQuery
| EvAbortAllCookies
| EvWarmContentCache
| EvSettled
| EvStopWatch
| EvAgeOut.

(** The configuration of a root. *)
Class Root := mkRoot {
  root_path : w_string;
  case_sensitive : bool;
  trigger_settle : Z;
  gc_interval : Z;
  idle_reap_age : Z
}.

(** The collaborators, and the world they work on. *)
Class External := mkExternal {
  World : Type;
  isCookiePrefix : w_string -> bool;
  watcher_flags : Z;
  system_clock_now : World -> time_point;
  getFileInformation : World -> w_string -> bool -> error_code + Z;
  startWatchDir : World -> w_string -> (error_code + DirHandle) * World;
  handle_open_errno : World -> w_string -> time_point -> string -> error_code -> World;
  markDirDeleted :
    World -> ViewDatabase -> w_string -> ClockTicks -> time_point ->
    ViewDatabase * World;
  statPath :
    World -> ViewDatabase -> PendingChanges -> PendingChange -> option DirEntry ->
    ViewDatabase * PendingChanges * World;
  pending_add : PendingChange -> list PendingChange -> list PendingChange;
  considerReap : World -> bool;
  considerAgeOut : World -> ViewDatabase -> ViewDatabase * World
}.

(** ** Results *)

Inductive Failure :=
| OutOfFuel
| CheckFailed (msg : string)
| AssertFailed (msg : string)
| SignedOverflow.

Inductive Res (A : Type) :=
| Ok (a : A)
| Err (f : Failure).

Arguments Ok {A}.
Arguments Err {A}.

Inductive Continue := Stop | ContinueLoop.

Inductive IsDesynced := DesyncedYes | DesyncedNo.

Definition msg_descendant : string :=
  "full_path must be a descendant of the root directory".

Definition msg_steal : string :=
  "coll.stealItems() and coll.size() did not agree about its size".

Definition msg_full_crawl : string :=
  "A full crawl should not be pending at this point in the loop.".

Definition reason_root_replaced : string :=
  "root was replaced and we didn't get notified by the kernel".

Section IoThread.

Context {ext : External} {root : Root}.

(** ** The state of the thread *)

Record State := mkState {
  (* Root: inner.done_initial, inner.cancelled, recrawlInfo *)
  done_initial : bool;
  cancelled : bool;
  shouldRecrawl : bool;
  recrawlCount : Z;
  (* InMemoryView: crawlState_.promise, view_, mostRecentTick_,
     stopThreads_, pendingFromWatcher_ *)
  crawlPromise : bool;
  view : ViewDatabase;
  mostRecentTick : ClockTicks;
  stopIn : option nat;
  pendingFromWatcher : PendingChanges;
  (* IoThreadState *)
  biggestTimeout : Z;
  currentTimeout : Z;
  localPending : PendingChanges;
  (* outside the thread *)
  world : World;
  env : list EnvAction;
  log : list Event
}.

Definition set_done_initial (x : bool) (s : State) : State :=
  mkState x (cancelled s) (shouldRecrawl s) (recrawlCount s) (crawlPromise s)
    (view s) (mostRecentTick s) (stopIn s) (pendingFromWatcher s)
    (biggestTimeout s) (currentTimeout s) (localPending s) (world s) (env s) (log s).

Definition set_cancelled (x : bool) (s : State) : State :=
  mkState (done_initial s) x (shouldRecrawl s) (recrawlCount s) (crawlPromise s)
    (view s) (mostRecentTick s) (stopIn s) (pendingFromWatcher s)
    (biggestTimeout s) (currentTimeout s) (localPending s) (world s) (env s) (log s).

Definition set_shouldRecrawl (x : bool) (s : State) : State :=
  mkState (done_initial s) (cancelled s) x (recrawlCount s) (crawlPromise s)
    (view s) (mostRecentTick s) (stopIn s) (pendingFromWatcher s)
    (biggestTimeout s) (currentTimeout s) (localPending s) (world s) (env s) (log s).

Definition set_recrawlCount (x : Z) (s : State) : State :=
  mkState (done_initial s) (cancelled s) (shouldRecrawl s) x (crawlPromise s)
    (view s) (mostRecentTick s) (stopIn s) (pendingFromWatcher s)
    (biggestTimeout s) (currentTimeout s) (localPending s) (world s) (env s) (log s).

Definition set_crawlPromise (x : bool) (s : State) : State :=
  mkState (done_initial s) (cancelled s) (shouldRecrawl s) (recrawlCount s) x
    (view s) (mostRecentTick s) (stopIn s) (pendingFromWatcher s)
    (biggestTimeout s) (currentTimeout s) (localPending s) (world s) (env s) (log s).

Definition set_view (x : ViewDatabase) (s : State) : State :=
  mkState (done_initial s) (cancelled s) (shouldRecrawl s) (recrawlCount s)
    (crawlPromise s) x (mostRecentTick s) (stopIn s) (pendingFromWatcher s)
    (biggestTimeout s) (currentTimeout s) (localPending s) (world s) (env s) (log s).

Definition set_mostRecentTick (x : ClockTicks) (s : State) : State :=
  mkState (done_initial s) (cancelled s) (shouldRecrawl s) (recrawlCount s)
    (crawlPromise s) (view s) x (stopIn s) (pendingFromWatcher s)
    (biggestTimeout s) (currentTimeout s) (localPending s) (world s) (env s) (log s).

Definition set_stopIn (x : option nat) (s : State) : State :=
  mkState (done_initial s) (cancelled s) (shouldRecrawl s) (recrawlCount s)
    (crawlPromise s) (view s) (mostRecentTick s) x (pendingFromWatcher s)
    (biggestTimeout s) (currentTimeout s) (localPending s) (world s) (env s) (log s).

Definition set_pendingFromWatcher (x : PendingChanges) (s : State) : State :=
  mkState (done_initial s) (cancelled s) (shouldRecrawl s) (recrawlCount s)
    (crawlPromise s) (view s) (mostRecentTick s) (stopIn s) x
    (biggestTimeout s) (currentTimeout s) (localPending s) (world s) (env s) (log s).

Definition set_biggestTimeout (x : Z) (s : State) : State :=
  mkState (done_initial s) (cancelled s) (shouldRecrawl s) (recrawlCount s)
    (crawlPromise s) (view s) (mostRecentTick s) (stopIn s) (pendingFromWatcher s)
    x (currentTimeout s) (localPending s) (world s) (env s) (log s).

Definition set_currentTimeout (x : Z) (s : State) : State :=
  mkState (done_initial s) (cancelled s) (shouldRecrawl s) (recrawlCount s)
    (crawlPromise s) (view s) (mostRecentTick s) (stopIn s) (pendingFromWatcher s)
    (biggestTimeout s) x (localPending s) (world s) (env s) (log s).

Definition set_localPending (x : PendingChanges) (s : State) : State :=
  mkState (done_initial s) (cancelled s) (shouldRecrawl s) (recrawlCount s)
    (crawlPromise s) (view s) (mostRecentTick s) (stopIn s) (pendingFromWatcher s)
    (biggestTimeout s) (currentTimeout s) x (world s) (env s) (log s).

Definition set_world (x : World) (s : State) : State :=
  mkState (done_initial s) (cancelled s) (shouldRecrawl s) (recrawlCount s)
    (crawlPromise s) (view s) (mostRecentTick s) (stopIn s) (pendingFromWatcher s)
    (biggestTimeout s) (currentTimeout s) (localPending s) x (env s) (log s).

Definition set_env (x : list EnvAction) (s : State) : State :=
  mkState (done_initial s) (cancelled s) (shouldRecrawl s) (recrawlCount s)
    (crawlPromise s) (view s) (mostRecentTick s) (stopIn s) (pendingFromWatcher s)
    (biggestTimeout s) (currentTimeout s) (localPending s) (world s) x (log s).

Definition set_log (x : list Event) (s : State) : State :=
  mkState (done_initial s) (cancelled s) (shouldRecrawl s) (recrawlCount s)
    (crawlPromise s) (view s) (mostRecentTick s) (stopIn s) (pendingFromWatcher s)
    (biggestTimeout s) (currentTimeout s) (localPending s) (world s) (env s) x.

(** ** The monad *)

Definition M (A : Type) : Type := State -> Res (A * State).

Definition ret {A : Type} (a : A) : M A := fun s => Ok (a, s).

Definition bind {A B : Type} (m : M A) (f : A -> M B) : M B :=
  fun s =>
    match m s with
    | Ok (a, s') => f a s'
    | Err e => Err e
    end.

Definition fail {A : Type} (e : Failure) : M A := fun _ => Err e.

Definition gets {A : Type} (f : State -> A) : M A := fun s => Ok (f s, s).

Definition modify (f : State -> State) : M unit := fun s => Ok (tt, f s).

Notation "x <- m ;; k" := (bind m (fun x => k))
  (at level 61, m at next level, right associativity).
Notation "m ;; k" := (bind m (fun _ => k))
  (at level 61, right associativity).

Definition emit (e : Event) : M unit :=
  modify (fun s => set_log (log s ++ [e]) s).

(** [w_check(e, msg)] and [w_assert(e, msg)] end the process when [e]
    is false. *)
Definition w_check (e : bool) (msg : string) : M unit :=
  if e then ret tt else fail (CheckFailed msg).

Definition w_assert (e : bool) (msg : string) : M unit :=
  if e then ret tt else fail (AssertFailed msg).

(** [stopThreads_.load()]: the flag is up once the environment's count
    of reads has run out, and stays up. *)
Definition stopThreads_load : M bool :=
  fun s =>
    match stopIn s with
    | None => Ok (false, s)
    | Some O => Ok (true, s)
    | Some (S n) => Ok (false, set_stopIn (Some n) s)
    end.

(** ** The batch and the shared queue *)

(** Modelled from the spec: [coll.add(path, now, flags)] is not part of
    the sources; the queue coalesces, and how an added item coalesces
    with those present is left to [pending_add]. *)
Definition pc_add (p : PendingChange) (c : PendingChanges) : PendingChanges :=
  mkColl (pending_add p (coll_items c)) (coll_syncs c).

(** Modelled from the spec: [coll.append(items, syncs)] is not part of
    the sources; the items are added one by one, the syncs go to the end
    of the list. *)
Definition pc_append (items : list PendingChange) (syncs : list Promise)
    (c : PendingChanges) : PendingChanges :=
  let c' := fold_left (fun acc p => pc_add p acc) items c in
  mkColl (coll_items c') (coll_syncs c' ++ syncs).

Definition coll_add (p : PendingChange) : M unit :=
  emit (EvPendingAdd p) ;;
  modify (fun s => set_localPending (pc_add p (localPending s)) s).

(** Taking the lock of [pendingFromWatcher]: whatever the other threads
    did in the meantime is there now. *)
Definition apply_env (a : EnvAction) (s : State) : State :=
  set_pendingFromWatcher
    (pc_append (ea_items a) (ea_syncs a) (pendingFromWatcher s))
    (set_shouldRecrawl (shouldRecrawl s || ea_recrawl a)
       (set_cancelled (cancelled s || ea_cancel a) s)).

Definition lockShared : M bool :=
  fun s =>
    match env s with
    | [] => Ok (false, s)
    | a :: rest => Ok (ea_pinged a, apply_env a (set_env rest s))
    end.

(** [localPending.append(lock->stealItems(), lock->stealSyncs())] *)
Definition stealIntoLocal : M unit :=
  modify (fun s =>
    set_pendingFromWatcher coll_nil
      (set_localPending
         (pc_append (coll_items (pendingFromWatcher s))
            (coll_syncs (pendingFromWatcher s)) (localPending s)) s)).

(** ** crawler and processPath *)

(** Modelled from the spec: [root->scheduleRecrawl(why)] is not part of
    the sources; it sets [shouldRecrawl] and records the reason. *)
Definition scheduleRecrawl (why : string) : M unit :=
  emit (EvScheduleRecrawl why) ;;
  modify (set_shouldRecrawl true).

(** [handle_open_errno(root, dir, now, syscall, err)] followed by
    [view.markDirDeleted(watcher, dir, getClock(now), true)]: the two
    calls of the [catch] blocks of [crawler]. *)
Definition open_failed (dir : w_string) (now : time_point) (syscall : string)
    (err : error_code) : M unit :=
  emit (EvHandleOpenErrno dir syscall err) ;;
  modify (fun s => set_world (handle_open_errno (world s) dir now syscall err) s) ;;
  tick <- gets mostRecentTick ;;
  emit (EvMarkDirDeleted dir tick) ;;
  modify (fun s =>
    let '(v, w) := markDirDeleted (world s) (view s) dir tick now in
    set_view v (set_world w s)).

(** "Detect root directory replacement": [None] when [crawler] returns
    from inside the block, else the value of [recursive] after it. *)
Definition check_root_inode (dir : w_string) (pending : PendingChange)
    (recursive : bool) : M (option bool) :=
  w <- gets world ;;
  match getFileInformation w (pc_path pending) case_sensitive with
  | inr ino =>
      v <- gets view ;;
      if negb (ino =? rootInode v) then
        if negb (rootInode v =? 0) then
          scheduleRecrawl reason_root_replaced ;;
          ret None
        else
          modify (fun s => set_view (setRootInode (view s) ino) s) ;;
          ret (Some true)
      else ret (Some recursive)
  | inl err =>
      open_failed dir (pc_now pending) "getFileInformation" err ;;
      ret None
  end.

(** Is [d_name] one of the parent/self links? *)
Definition is_dot_or_dotdot (name : string) : bool :=
  String.eqb name "." || String.eqb name "..".

(** One turn of [while (const DirEntry* dirent = osdir->readDir())]. *)
Definition crawl_entry (processPath : PendingChange -> option DirEntry -> M unit)
    (dir : w_string) (pending : PendingChange) (recursive stat_all : bool)
    (dirent : DirEntry) : M unit :=
  if is_dot_or_dotdot (d_name dirent) then ret tt
  else
    let name := d_name dirent in
    file <- gets (fun s => assoc name (dir_files (view s) dir)) ;;
    (match file with
     | Some _ =>
         modify (fun s => set_view (update_dir (view s) dir (clear_maybe_deleted name)) s)
     | None => ret tt
     end) ;;
    let absent :=
      match file with
      | Some f => negb (f_exists f)
      | None => true
      end in
    if absent || stat_all || recursive then
      let full_path := getFullPathToChild dir name in
      let newFlags := if recursive || absent then set_flag 0 W_PENDING_RECURSIVE else 0 in
      let newFlags :=
        if to_bool (Z.land (pc_flags pending) W_PENDING_IS_DESYNCED)
        then set_flag newFlags W_PENDING_IS_DESYNCED else newFlags in
      processPath (mkPending full_path (pc_now pending) newFlags) (Some dirent)
    else ret tt.

Fixpoint crawl_entries (processPath : PendingChange -> option DirEntry -> M unit)
    (dir : w_string) (pending : PendingChange) (recursive stat_all : bool)
    (entries : list DirEntry) : M unit :=
  match entries with
  | [] => ret tt
  | dirent :: rest =>
      crawl_entry processPath dir pending recursive stat_all dirent ;;
      crawl_entries processPath dir pending recursive stat_all rest
  end.

(** "Anything still in maybe_deleted is actually deleted.  Arrange to
    re-process it shortly". *)
Fixpoint requeue_children (dir : w_string) (now : time_point) (recursive : bool)
    (fs : list (w_string * watchman_file)) : M unit :=
  match fs with
  | [] => ret tt
  | (name, file) :: rest =>
      (if f_exists file && (maybe_deleted file || (f_isDir file && recursive))
       then coll_add (mkPending (getFullPathToChild dir name) now
                        (if recursive then W_PENDING_RECURSIVE else 0))
       else ret tt) ;;
      requeue_children dir now recursive rest
  end.

Definition crawler (processPath : PendingChange -> option DirEntry -> M unit)
    (pending : PendingChange) : M unit :=
  let recursive := contains (pc_flags pending) W_PENDING_RECURSIVE in
  let stat_all :=
    if to_bool (Z.land watcher_flags WATCHER_HAS_PER_FILE_NOTIFICATIONS)
    then to_bool (Z.land watcher_flags WATCHER_COALESCED_RENAME)
    else contains (pc_flags pending) W_PENDING_NONRECURSIVE_SCAN in
  let dir := pc_path pending in
  modify (fun s => set_view (resolveDir (view s) dir) s) ;;
  checked <-
    (if String.eqb (pc_path pending) root_path
     then check_root_inode dir pending recursive
     else ret (Some recursive)) ;;
  match checked with
  | None => ret tt
  | Some recursive =>
      let path := pc_path pending in
      opened <- (fun s =>
                   let '(r, w) := startWatchDir (world s) path in
                   Ok (r, set_world w s)) ;;
      match opened with
      | inl err => open_failed dir (pc_now pending) "opendir" err
      | inr osdir =>
          modify (fun s => set_view (update_dir (view s) dir flag_maybe_deleted) s) ;;
          crawl_entries processPath dir pending recursive stat_all (dh_entries osdir) ;;
          (match dh_error osdir with
           | Some _ => coll_add (mkPending path (pc_now pending) 0)
           | None => ret tt
           end) ;;
          fs <- gets (fun s => dir_files (view s) dir) ;;
          requeue_children dir (pc_now pending) recursive fs
      end
  end.

(** [statPath(root, root->cookies, view, coll, pending, pre_stat)] *)
Definition call_statPath (pending : PendingChange) (pre_stat : option DirEntry)
    : M unit :=
  emit (EvStatPath pending pre_stat) ;;
  modify (fun s =>
    let '(v, c, w) := statPath (world s) (view s) (localPending s) pending pre_stat in
    set_view v (set_localPending c (set_world w s))).

(** Does [processPath] take the cookie into account? *)
Definition consider_cookie (pending : PendingChange) : M bool :=
  if to_bool (Z.land watcher_flags WATCHER_HAS_PER_FILE_NOTIFICATIONS) then
    di <- gets done_initial ;;
    ret (to_bool (Z.land (pc_flags pending) W_PENDING_VIA_NOTIFY) || negb di)
  else
    ret (negb (Z.land (pc_flags pending) W_PENDING_IS_DESYNCED =? W_PENDING_IS_DESYNCED)).

Fixpoint processPath (fuel : nat) (pending : PendingChange)
    (pre_stat : option DirEntry) : M unit :=
  match fuel with
  | O => fail OutOfFuel
  | S fuel' =>
      w_assert (String.length root_path <=? String.length (pc_path pending))%nat
        msg_descendant ;;
      if isCookiePrefix (pc_path pending) then
        consider <- consider_cookie pending ;;
        (if consider then emit (EvNotifyCookie (pc_path pending)) else ret tt)
      else if String.eqb (pc_path pending) root_path
              || to_bool (Z.land (pc_flags pending) W_PENDING_CRAWL_ONLY)
      then crawler (processPath fuel') pending
      else call_statPath pending pre_stat
  end.

(** ** processAllPending *)

(** The body of [while (pending)] for one item. *)
Definition process_item (fuel : nat) (desyncState : IsDesynced) (pending : PendingChange)
    : M IsDesynced :=
  stop <- stopThreads_load ;;
  if stop then ret desyncState
  else
    let desyncState' :=
      if to_bool (Z.land (pc_flags pending) W_PENDING_IS_DESYNCED) then
        if to_bool (Z.land (pc_flags pending) W_PENDING_CRAWL_ONLY)
        then DesyncedYes else desyncState
      else desyncState in
    modify (fun s => set_log (log s ++ [EvProcess (mostRecentTick s) pending]) s) ;;
    processPath fuel pending None ;;
    ret desyncState'.

Fixpoint process_items (fuel : nat) (desyncState : IsDesynced)
    (pending : list PendingChange) : M IsDesynced :=
  match pending with
  | [] => ret desyncState
  | p :: next =>
      d <- process_item fuel desyncState p ;;
      process_items fuel d next
  end.

(** [while (!coll.empty())], with the two locals it updates. *)
Fixpoint processAllPending_loop (fuel : nat) (desyncState : IsDesynced)
    (allSyncs : list (list Promise)) : M (IsDesynced * list (list Promise)) :=
  match fuel with
  | O => fail OutOfFuel
  | S fuel' =>
      coll <- gets localPending ;;
      if coll_empty coll then ret (desyncState, allSyncs)
      else
        let pending := coll_items coll in
        let syncs := coll_syncs coll in
        modify (set_localPending coll_nil) ;;
        allSyncs' <-
          (match syncs with
           | [] =>
               w_check (match pending with [] => false | _ => true end) msg_steal ;;
               ret allSyncs
           | _ => ret (allSyncs ++ [syncs])
           end) ;;
        d <- process_items fuel' desyncState pending ;;
        processAllPending_loop fuel' d allSyncs'
  end.

Fixpoint resolve_syncs (syncs : list Promise) : M unit :=
  match syncs with
  | [] => ret tt
  | sync :: rest => emit (EvSyncSetValue sync) ;; resolve_syncs rest
  end.

Definition processAllPending (fuel : nat) : M IsDesynced :=
  r <- processAllPending_loop fuel DesyncedNo [] ;;
  resolve_syncs (List.concat (snd r)) ;;
  ret (fst r).

(** ** fullCrawl *)

Fixpoint fullCrawl_loop (fuel : nat) : M unit :=
  match fuel with
  | O => fail OutOfFuel
  | S fuel' =>
      lockShared ;;
      stealIntoLocal ;;
      coll <- gets localPending ;;
      if coll_empty coll then ret tt
      else
        processAllPending fuel' ;;
        fullCrawl_loop fuel'
  end.

Definition fullCrawl (fuel : nat) : M unit :=
  modify (fun s => set_mostRecentTick (fetch_add_1 (mostRecentTick s)) s) ;;
  start <- gets (fun s => system_clock_now (world s)) ;;
  lockShared ;;
  modify (fun s =>
    set_pendingFromWatcher
      (pc_add (mkPending root_path start W_PENDING_RECURSIVE)
         (pendingFromWatcher s)) s) ;;
  fullCrawl_loop fuel ;;
  modify (set_shouldRecrawl false) ;;
  promise <- gets crawlPromise ;;
  (if promise then emit EvReadyToQuery ;; modify (set_crawlPromise false) else ret tt) ;;
  modify (set_done_initial true) ;;
  emit EvAbortAllCookies.

(** ** Settling and recrawling *)

Definition doSettleThings : M Continue :=
  di <- gets done_initial ;;
  if negb di then ret ContinueLoop
  else
    emit EvWarmContentCache ;;
    emit EvSettled ;;
    reap <- gets (fun s => considerReap (world s)) ;;
    if reap then
      emit EvStopWatch ;;
      ret Stop
    else
      emit EvAgeOut ;;
      modify (fun s =>
        let '(v, w) := considerAgeOut (world s) (view s) in
        set_view v (set_world w s)) ;;
      ret ContinueLoop.

Definition handleShouldRecrawl : M bool :=
  should <- gets shouldRecrawl ;;
  if negb should then ret false
  else
    c <- gets cancelled ;;
    (if negb c then
       modify (fun s => set_recrawlCount ((recrawlCount s + 1) mod recrawl_modulus) s) ;;
       modify (set_done_initial false)
     else ret tt) ;;
    ret true.

Definition getBiggestTimeout (r : Root) : Z :=
  let biggest_timeout := @gc_interval r in
  let biggest_timeout :=
    if (biggest_timeout =? 0)
       || (negb (@idle_reap_age r =? 0) && (@idle_reap_age r <? biggest_timeout))
    then @idle_reap_age r else biggest_timeout in
  if biggest_timeout =? 0 then hours_24 else biggest_timeout.

(** ** stepIoThread *)

(** [state.currentTimeout * 2]: signed arithmetic, undefined out of range. *)
Definition double_timeout (t : Z) : M Z :=
  if (ms_min <=? t * 2) && (t * 2 <=? ms_max) then ret (t * 2)
  else fail SignedOverflow.

(** From the top of the step to the wake-up: the crawl when one is
    pending, then the wait on the shared queue.  Returns [pinged]. *)
Definition step_wait (fuel : nat) : M bool :=
  di <- gets done_initial ;;
  (if negb di then
     fullCrawl fuel ;;
     modify (set_currentTimeout trigger_settle)
   else ret tt) ;;
  timeout <- gets currentTimeout ;;
  emit (EvLockAndWait timeout) ;;
  pinged <- lockShared ;;
  stealIntoLocal ;;
  ret pinged.

(** "Waiting for an event timed out, so consider the root settled." *)
Definition step_settle : M Continue :=
  c <- doSettleThings ;;
  match c with
  | Stop => ret Stop
  | ContinueLoop =>
      timeout <- gets currentTimeout ;;
      doubled <- double_timeout timeout ;;
      modify (fun s => set_currentTimeout (Z.min (biggestTimeout s) doubled) s) ;;
      ret ContinueLoop
  end.

(** "Otherwise we have pending items to stat and crawl".  The sleep of
    [notify_sleep_ms] changes nothing here. *)
Definition step_process (fuel : nat) : M Continue :=
  modify (set_currentTimeout trigger_settle) ;;
  di <- gets done_initial ;;
  w_check di msg_full_crawl ;;
  modify (fun s => set_mostRecentTick (fetch_add_1 (mostRecentTick s)) s) ;;
  isDesynced <- processAllPending fuel ;;
  (match isDesynced with
   | DesyncedYes => emit EvAbortAllCookies
   | DesyncedNo => ret tt
   end) ;;
  ret ContinueLoop.

Definition stepIoThread (fuel : nat) : M Continue :=
  stop <- stopThreads_load ;;
  if stop then ret Stop
  else
    pinged <- step_wait fuel ;;
    recrawl <- handleShouldRecrawl ;;
    if recrawl then
      fullCrawl fuel ;;
      modify (set_currentTimeout trigger_settle) ;;
      ret ContinueLoop
    else
      coll <- gets localPending ;;
      if negb pinged && coll_empty coll then step_settle
      else step_process fuel.

(** ** ioThread *)

(** [IoThreadState state{getBiggestTimeout(root)}] and the assignment
    that follows it. *)
Definition ioThread_init (s : State) : State :=
  set_currentTimeout trigger_settle
    (set_biggestTimeout (getBiggestTimeout root)
       (set_localPending coll_nil s)).

Fixpoint ioThread_loop (steps fuel : nat) : M unit :=
  match steps with
  | O => fail OutOfFuel
  | S steps' =>
      c <- stepIoThread fuel ;;
      match c with
      | Stop => ret tt
      | ContinueLoop => ioThread_loop steps' fuel
      end
  end.

Definition ioThread (steps fuel : nat) : M unit :=
  modify ioThread_init ;;
  ioThread_loop steps fuel.

(** ** waitUntilReadyToQuery and clientModeCrawl *)

(** The future [waitUntilReadyToQuery] hands back: the one shared with
    the promise of [crawlState_], or one already satisfied. *)
Inductive ReadyFuture := SharedFuture | SatisfiedFuture.

(** [waitUntilReadyToQuery], run by a query thread under the two locks.
    Whether [crawlState_]'s future is valid has no field in [State]: it
    comes in as [future_valid] and goes out beside the answer. *)
Definition waitUntilReadyToQuery (future_valid : bool) : M (ReadyFuture * bool) :=
  promise <- gets crawlPromise ;;
  if promise && future_valid then ret (SharedFuture, future_valid)
  else
    di <- gets done_initial ;;
    should <- gets shouldRecrawl ;;
    if di && negb should then ret (SatisfiedFuture, future_valid)
    else
      modify (set_crawlPromise true) ;;
      ret (SharedFuture, true).

(** [clientModeCrawl]: a full crawl over a batch of its own, which takes
    the place of [localPending] here. *)
Definition clientModeCrawl (fuel : nat) : M unit :=
  modify (set_localPending coll_nil) ;;
  fullCrawl fuel.

End IoThread.

(** ** A small root to run the thread on *)

Module Demo.

Local Open Scope string_scope.

Definition cookie_prefix : string := "/w/.watchman-cookie-".

Definition demo_root (settle gc reap : Z) : Root :=
  mkRoot "/w"%string true settle gc reap.

(** Collaborators over a world with nothing in it: the watcher's flags,
    the answer of [startWatchDir] and that of [getFileInformation] are
    chosen; [statPath] and the rest leave everything as it is, and the
    batch does not coalesce. *)
Definition demo_ext (flags : Z) (open_dir : w_string -> error_code + DirHandle)
    (stat_root : error_code + Z) : External :=
  {| World := unit;
     isCookiePrefix := fun p => String.prefix cookie_prefix p;
     watcher_flags := flags;
     system_clock_now := fun _ => 0;
     getFileInformation := fun _ _ _ => stat_root;
     startWatchDir := fun w p => (open_dir p, w);
     handle_open_errno := fun w _ _ _ _ => w;
     markDirDeleted := fun w v _ _ _ => (v, w);
     statPath := fun w v c _ _ => (v, c, w);
     pending_add := fun p l => (l ++ [p])%list;
     considerReap := fun _ => false;
     considerAgeOut := fun w v => (v, w) |}.

(** The directory [/w] holds [a] and a cookie; nothing else opens. *)
Definition fs_small (p : w_string) : error_code + DirHandle :=
  if String.eqb p "/w"
  then inr (mkDirHandle
              [mkDirEntry "."; mkDirEntry ".."; mkDirEntry "a";
               mkDirEntry ".watchman-cookie-1"] None)
  else inl 2.

(** Reading [/w/sub] fails after its first entry. *)
Definition fs_readfail (p : w_string) : error_code + DirHandle :=
  if String.eqb p "/w/sub"
  then inr (mkDirHandle [mkDirEntry "a"] (Some 5))
  else inl 2.

Definition ext_small : External := demo_ext 2 fs_small (inr 7).

Definition ext_statfail : External := demo_ext 2 fs_small (inl 13).

Definition ext_readfail : External := demo_ext 2 fs_readfail (inr 7).

Definition root_small : Root := demo_root 20 0 0.

Definition root_gc : Root := demo_root 20 100 50.

Definition state_of {ext : External} {A : Type} (r : Res (A * State)) (d : State)
    : State :=
  match r with
  | Ok (_, s) => s
  | Err _ => d
  end.

(** A thread about to take its first step, at tick [tick]. *)
Definition fresh {ext : External} {root : Root} (w : World) (tick : ClockTicks)
    (script : list EnvAction) : State :=
  ioThread_init
    (mkState false false false 0 false (mkView [] 0) tick None coll_nil 0 0
       coll_nil w script []).

(** A thread that has crawled [/w] and waits, with [batch] at hand. *)
Definition crawled_state {ext : External} (w : World) (batch : PendingChanges)
    (should cancel : bool) (script : list EnvAction) : State :=
  mkState true cancel should 0 false
    (mkView [("/w"%string, mkDir [])] 7) 2 None coll_nil 86400000 20 batch w
    script [].

Definition cookie_change : PendingChange :=
  mkPending "/w/.watchman-cookie-1" 0 W_PENDING_VIA_NOTIFY.

(** What [crawler] makes of the entry [a] of [/w] in a recursive crawl. *)
Definition child_change : PendingChange :=
  mkPending "/w/a" 0 W_PENDING_RECURSIVE.

Definition sub_crawl : PendingChange :=
  mkPending "/w/sub" 0 W_PENDING_CRAWL_ONLY.

Definition root_crawl : PendingChange :=
  mkPending "/w" 0 W_PENDING_RECURSIVE.

(** What the watcher posts when it has lost events. *)
Definition desync_change : PendingChange :=
  mkPending "/w" 0
    (Z.lor W_PENDING_IS_DESYNCED (Z.lor W_PENDING_CRAWL_ONLY W_PENDING_RECURSIVE)).

Definition desync_posted : EnvAction := mkEnv true [desync_change] [] false false.

Definition first_state : State := fresh (ext := ext_small) (root := root_small) tt 1 [].

Definition first_woken : State :=
  state_of (step_wait (ext := ext_small) (root := root_small) 5 first_state) first_state.

Definition first_done : State :=
  state_of (stepIoThread (ext := ext_small) (root := root_small) 5 first_state)
    first_state.

Definition wrapping_state : State :=
  fresh (ext := ext_small) (root := root_small) tt (2 ^ 64 - 1) [].

Definition wrapping_done : State :=
  state_of (stepIoThread (ext := ext_small) (root := root_small) 5 wrapping_state)
    wrapping_state.

Definition desync_state : State :=
  crawled_state (ext := ext_small) tt coll_nil false false [desync_posted].

Definition desync_woken : State :=
  state_of (step_wait (ext := ext_small) (root := root_small) 5 desync_state)
    desync_state.

Definition desync_passed : State :=
  state_of
    (processAllPending (ext := ext_small) (root := root_small) 5
       (set_mostRecentTick (fetch_add_1 (mostRecentTick desync_woken))
          (set_currentTimeout 20 desync_woken)))
    desync_woken.

Definition batch_state : State :=
  crawled_state (ext := ext_small) tt (mkColl [desync_change; cookie_change] [1; 2]%nat)
    false false [].

Definition batch_done : State :=
  state_of (processAllPending (ext := ext_small) (root := root_small) 5 batch_state)
    batch_state.

Definition idle_small : State :=
  crawled_state (ext := ext_small) tt coll_nil false false [].

Definition idle_statfail : State :=
  crawled_state (ext := ext_statfail) tt coll_nil false false [].

Definition idle_readfail : State :=
  crawled_state (ext := ext_readfail) tt coll_nil false false [].

Definition recrawl_state (cancel : bool) : State :=
  crawled_state (ext := ext_small) tt coll_nil true cancel [].

(** The watcher posts [/w/sub] for a crawl; reading it fails half-way. *)
Definition readfail_state : State :=
  crawled_state (ext := ext_readfail) tt coll_nil false false
    [mkEnv true [sub_crawl] [] false false].

Definition readfail_done : State :=
  state_of (stepIoThread (ext := ext_readfail) (root := root_small) 6 readfail_state)
    readfail_state.

(** A query thread asked for the root before the first crawl. *)
Definition promised_state : State := set_crawlPromise true first_state.

Definition promised_done : State :=
  state_of (fullCrawl (ext := ext_small) (root := root_small) 5 promised_state)
    promised_state.

Definition client_done : State :=
  state_of (clientModeCrawl (ext := ext_small) (root := root_small) 5 first_state)
    first_state.

(** As [ext_small], over a root that is to be reaped as soon as it is
    idle. *)
Definition ext_reap : External :=
  {| World := unit;
     isCookiePrefix := fun p => String.prefix cookie_prefix p;
     watcher_flags := 2;
     system_clock_now := fun _ => 0;
     getFileInformation := fun _ _ _ => inr 7;
     startWatchDir := fun w p => (fs_small p, w);
     handle_open_errno := fun w _ _ _ _ => w;
     markDirDeleted := fun w v _ _ _ => (v, w);
     statPath := fun w v c _ _ => (v, c, w);
     pending_add := fun p l => (l ++ [p])%list;
     considerReap := fun _ => true;
     considerAgeOut := fun w v => (v, w) |}.

Definition reap_state : State :=
  crawled_state (ext := ext_reap) tt coll_nil false false [].

Definition reap_done : State :=
  state_of (stepIoThread (ext := ext_reap) (root := root_small) 5 reap_state)
    reap_state.

Definition reap_first : State := fresh (ext := ext_reap) (root := root_small) tt 1 [].

Definition reap_thread_done : State :=
  state_of (ioThread (ext := ext_reap) (root := root_small) 1 5 reap_first) reap_first.

(** The stop flag is up and a batch is at hand. *)
Definition stopped_batch : State := set_stopIn (Some O) batch_state.

(** The root now has inode 8; the view recorded 7. *)
Definition ext_replaced : External := demo_ext 2 fs_small (inr 8).

Definition idle_replaced : State :=
  crawled_state (ext := ext_replaced) tt coll_nil false false [].

(** A recrawl of the replaced root: the view still holds inode 7. *)
Definition replaced_state : State := set_done_initial false idle_replaced.

Definition replaced_done : State :=
  state_of (fullCrawl (ext := ext_replaced) (root := root_small) 5 replaced_state)
    replaced_state.

(** The root, posted without RECURSIVE. *)
Definition root_plain : PendingChange := mkPending "/w" 0 0.

(** The directory [/w/sub] opens and lists nothing. *)
Definition fs_empty (p : w_string) : error_code + DirHandle :=
  if String.eqb p "/w/sub" then inr (mkDirHandle [] None) else inl 2.

Definition ext_empty : External := demo_ext 2 fs_empty (inr 7).

(** The view holds [/w/sub] with [x], which exists, and [y], which was
    deleted. *)
Definition emptied_state : State :=
  mkState (ext := ext_empty) true false false 0 false
    (mkView [("/w", mkDir []);
             ("/w/sub", mkDir [("x", mkFile true false false);
                               ("y", mkFile false false false)])] 7)
    2 None coll_nil 86400000 20 coll_nil tt [] [].

Definition items_done : State :=
  state_of
    (process_items (ext := ext_small) (root := root_small) 5 DesyncedNo
       [cookie_change; child_change] idle_small)
    idle_small.

(** The view holds [/w/sub] with [x], which exists; reading [/w/sub]
    fails after [a], before [x] is seen. *)
Definition readfail_known : State :=
  mkState (ext := ext_readfail) true false false 0 false
    (mkView [("/w", mkDir []);
             ("/w/sub", mkDir [("x", mkFile true false false)])] 7)
    2 None coll_nil 86400000 20 coll_nil tt [] [].

Definition readfail_opened : State :=
  set_view (resolveDir (view readfail_known) "/w/sub") readfail_known.

(** The timeout has doubled once, and the watcher now posts an item. *)
Definition backed_off_state : State := set_currentTimeout 40 desync_state.

Definition backed_off_done : State :=
  state_of (stepIoThread (ext := ext_small) (root := root_small) 5 backed_off_state)
    backed_off_state.

(** A batch whose one item makes [crawler] add another: reading
    [/w/sub] fails, and the path comes back into the batch. *)
Definition readfail_batch : State :=
  crawled_state (ext := ext_readfail) tt (mkColl [sub_crawl] [1%nat]) false false [].

Definition readfail_batch_done : State :=
  state_of (processAllPending (ext := ext_readfail) (root := root_small) 5 readfail_batch)
    readfail_batch.

End Demo.

(** ** Vocabulary of the statements *)

Section Vocabulary.

Context {ext : External} {root : Root}.

(** [post R E m]: a run of [m] that returns relates the states by [R],
    and a run that fails does so with a failure in [E]. *)
Definition post {A : Type} (R : State -> State -> Prop) (E : Failure -> Prop)
    (m : M A) : Prop :=
  forall s,
    match m s with
    | Ok (_, s') => R s s'
    | Err e => E e
    end.

(** What [processPath] and [crawler] put in the log: no call of
    [statPath] is for a cookie path. *)
Definition crawl_event (e : Event) : Prop :=
  match e with
  | EvStatPath p _ => isCookiePrefix (pc_path p) = false
  | EvNotifyCookie _ | EvScheduleRecrawl _
  | EvHandleOpenErrno _ _ _ | EvMarkDirDeleted _ _ | EvPendingAdd _ => True
  | _ => False
  end.

(** What a pass of [processAllPending] run at tick [t] puts in the log. *)
Definition pass_event (t : ClockTicks) (e : Event) : Prop :=
  match e with
  | EvProcess t' _ => t' = t
  | EvSyncSetValue _ => True
  | _ => crawl_event e
  end.

(** What [fullCrawl] run at tick [t] puts in the log. *)
Definition fullCrawl_event (t : ClockTicks) (e : Event) : Prop :=
  match e with
  | EvReadyToQuery | EvAbortAllCookies => True
  | _ => pass_event t e
  end.

(** The failures open to [processPath]: the recursion bound of the
    embedding, and the [w_assert] on the path. *)
Definition crawl_failure (f : Failure) : Prop :=
  f = OutOfFuel \/ f = AssertFailed msg_descendant.

(** The failures open to a step: those of [processPath], and the
    doubling of the timeout. *)
Definition step_failure (f : Failure) : Prop :=
  crawl_failure f \/ f = SignedOverflow.

(** [frame P s s']: from [s] to [s'] the flags and counters that only
    [fullCrawl], [handleShouldRecrawl] and [stepIoThread] write are
    untouched, a stop flag that will never be raised still will not be,
    and the log has grown by events in [P]. *)
Record frame (P : Event -> Prop) (s s' : State) : Prop := mkFrame {
  fr_done_initial : done_initial s' = done_initial s;
  fr_recrawlCount : recrawlCount s' = recrawlCount s;
  fr_crawlPromise : crawlPromise s' = crawlPromise s;
  fr_tick : mostRecentTick s' = mostRecentTick s;
  fr_biggest : biggestTimeout s' = biggestTimeout s;
  fr_current : currentTimeout s' = currentTimeout s;
  fr_stop : stopIn s = None -> stopIn s' = None;
  fr_log : exists new, log s' = log s ++ new /\ Forall P new
}.

(** A pass at the tick of its first state. *)
Definition pass_frame (s s' : State) : Prop :=
  frame (pass_event (mostRecentTick s)) s s'.

(** [crawled s s']: what [fullCrawl] does to the state. *)
Record crawled (s s' : State) : Prop := mkCrawled {
  cr_done_initial : done_initial s' = true;
  cr_shouldRecrawl : shouldRecrawl s' = false;
  cr_tick : mostRecentTick s' = fetch_add_1 (mostRecentTick s);
  cr_recrawlCount : recrawlCount s' = recrawlCount s;
  cr_biggest : biggestTimeout s' = biggestTimeout s;
  cr_current : currentTimeout s' = currentTimeout s;
  cr_local : coll_empty (localPending s') = true;
  cr_log : exists new,
    log s' = log s ++ new /\ Forall (fullCrawl_event (mostRecentTick s')) new
}.

(** Does the item carry both [IS_DESYNCED] and [CRAWL_ONLY]? *)
Definition desynced_crawl (p : PendingChange) : bool :=
  to_bool (Z.land (pc_flags p) W_PENDING_IS_DESYNCED)
  && to_bool (Z.land (pc_flags p) W_PENDING_CRAWL_ONLY).

Definition is_sync_event (e : Event) : Prop :=
  match e with
  | EvSyncSetValue _ => True
  | _ => False
  end.

(** What [doSettleThings] puts in the log. *)
Definition settle_event (e : Event) : Prop :=
  match e with
  | EvWarmContentCache | EvSettled | EvStopWatch | EvAgeOut => True
  | _ => False
  end.

Definition wait_event (e : Event) : Prop :=
  match e with
  | EvLockAndWait _ => True
  | _ => False
  end.

(** What a step puts in the log outside [doSettleThings]. *)
Definition unsettled_event (e : Event) : Prop :=
  match e with
  | EvWarmContentCache | EvSettled | EvStopWatch | EvAgeOut => False
  | EvStatPath p _ => isCookiePrefix (pc_path p) = false
  | _ => True
  end.

(** What a step puts in the log. *)
Definition step_event (e : Event) : Prop :=
  match e with
  | EvStatPath p _ => isCookiePrefix (pc_path p) = false
  | _ => True
  end.

(** [waited s s']: from the top of a step to its wake-up. *)
Record waited (s s' : State) : Prop := mkWaited {
  wt_done_initial : done_initial s' = true;
  wt_current :
    currentTimeout s' = if done_initial s then currentTimeout s else trigger_settle;
  wt_biggest : biggestTimeout s' = biggestTimeout s;
  wt_tick :
    mostRecentTick s' =
      if done_initial s then mostRecentTick s else fetch_add_1 (mostRecentTick s);
  wt_log : exists new, log s' = log s ++ new /\ Forall unsettled_event new
}.

(** [processed s s']: across the batch stage of a step. *)
Record processed (s s' : State) : Prop := mkProcessed {
  pr_done_initial : done_initial s' = true;
  pr_current : currentTimeout s' = trigger_settle;
  pr_biggest : biggestTimeout s' = biggestTimeout s;
  pr_tick : mostRecentTick s' = fetch_add_1 (mostRecentTick s);
  pr_log : exists new,
    log s' = log s ++ new /\ Forall (fullCrawl_event (mostRecentTick s')) new
}.

(** One step of the thread, whatever recursion bound it ran under. *)
Definition io_step (s s' : State) : Prop :=
  exists fuel c, stepIoThread fuel s = Ok (c, s').

(** [n] steps in a row. *)
Inductive io_steps : nat -> State -> State -> Prop :=
| io_steps_O : forall s, io_steps O s s
| io_steps_S : forall n s1 s2 s3,
    io_step s1 s2 -> io_steps n s2 s3 -> io_steps (S n) s1 s3.

(** The timeout the spec words give: the largest of the non-zero values
    among [gc_interval], [idle_reap_age] and 24 hours. *)
Definition spec_biggestTimeout (r : Root) : Z :=
  fold_right Z.max 0
    (filter (fun t => negb (t =? 0)) [@gc_interval r; @idle_reap_age r; hours_24]).

(** The ways through a step. *)
Inductive step_path (fuel : nat) (s : State) (c : Continue) (s' : State) : Prop :=
| path_stop :
    stopThreads_load s = Ok (true, s) -> c = Stop -> s' = s ->
    step_path fuel s c s'
| path_recrawl : forall s0 pinged s1 s2 s3,
    stopThreads_load s = Ok (false, s0) ->
    step_wait fuel s0 = Ok (pinged, s1) ->
    shouldRecrawl s1 = true ->
    handleShouldRecrawl s1 = Ok (true, s2) ->
    fullCrawl fuel s2 = Ok (tt, s3) ->
    s' = set_currentTimeout trigger_settle s3 -> c = ContinueLoop ->
    step_path fuel s c s'
| path_settle : forall s0 s1,
    stopThreads_load s = Ok (false, s0) ->
    step_wait fuel s0 = Ok (false, s1) ->
    shouldRecrawl s1 = false ->
    coll_empty (localPending s1) = true ->
    step_settle s1 = Ok (c, s') ->
    step_path fuel s c s'
| path_process : forall s0 pinged s1,
    stopThreads_load s = Ok (false, s0) ->
    step_wait fuel s0 = Ok (pinged, s1) ->
    shouldRecrawl s1 = false ->
    negb pinged && coll_empty (localPending s1) = false ->
    step_process fuel s1 = Ok (c, s') ->
    step_path fuel s c s'.

(** Some item handed to [processPath] in these events carried both
    [IS_DESYNCED] and [CRAWL_ONLY]. *)
Definition desynced_in (new : list Event) : Prop :=
  exists t p, In (EvProcess t p) new /\ desynced_crawl p = true.

Definition not_sync (e : Event) : Prop := ~ is_sync_event e.

(** [runs Q m]: [m] always returns, and what it adds to the log is in [Q]. *)
Definition runs {A : Type} (Q : Event -> Prop) (m : M A) : Prop :=
  forall s, exists a s',
    m s = Ok (a, s') /\ exists new, log s' = log s ++ new /\ Forall Q new.

(** What a crawl that opened its directory puts in the log. *)
Definition listing_event (e : Event) : Prop :=
  match e with
  | EvNotifyCookie _ | EvStatPath _ _ | EvPendingAdd _ => True
  | _ => False
  end.

(** [quiet s]: the crawl is done, no recrawl is asked for, no item or
    sync is waiting anywhere, and the other threads do nothing more. *)
Definition quiet (s : State) : Prop :=
  env s = [] /\ stopIn s = None /\ done_initial s = true
  /\ shouldRecrawl s = false
  /\ coll_empty (localPending s) = true
  /\ coll_empty (pendingFromWatcher s) = true.

(** [extends m m']: whatever [m] returns, [m'] returns too. *)
Definition extends {A : Type} (m m' : M A) : Prop :=
  forall s r, m s = Ok r -> m' s = Ok r.

(** [logs P s s']: from [s] to [s'] the log has grown by events in [P]. *)
Definition logs (P : Event -> Prop) (s s' : State) : Prop :=
  exists new, log s' = log s ++ new /\ Forall P new.

(** What the calls the thread makes have in common, whatever the run:
    [statPath] gets neither a cookie, nor the root, nor a CRAWL_ONLY
    item, and a path no shorter than the root's; [notifyCookie] gets a
    cookie path; what [crawler] adds to the batch carries no flag or
    RECURSIVE alone; a recrawl is scheduled for one reason; and
    [handle_open_errno] hears of two system calls. *)
Definition thread_event (e : Event) : Prop :=
  match e with
  | EvStatPath p _ =>
      isCookiePrefix (pc_path p) = false
      /\ String.eqb (pc_path p) root_path = false
      /\ to_bool (Z.land (pc_flags p) W_PENDING_CRAWL_ONLY) = false
      /\ (String.length root_path <= String.length (pc_path p))%nat
  | EvNotifyCookie path =>
      isCookiePrefix path = true
      /\ (String.length root_path <= String.length path)%nat
  | EvPendingAdd p => pc_flags p = 0 \/ pc_flags p = W_PENDING_RECURSIVE
  | EvScheduleRecrawl why => why = reason_root_replaced
  | EvHandleOpenErrno _ syscall _ =>
      syscall = "opendir"%string \/ syscall = "getFileInformation"%string
  | _ => True
  end.

(** Any failure at all. *)
Definition any_failure (f : Failure) : Prop := True.

Definition is_ready_event (e : Event) : bool :=
  match e with
  | EvReadyToQuery => true
  | _ => false
  end.

Definition is_process_event (e : Event) : bool :=
  match e with
  | EvProcess _ _ => true
  | _ => false
  end.

(** The change [crawler] hands to [processPath] for the entry [name] of
    [dir], where [recursive] says whether the crawl is recursive or the
    entry new to the view. *)
Definition entry_change (dir name : w_string) (pending : PendingChange)
    (recursive : bool) : PendingChange :=
  mkPending (getFullPathToChild dir name) (pc_now pending)
    (let newFlags := if recursive then set_flag 0 W_PENDING_RECURSIVE else 0 in
     if to_bool (Z.land (pc_flags pending) W_PENDING_IS_DESYNCED)
     then set_flag newFlags W_PENDING_IS_DESYNCED else newFlags).

(** What [crawler] adds to the batch for the children [fs] of [dir] that
    exist in the view, when the directory lists nothing. *)
Definition requeued (dir : w_string) (now : time_point) (recursive : bool)
    (fs : list (w_string * watchman_file)) : list PendingChange :=
  map (fun nf =>
         mkPending (getFullPathToChild dir (fst nf)) now
           (if recursive then W_PENDING_RECURSIVE else 0))
      (filter (fun nf => f_exists (snd nf)) fs).

(** [rounds s heads s']: the turns of the outer loop of
    [processAllPending] from [s].  [heads] are the states in which the
    loop found the batch not empty, in order: in each it takes the
    whole batch and runs the inner loop over its items, which leaves
    the next state.  In [s'] the loop finds the batch empty. *)
Inductive rounds : State -> list State -> State -> Prop :=
| rounds_done : forall s,
    coll_empty (localPending s) = true -> rounds s [] s
| rounds_more : forall s fuel d d' s1 heads s',
    coll_empty (localPending s) = false ->
    process_items fuel d (coll_items (localPending s)) (set_localPending coll_nil s)
      = Ok (d', s1) ->
    rounds s1 heads s' ->
    rounds s (s :: heads) s'.

(** What [doSettleThings] does, in order, when the idle root is reaped. *)
Definition reap_events : list Event := [EvWarmContentCache; EvSettled; EvStopWatch].

End Vocabulary.

(** ** Rules for [post] *)

Section Rules.

Context {ext : External} {root : Root}.

Variable R : State -> State -> Prop.
Variable E : Failure -> Prop.
Hypothesis R_refl : forall s, R s s.
Hypothesis R_trans : forall s1 s2 s3, R s1 s2 -> R s2 s3 -> R s1 s3.

Lemma post_ret {A : Type} (a : A) : post R E (ret a).
Proof. intros s. simpl. apply R_refl. Qed.

Lemma post_gets {A : Type} (f : State -> A) : post R E (gets f).
Proof. intros s. simpl. apply R_refl. Qed.

Lemma post_modify (f : State -> State) :
  (forall s, R s (f s)) -> post R E (modify f).
Proof. intros H s. simpl. apply H. Qed.

Lemma post_fail {A : Type} (e : Failure) : E e -> post R E (@fail _ A e).
Proof. intros H s. exact H. Qed.

Lemma post_bind {A B : Type} (m : M A) (f : A -> M B) :
  post R E m -> (forall a, post R E (f a)) -> post R E (bind m f).
Proof.
  intros Hm Hf s. unfold bind. specialize (Hm s).
  destruct (m s) as [[a s1] | e]; [| exact Hm].
  specialize (Hf a s1). destruct (f a s1) as [[b s2] | e]; [| exact Hf].
  eapply R_trans; eauto.
Qed.

Lemma post_w_assert (b : bool) (msg : string) :
  E (AssertFailed msg) -> post R E (w_assert b msg).
Proof.
  intros H. unfold w_assert. destruct b; [apply post_ret | apply post_fail, H].
Qed.

End Rules.

(** ** What a pass leaves alone *)

Section Frames.

Context {ext : External} {root : Root}.

Lemma frame_refl (P : Event -> Prop) (s : State) : frame P s s.
Proof.
  constructor; try reflexivity; [auto |].
  exists []. rewrite app_nil_r. split; [reflexivity | constructor].
Qed.

Lemma frame_trans (P : Event -> Prop) (s1 s2 s3 : State) :
  frame P s1 s2 -> frame P s2 s3 -> frame P s1 s3.
Proof.
  intros [a1 a2 a3 a4 a5 a6 a7 (n1 & l1 & f1)] [b1 b2 b3 b4 b5 b6 b7 (n2 & l2 & f2)].
  constructor; try congruence; [auto |].
  exists (n1 ++ n2). split.
  - rewrite l2, l1, app_assoc. reflexivity.
  - apply Forall_app. split; assumption.
Qed.

Lemma frame_weaken (P Q : Event -> Prop) (s s' : State) :
  (forall e, P e -> Q e) -> frame P s s' -> frame Q s s'.
Proof.
  intros HPQ [a1 a2 a3 a4 a5 a6 a7 (n & l & f)].
  constructor; try assumption.
  exists n. split; [assumption |].
  eapply Forall_impl; [| exact f]. exact HPQ.
Qed.

Lemma frame_emit (P : Event -> Prop) (e : Event) (s : State) :
  P e -> frame P s (set_log (log s ++ [e]) s).
Proof.
  intros H. constructor; try reflexivity; [auto |].
  exists [e]. split; [reflexivity | constructor; [exact H | constructor]].
Qed.

Lemma pass_frame_refl (s : State) : pass_frame s s.
Proof. apply frame_refl. Qed.

Lemma pass_frame_trans (s1 s2 s3 : State) :
  pass_frame s1 s2 -> pass_frame s2 s3 -> pass_frame s1 s3.
Proof.
  unfold pass_frame. intros H1 H2.
  rewrite (fr_tick _ _ _ H1) in H2. eapply frame_trans; eassumption.
Qed.

Lemma crawl_event_pass (t : ClockTicks) (e : Event) :
  crawl_event e -> pass_event t e.
Proof. destruct e; simpl; tauto. Qed.

Lemma post_weaken {A : Type} (R R' : State -> State -> Prop)
    (E E' : Failure -> Prop) (m : M A) :
  (forall s s', R s s' -> R' s s') -> (forall e, E e -> E' e) ->
  post R E m -> post R' E' m.
Proof.
  intros HR HE Hm s. specialize (Hm s).
  destruct (m s) as [[a s'] | e]; auto.
Qed.

Lemma emit_frame (P : Event -> Prop) (E : Failure -> Prop) (e : Event) :
  P e -> post (frame P) E (emit e).
Proof. intros H. apply post_modify. intros s. apply frame_emit, H. Qed.

Lemma stopThreads_load_frame (P : Event -> Prop) (E : Failure -> Prop) :
  post (frame P) E stopThreads_load.
Proof.
  intros s. unfold stopThreads_load.
  destruct (stopIn s) as [[| n] |] eqn:Hstop; try apply frame_refl.
  constructor; simpl; try reflexivity; [congruence |].
  exists []. rewrite app_nil_r. split; [reflexivity | constructor].
Qed.

Lemma stopThreads_load_pass (E : Failure -> Prop) : post pass_frame E stopThreads_load.
Proof.
  intros s. exact (stopThreads_load_frame (pass_event (mostRecentTick s)) E s).
Qed.

End Frames.

Ltac frame_set :=
  repeat match goal with
         | |- context [match ?x with pair _ _ => _ end] => destruct x
         end;
  constructor; simpl; try reflexivity; try (intros ?; assumption);
  exists []; rewrite app_nil_r; split; [reflexivity | constructor].

Ltac post_step :=
  match goal with
  | |- post _ _ (bind _ _) => apply post_bind; [apply frame_trans | | intros ?]
  | |- post _ _ (ret _) => apply post_ret, frame_refl
  | |- post _ _ (gets _) => apply post_gets, frame_refl
  | |- post _ _ (modify _) => apply post_modify; intros ?; frame_set
  | |- post _ _ (fail _) => apply post_fail
  | |- post _ _ (emit _) => apply emit_frame
  | |- post _ _ (w_assert _ _) => apply post_w_assert; [apply frame_refl |]
  | |- post _ _ (if ?b then _ else _) => destruct b
  | |- post _ _ (match ?x with _ => _ end) => destruct x
  end.

Section CrawlFrames.

Context {ext : External} {root : Root}.

Abbreviation crawl_post := (post (frame crawl_event) crawl_failure).

Lemma scheduleRecrawl_frame (why : string) : crawl_post (scheduleRecrawl why).
Proof. unfold scheduleRecrawl. repeat post_step. exact I. Qed.

Lemma coll_add_frame (p : PendingChange) : crawl_post (coll_add p).
Proof. unfold coll_add. repeat post_step. exact I. Qed.

Lemma open_failed_frame (dir : w_string) (now : time_point) (syscall : string)
    (err : error_code) : crawl_post (open_failed dir now syscall err).
Proof. unfold open_failed. repeat post_step; exact I. Qed.

Lemma check_root_inode_frame (dir : w_string) (pending : PendingChange)
    (recursive : bool) : crawl_post (check_root_inode dir pending recursive).
Proof.
  unfold check_root_inode. repeat post_step;
    try apply scheduleRecrawl_frame; try apply open_failed_frame.
Qed.

Lemma call_statPath_frame (pending : PendingChange) (pre_stat : option DirEntry) :
  isCookiePrefix (pc_path pending) = false ->
  crawl_post (call_statPath pending pre_stat).
Proof. intros H. unfold call_statPath. repeat post_step. exact H. Qed.

Lemma consider_cookie_frame (pending : PendingChange) :
  crawl_post (consider_cookie pending).
Proof. unfold consider_cookie. repeat post_step. Qed.

Section WithProcessPath.

Variable pp : PendingChange -> option DirEntry -> M unit.
Hypothesis pp_frame : forall p pre, crawl_post (pp p pre).

Lemma crawl_entry_frame (dir : w_string) (pending : PendingChange)
    (recursive stat_all : bool) (dirent : DirEntry) :
  crawl_post (crawl_entry pp dir pending recursive stat_all dirent).
Proof. unfold crawl_entry. repeat post_step; apply pp_frame. Qed.

Lemma crawl_entries_frame (dir : w_string) (pending : PendingChange)
    (recursive stat_all : bool) (entries : list DirEntry) :
  crawl_post (crawl_entries pp dir pending recursive stat_all entries).
Proof.
  induction entries as [| dirent rest IH]; simpl.
  - post_step.
  - post_step; [apply crawl_entry_frame | exact IH].
Qed.

Lemma requeue_children_frame (dir : w_string) (now : time_point)
    (recursive : bool) (fs : list (w_string * watchman_file)) :
  crawl_post (requeue_children dir now recursive fs).
Proof.
  induction fs as [| [name file] rest IH]; simpl.
  - post_step.
  - post_step; [| exact IH]. post_step; [apply coll_add_frame | post_step].
Qed.

Lemma crawler_frame (pending : PendingChange) : crawl_post (crawler pp pending).
Proof.
  unfold crawler. post_step; [post_step | ].
  post_step.
  - post_step; [apply check_root_inode_frame | post_step].
  - post_step; [| post_step].
    post_step.
    + intros s. destruct (startWatchDir (world s) (pc_path pending)) as [r w].
      frame_set.
    + post_step; [apply open_failed_frame |].
      repeat post_step;
        try apply crawl_entries_frame; try apply coll_add_frame;
        try apply requeue_children_frame.
Qed.

End WithProcessPath.

Lemma processPath_frame (fuel : nat) (pending : PendingChange)
    (pre_stat : option DirEntry) :
  crawl_post (processPath fuel pending pre_stat).
Proof.
  revert pending pre_stat.
  induction fuel as [| fuel IH]; intros pending pre_stat; simpl.
  - post_step. left. reflexivity.
  - post_step; [post_step; right; reflexivity |].
    destruct (isCookiePrefix (pc_path pending)) eqn:Hcookie.
    + post_step; [apply consider_cookie_frame |].
      repeat post_step. exact I.
    + post_step; [apply crawler_frame, IH | apply call_statPath_frame, Hcookie].
Qed.

End CrawlFrames.

Ltac pass_set :=
  unfold pass_frame;
  repeat match goal with
         | |- context [match ?x with pair _ _ => _ end] => destruct x
         end;
  constructor; simpl; try reflexivity; try (intros ?; assumption);
  first [ exists []; rewrite app_nil_r; split; [reflexivity | constructor]
        | eexists; split; [reflexivity |];
          constructor; [simpl; auto | constructor] ].

Ltac pass_step :=
  match goal with
  | |- post _ _ (bind _ _) => apply post_bind; [apply pass_frame_trans | | intros ?]
  | |- post _ _ (ret _) => apply post_ret, pass_frame_refl
  | |- post _ _ (gets _) => apply post_gets, pass_frame_refl
  | |- post _ _ (modify _) => apply post_modify; intros ?; pass_set
  | |- post _ _ (fail _) => apply post_fail
  | |- post _ _ (emit _) => apply post_modify; intros ?; pass_set
  | |- post _ _ stopThreads_load => apply stopThreads_load_pass
  | |- post _ _ (if ?b then _ else _) => destruct b
  | |- post _ _ (match ?x with _ => _ end) => destruct x
  end.

Section PassFrames.

Context {ext : External} {root : Root}.

Abbreviation pass_post := (post pass_frame crawl_failure).

Lemma crawl_frame_pass (s s' : State) : frame crawl_event s s' -> pass_frame s s'.
Proof. apply frame_weaken. intros e. apply crawl_event_pass. Qed.

Lemma processPath_pass (fuel : nat) (pending : PendingChange)
    (pre_stat : option DirEntry) : pass_post (processPath fuel pending pre_stat).
Proof.
  eapply post_weaken; [apply crawl_frame_pass | | apply processPath_frame]. auto.
Qed.

Lemma process_item_pass (fuel : nat) (d : IsDesynced) (p : PendingChange) :
  pass_post (process_item fuel d p).
Proof.
  unfold process_item. pass_step; [pass_step |].
  pass_step; [pass_step |].
  pass_step; [pass_step |].
  pass_step; [apply processPath_pass | pass_step].
Qed.

Lemma process_items_pass (fuel : nat) (d : IsDesynced) (pending : list PendingChange) :
  pass_post (process_items fuel d pending).
Proof.
  revert d. induction pending as [| p next IH]; intros d; simpl.
  - pass_step.
  - pass_step; [apply process_item_pass | apply IH].
Qed.

Lemma coll_empty_false (c : PendingChanges) :
  coll_empty c = false -> coll_syncs c = [] -> coll_items c <> [].
Proof.
  unfold coll_empty. intros H Hs Hi. rewrite Hs, Hi in H. discriminate.
Qed.

Lemma processAllPending_loop_pass (fuel : nat) (d : IsDesynced)
    (allSyncs : list (list Promise)) :
  pass_post (processAllPending_loop fuel d allSyncs).
Proof.
  revert d allSyncs.
  induction fuel as [| fuel IH]; intros d allSyncs; simpl.
  - pass_step. left. reflexivity.
  - pass_step; [pass_step |].
    destruct (coll_empty a) eqn:Hempty; [pass_step |].
    pass_step; [pass_step |].
    pass_step.
    + destruct (coll_syncs a) eqn:Hsyncs; [| pass_step].
      pass_step; [| pass_step].
      destruct (coll_items a) eqn:Hitems.
      * exfalso. eapply coll_empty_false; eassumption.
      * simpl. pass_step.
    + pass_step; [apply process_items_pass | apply IH].
Qed.

Lemma resolve_syncs_pass (syncs : list Promise) : pass_post (resolve_syncs syncs).
Proof.
  induction syncs as [| sync rest IH]; simpl.
  - pass_step.
  - pass_step; [pass_step | exact IH].
Qed.

Lemma processAllPending_pass (fuel : nat) : pass_post (processAllPending fuel).
Proof.
  unfold processAllPending.
  pass_step; [apply processAllPending_loop_pass |].
  pass_step; [apply resolve_syncs_pass | pass_step].
Qed.

Lemma lockShared_pass : pass_post lockShared.
Proof.
  intros s. unfold lockShared. destruct (env s) as [| a rest].
  - apply pass_frame_refl.
  - unfold apply_env. pass_set.
Qed.

Lemma stealIntoLocal_pass : pass_post stealIntoLocal.
Proof. unfold stealIntoLocal. pass_step. Qed.

Lemma fullCrawl_loop_pass (fuel : nat) : pass_post (fullCrawl_loop fuel).
Proof.
  induction fuel as [| fuel IH]; simpl.
  - pass_step. left. reflexivity.
  - pass_step; [apply lockShared_pass |].
    pass_step; [apply stealIntoLocal_pass |].
    pass_step; [pass_step |].
    pass_step; [pass_step |].
    pass_step; [apply processAllPending_pass | exact IH].
Qed.

End PassFrames.

(** ** Flags *)

Lemma land_pow2 (f k : Z) :
  0 <= k -> Z.land f (2 ^ k) = if Z.testbit f k then 2 ^ k else 0.
Proof.
  intros Hk. apply Z.bits_inj'. intros n Hn.
  rewrite Z.land_spec, Z.pow2_bits_eqb by lia.
  destruct (Z.eqb_spec k n) as [-> | Hne].
  - destruct (Z.testbit f n) eqn:Hf; simpl.
    + rewrite Z.pow2_bits_eqb, Z.eqb_refl by lia. reflexivity.
    + rewrite Z.bits_0. reflexivity.
  - rewrite andb_false_r.
    destruct (Z.testbit f k).
    + rewrite Z.pow2_bits_eqb by lia.
      symmetry. apply Z.eqb_neq. exact Hne.
    + rewrite Z.bits_0. reflexivity.
Qed.

Lemma to_bool_contains_bit (f k : Z) :
  0 <= k -> to_bool (Z.land f (2 ^ k)) = contains f (2 ^ k).
Proof.
  intros Hk. unfold to_bool, contains. rewrite land_pow2 by exact Hk.
  assert (0 < 2 ^ k) by (apply Z.pow_pos_nonneg; lia).
  destruct (Z.testbit f k).
  - rewrite Z.eqb_refl. destruct (Z.eqb_spec (2 ^ k) 0); [lia | reflexivity].
  - destruct (Z.eqb_spec 0 (2 ^ k)); [lia | reflexivity].
Qed.

Lemma via_notify_contains (f : PendingFlags) :
  to_bool (Z.land f W_PENDING_VIA_NOTIFY) = contains f W_PENDING_VIA_NOTIFY.
Proof. apply (to_bool_contains_bit f 1). lia. Qed.

Lemma is_desynced_contains (f : PendingFlags) :
  to_bool (Z.land f W_PENDING_IS_DESYNCED) = contains f W_PENDING_IS_DESYNCED.
Proof. apply (to_bool_contains_bit f 4). lia. Qed.

Lemma crawl_only_contains (f : PendingFlags) :
  to_bool (Z.land f W_PENDING_CRAWL_ONLY) = contains f W_PENDING_CRAWL_ONLY.
Proof. apply (to_bool_contains_bit f 2). lia. Qed.

(** ** The timeouts at the start of the thread *)

Section Timeouts.

Context {ext : External} {root : Root}.

(** C3, amended.  [getBiggestTimeout] is the smaller of [gc_interval] and
    [idle_reap_age] when both are non-zero, the non-zero one when only
    one is, and 24 hours when both are zero; the thread starts with
    [biggestTimeout] set to it and [currentTimeout] set to
    [trigger_settle]. *)
Theorem ioThread_initial_timeouts (s : State) :
  getBiggestTimeout root =
    (if gc_interval =? 0
     then if idle_reap_age =? 0 then hours_24 else idle_reap_age
     else if idle_reap_age =? 0 then gc_interval
          else Z.min gc_interval idle_reap_age)
  /\ biggestTimeout (ioThread_init s) = getBiggestTimeout root
  /\ currentTimeout (ioThread_init s) = trigger_settle
  /\ (forall steps fuel,
        ioThread steps fuel s = ioThread_loop steps fuel (ioThread_init s)).
Proof.
  split; [| split; [reflexivity | split; [reflexivity |]]].
  - unfold getBiggestTimeout.
    destruct (Z.eqb_spec gc_interval 0) as [Hg | Hg]; simpl.
    + destruct (Z.eqb_spec idle_reap_age 0); reflexivity.
    + destruct (Z.eqb_spec idle_reap_age 0) as [Hi | Hi]; simpl.
      * destruct (Z.eqb_spec gc_interval 0); [contradiction | reflexivity].
      * destruct (Z.ltb_spec idle_reap_age gc_interval).
        -- destruct (Z.eqb_spec idle_reap_age 0); [contradiction |]. lia.
        -- destruct (Z.eqb_spec gc_interval 0); [contradiction |]. lia.
  - intros steps fuel. reflexivity.
Qed.

End Timeouts.

(** ** Taking runs apart *)

Ltac bind_inv H :=
  match type of H with
  | bind ?m ?f ?s = Ok _ =>
      let a := fresh "a" in
      let s1 := fresh "s" in
      let E := fresh "E" in
      unfold bind in H at 1;
      destruct (m s) as [[a s1] | ?] eqn:E; [| discriminate H]
  end.

Section Crawl.

Context {ext : External} {root : Root}.

Lemma lockShared_ok (s : State) : exists pinged s', lockShared s = Ok (pinged, s').
Proof.
  unfold lockShared. destruct (env s); eauto.
Qed.

Lemma fullCrawl_loop_exit (fuel : nat) (s s' : State) (u : unit) :
  fullCrawl_loop fuel s = Ok (u, s') -> coll_empty (localPending s') = true.
Proof.
  revert s. induction fuel as [| fuel IH]; intros s H; simpl in H.
  - discriminate.
  - bind_inv H. bind_inv H. bind_inv H.
    unfold gets in E1. injection E1 as <- <-.
    destruct (coll_empty (localPending s1)) eqn:Hempty.
    + unfold ret in H. injection H as <- <-. exact Hempty.
    + bind_inv H. eapply IH. exact H.
Qed.

Lemma fullCrawl_event_pass (t : ClockTicks) (e : Event) :
  pass_event t e -> fullCrawl_event t e.
Proof. destruct e; simpl; tauto. Qed.

Lemma fullCrawl_crawled (fuel : nat) : post crawled crawl_failure (fullCrawl fuel).
Proof.
  intros s. unfold fullCrawl.
  unfold bind at 1. simpl. unfold bind at 1. simpl. unfold bind at 1.
  destruct (lockShared_ok (set_mostRecentTick (fetch_add_1 (mostRecentTick s)) s))
    as (pinged & s1 & Hlock).
  pose proof (lockShared_pass (set_mostRecentTick (fetch_add_1 (mostRecentTick s)) s))
    as Hf1.
  rewrite Hlock in *. unfold bind at 1. simpl. unfold bind at 1.
  match goal with |- context [fullCrawl_loop fuel ?x] => set (s2 := x) end.
  assert (Hf2 : pass_frame s1 s2) by (subst s2; pass_set).
  pose proof (fullCrawl_loop_pass fuel s2) as Hf3.
  destruct (fullCrawl_loop fuel s2) as [[u s3] | e] eqn:Hloop; [| exact Hf3].
  pose proof (fullCrawl_loop_exit _ _ _ _ Hloop) as Hexit.
  pose proof (pass_frame_trans _ _ _ Hf1 (pass_frame_trans _ _ _ Hf2 Hf3)) as Hf.
  destruct Hf as [h1 h2 h3 h4 h5 h6 h7 (new & hl & hf)]. simpl in *.
  unfold bind at 1. simpl. unfold bind at 1. simpl.
  destruct (crawlPromise s3); simpl.
  - constructor; simpl; try assumption; try reflexivity.
    exists (new ++ [EvReadyToQuery; EvAbortAllCookies]). split.
    + rewrite hl. rewrite <- !app_assoc. reflexivity.
    + rewrite h4. apply Forall_app. split.
      * eapply Forall_impl; [| exact hf]. apply fullCrawl_event_pass.
      * repeat constructor.
  - constructor; simpl; try assumption; try reflexivity.
    exists (new ++ [EvAbortAllCookies]). split.
    + rewrite hl. rewrite <- !app_assoc. reflexivity.
    + rewrite h4. apply Forall_app. split.
      * eapply Forall_impl; [| exact hf]. apply fullCrawl_event_pass.
      * repeat constructor.
Qed.

End Crawl.

(** ** The pieces of a step *)

Section StepPieces.

Context {ext : External} {root : Root}.

Lemma stopThreads_load_same (s s0 : State) (b : bool) :
  stopThreads_load s = Ok (b, s0) ->
  shouldRecrawl s0 = shouldRecrawl s /\ cancelled s0 = cancelled s
  /\ localPending s0 = localPending s /\ log s0 = log s
  /\ done_initial s0 = done_initial s /\ mostRecentTick s0 = mostRecentTick s
  /\ currentTimeout s0 = currentTimeout s /\ biggestTimeout s0 = biggestTimeout s.
Proof.
  unfold stopThreads_load. intros H.
  destruct (stopIn s) as [[| n] |]; injection H as <- <-; simpl; tauto.
Qed.

Lemma stopThreads_load_stop (s s0 : State) :
  stopThreads_load s = Ok (true, s0) -> s0 = s.
Proof.
  unfold stopThreads_load. intros H.
  destruct (stopIn s) as [[| n] |]; congruence.
Qed.

Lemma lockShared_frame (P : Event -> Prop) (E : Failure -> Prop) :
  post (frame P) E lockShared.
Proof.
  intros s. unfold lockShared. destruct (env s) as [| a rest].
  - apply frame_refl.
  - unfold apply_env. frame_set.
Qed.

Lemma stealIntoLocal_frame (P : Event -> Prop) (E : Failure -> Prop) :
  post (frame P) E stealIntoLocal.
Proof. unfold stealIntoLocal. post_step. Qed.

(** [handleShouldRecrawl], computed. *)
Lemma handleShouldRecrawl_eq (s : State) :
  handleShouldRecrawl s =
    Ok (shouldRecrawl s,
        if shouldRecrawl s
        then if cancelled s then s
             else set_done_initial false
                    (set_recrawlCount ((recrawlCount s + 1) mod recrawl_modulus) s)
        else s).
Proof.
  unfold handleShouldRecrawl, bind, gets. simpl.
  destruct (shouldRecrawl s); simpl; [| reflexivity].
  destruct (cancelled s); reflexivity.
Qed.

Lemma doSettleThings_frame (E : Failure -> Prop) :
  post (frame settle_event) E doSettleThings.
Proof. unfold doSettleThings. repeat post_step; exact I. Qed.

Lemma fullCrawl_event_unsettled (t : ClockTicks) (e : Event) :
  fullCrawl_event t e -> unsettled_event e.
Proof. destruct e; simpl; tauto. Qed.

Lemma wait_event_unsettled (e : Event) : wait_event e -> unsettled_event e.
Proof. destruct e; simpl; tauto. Qed.

(** The wait itself. *)
Lemma step_wait_tail_frame (E : Failure -> Prop) :
  post (frame wait_event) E
    (bind (gets currentTimeout) (fun timeout =>
     bind (emit (EvLockAndWait timeout)) (fun _ =>
     bind lockShared (fun pinged =>
     bind stealIntoLocal (fun _ => ret pinged))))).
Proof.
  post_step; [post_step |].
  post_step; [post_step; exact I |].
  post_step; [apply lockShared_frame |].
  post_step; [apply stealIntoLocal_frame | post_step].
Qed.

Lemma step_wait_waited (fuel : nat) : post waited crawl_failure (step_wait fuel).
Proof.
  intros s. unfold step_wait. unfold bind at 1. simpl.
  destruct (done_initial s) eqn:Hdi; simpl.
  - unfold bind at 1. simpl.
    match goal with |- match ?m s with _ => _ end =>
      pose proof (step_wait_tail_frame crawl_failure s) as Ht;
      change (match m s with Ok (_, s') => waited s s' | Err e => crawl_failure e end)
    end.
    match type of Ht with match ?m with _ => _ end =>
      destruct m as [[pinged s1] | e]; [| exact Ht] end.
    destruct Ht as [h1 h2 h3 h4 h5 h6 h7 (new & hl & hf)].
    constructor; rewrite ?Hdi; try congruence.
    exists new. split; [exact hl |].
    eapply Forall_impl; [| exact hf]. apply wait_event_unsettled.
  - unfold bind at 1. unfold bind at 1.
    pose proof (fullCrawl_crawled fuel s) as Hc.
    destruct (fullCrawl fuel s) as [[u s1] | e]; [| exact Hc].
    simpl.
    match goal with |- match ?m ?x with _ => _ end =>
      pose proof (step_wait_tail_frame crawl_failure x) as Ht;
      change (match m x with Ok (_, s') => waited s s' | Err e => crawl_failure e end)
    end.
    match type of Ht with match ?m with _ => _ end =>
      destruct m as [[pinged s2] | e]; [| exact Ht] end.
    destruct Ht as [h1 h2 h3 h4 h5 h6 h7 (new & hl & hf)]. simpl in *.
    destruct Hc as [c1 c2 c3 c4 c5 c6 c7 (new1 & cl & cf)].
    constructor; rewrite ?Hdi; try congruence.
    exists (new1 ++ new). split.
    + rewrite hl, cl, app_assoc. reflexivity.
    + apply Forall_app. split.
      * eapply Forall_impl; [| exact cf]. apply fullCrawl_event_unsettled.
      * eapply Forall_impl; [| exact hf]. apply wait_event_unsettled.
Qed.

End StepPieces.

Section StepStages.

Context {ext : External} {root : Root}.

Lemma step_settle_spec (s : State) :
  match step_settle s with
  | Ok (c, s') =>
      frame settle_event (set_currentTimeout (currentTimeout s') s) s'
      /\ (c = ContinueLoop ->
          currentTimeout s' = Z.min (biggestTimeout s) (currentTimeout s * 2))
      /\ (c = Stop -> currentTimeout s' = currentTimeout s)
  | Err e => e = SignedOverflow
  end.
Proof.
  unfold step_settle. unfold bind at 1.
  pose proof (doSettleThings_frame (fun _ => False) s) as Hd.
  destruct (doSettleThings s) as [[c s1] | e]; [| contradiction].
  destruct Hd as [h1 h2 h3 h4 h5 h6 h7 hl].
  destruct c; simpl.
  - split; [| split; [discriminate | intros _; exact h6]].
    constructor; simpl; try assumption; reflexivity.
  - unfold bind, gets, double_timeout. simpl.
    destruct ((ms_min <=? currentTimeout s1 * 2) && (currentTimeout s1 * 2 <=? ms_max));
      simpl; [| reflexivity].
    split; [| split; [intros _; congruence | discriminate]].
    constructor; simpl; try assumption; reflexivity.
Qed.

Lemma step_process_spec (fuel : nat) (s : State) :
  done_initial s = true ->
  match step_process fuel s with
  | Ok (c, s') => c = ContinueLoop /\ processed s s'
  | Err e => crawl_failure e
  end.
Proof.
  intros Hdi. unfold step_process. unfold bind at 1. simpl.
  unfold bind at 1. simpl. rewrite Hdi. unfold bind at 1. simpl.
  unfold bind at 1. simpl. unfold bind at 1.
  match goal with |- context [processAllPending fuel ?x] => set (s1 := x) end.
  pose proof (processAllPending_pass fuel s1) as Hp.
  destruct (processAllPending fuel s1) as [[d s2] | e]; [| exact Hp].
  destruct Hp as [h1 h2 h3 h4 h5 h6 h7 (new & hl & hf)]. subst s1. simpl in *.
  destruct d; simpl.
  - split; [reflexivity |].
    constructor; simpl; try congruence.
    exists (new ++ [EvAbortAllCookies]). split.
    + rewrite hl, app_assoc. reflexivity.
    + rewrite h4. apply Forall_app. split.
      * eapply Forall_impl; [| exact hf]. apply fullCrawl_event_pass.
      * repeat constructor.
  - split; [reflexivity |].
    constructor; simpl; try congruence.
    exists new. split; [exact hl |].
    rewrite h4. eapply Forall_impl; [| exact hf]. apply fullCrawl_event_pass.
Qed.

Lemma step_process_pending_crawl (fuel : nat) (s : State) :
  done_initial s = false ->
  step_process fuel s = Err (CheckFailed msg_full_crawl).
Proof.
  intros Hdi. unfold step_process, bind, modify, gets, w_check. simpl.
  rewrite Hdi. reflexivity.
Qed.

Lemma stepIoThread_paths (fuel : nat) (s : State) (c : Continue) (s' : State) :
  stepIoThread fuel s = Ok (c, s') -> step_path fuel s c s'.
Proof.
  intros H. unfold stepIoThread in H.
  bind_inv H. destruct a.
  - pose proof (stopThreads_load_stop _ _ E) as ->.
    unfold ret in H. injection H as <- <-.
    apply path_stop; auto.
  - bind_inv H. rename a into pinged.
    unfold bind in H at 1. rewrite handleShouldRecrawl_eq in H.
    destruct (shouldRecrawl s1) eqn:Hsr.
    + bind_inv H. destruct a.
      unfold bind, modify, ret in H. injection H as <- <-.
      eapply path_recrawl; eauto.
      rewrite handleShouldRecrawl_eq, Hsr. reflexivity.
    + unfold bind, gets in H. simpl in H.
      destruct (negb pinged && coll_empty (localPending s1)) eqn:Hq.
      * apply andb_true_iff in Hq. destruct Hq as [Hp He].
        apply negb_true_iff in Hp. subst pinged.
        eapply path_settle; eauto.
      * eapply path_process; eauto.
Qed.

End StepStages.

(** ** Recrawls *)

Section Recrawl.

Context {ext : External} {root : Root}.

(** C5, amended.  When [handleShouldRecrawl] sees [shouldRecrawl] set it
    returns true; it increments [recrawlCount] and clears [done_initial]
    only when the root is not cancelled, and leaves the state as it is
    when the root is cancelled. *)
Theorem handleShouldRecrawl_when_set (s : State) :
  shouldRecrawl s = true ->
  handleShouldRecrawl s =
    Ok (true,
        if cancelled s then s
        else set_done_initial false
               (set_recrawlCount ((recrawlCount s + 1) mod recrawl_modulus) s)).
Proof.
  intros H. rewrite handleShouldRecrawl_eq, H. reflexivity.
Qed.

Lemma handleShouldRecrawl_false (s s' : State) :
  handleShouldRecrawl s = Ok (false, s') -> shouldRecrawl s = false /\ s' = s.
Proof.
  rewrite handleShouldRecrawl_eq. intros H.
  destruct (shouldRecrawl s); [discriminate |].
  injection H as <-. auto.
Qed.

Lemma stepIoThread_failure (fuel : nat) (s : State) (e : Failure) :
  stepIoThread fuel s = Err e -> step_failure e.
Proof.
  unfold stepIoThread. unfold bind at 1.
  destruct (stopThreads_load s) as [[stop s0] | e0] eqn:Hstop.
  2:{ unfold stopThreads_load in Hstop.
      destruct (stopIn s) as [[| n] |]; discriminate. }
  destruct stop; [discriminate |].
  unfold bind at 1.
  pose proof (step_wait_waited fuel s0) as Hw.
  destruct (step_wait fuel s0) as [[pinged s1] | e1].
  2:{ intros H. injection H as <-. left. exact Hw. }
  unfold bind at 1. rewrite handleShouldRecrawl_eq.
  destruct (shouldRecrawl s1).
  - unfold bind at 1.
    match goal with |- context [fullCrawl fuel ?x] =>
      pose proof (fullCrawl_crawled fuel x) as Hc;
      destruct (fullCrawl fuel x) as [[u s2] | e2]
    end.
    + discriminate.
    + intros H. injection H as <-. left. exact Hc.
  - unfold bind at 1. simpl.
    destruct (negb pinged && coll_empty (localPending s1)).
    + pose proof (step_settle_spec s1) as Hs.
      destruct (step_settle s1) as [[c s2] | e2]; [discriminate |].
      intros H. injection H as <-. right. exact Hs.
    + pose proof (step_process_spec fuel s1 (wt_done_initial _ _ Hw)) as Hp.
      destruct (step_process fuel s1) as [[c s2] | e2]; [discriminate |].
      intros H. injection H as <-. left. exact Hp.
Qed.

(** C10.  Whenever a step gets past [handleShouldRecrawl] with the answer
    false, [done_initial] is true there, and no step ever ends in a
    failed [w_check]: in particular never in "A full crawl should not
    be pending at this point in the loop." *)
Theorem full_crawl_check_holds (fuel : nat) (s : State) :
  (forall s0 pinged s1 s2,
     stopThreads_load s = Ok (false, s0) ->
     step_wait fuel s0 = Ok (pinged, s1) ->
     handleShouldRecrawl s1 = Ok (false, s2) ->
     done_initial s2 = true)
  /\ (forall msg, stepIoThread fuel s <> Err (CheckFailed msg)).
Proof.
  split.
  - intros s0 pinged s1 s2 _ Hwait Hrecrawl.
    apply handleShouldRecrawl_false in Hrecrawl. destruct Hrecrawl as [_ ->].
    pose proof (step_wait_waited fuel s0) as Hw. rewrite Hwait in Hw.
    exact (wt_done_initial _ _ Hw).
  - intros msg H. apply stepIoThread_failure in H.
    destruct H as [[H | H] | H]; discriminate.
Qed.

End Recrawl.

(** ** Settling *)

Section Settle.

Context {ext : External} {root : Root}.

Lemma unsettled_not_settled (old new : list Event) (l : list Event) :
  l = old ++ new ->
  (exists new', l = old ++ new' /\ Forall unsettled_event new') ->
  ~ In EvSettled new.
Proof.
  intros Hl (new' & Hl' & Hf) Hin.
  rewrite Hl in Hl'. apply app_inv_head in Hl'. subst new'.
  rewrite Forall_forall in Hf. apply (Hf _ Hin).
Qed.

Lemma crawled_log_unsettled (s s' : State) :
  crawled s s' -> exists new, log s' = log s ++ new /\ Forall unsettled_event new.
Proof.
  intros [_ _ _ _ _ _ _ (new & Hl & Hf)]. exists new. split; [exact Hl |].
  eapply Forall_impl; [| exact Hf]. apply fullCrawl_event_unsettled.
Qed.

Lemma log_ext_trans (P : Event -> Prop) (l1 l2 l3 : list Event) :
  (exists new, l2 = l1 ++ new /\ Forall P new) ->
  (exists new, l3 = l2 ++ new /\ Forall P new) ->
  exists new, l3 = l1 ++ new /\ Forall P new.
Proof.
  intros (n1 & -> & F1) (n2 & -> & F2).
  exists (n1 ++ n2). rewrite app_assoc. split; [reflexivity |].
  apply Forall_app. auto.
Qed.

Lemma doSettleThings_settled (s : State) (c : Continue) (s' : State)
    (new : list Event) :
  doSettleThings s = Ok (c, s') -> log s' = log s ++ new ->
  (In EvSettled new <-> done_initial s = true).
Proof.
  unfold doSettleThings, bind, gets. simpl.
  destruct (done_initial s); simpl.
  - destruct (considerReap (world s)); simpl.
    + intros H Hl. injection H as <- <-. simpl in Hl.
      rewrite <- !app_assoc in Hl. apply app_inv_head in Hl. subst new.
      simpl. tauto.
    + destruct (considerAgeOut (world s) (view s)) as [v w].
      intros H Hl. injection H as <- <-. simpl in Hl.
      rewrite <- !app_assoc in Hl. apply app_inv_head in Hl. subst new.
      simpl. tauto.
  - intros H Hl. injection H as <- <-.
    rewrite <- (app_nil_r (log s)) in Hl at 1. apply app_inv_head in Hl. subst new.
    simpl. split; [tauto | discriminate].
Qed.

(** C2.  A step that puts a "settled" notification in the log took the
    settle path: its wait on the shared queue came back without a ping,
    [handleShouldRecrawl] then answered false (no recrawl pending), the
    local batch was empty and [done_initial] was true; and
    [doSettleThings] enqueues the notification exactly when
    [done_initial] is true. *)
Theorem settled_only_when_quiet :
  (forall fuel s c s' new,
     stepIoThread fuel s = Ok (c, s') -> log s' = log s ++ new ->
     In EvSettled new ->
     exists s0 s1,
       stopThreads_load s = Ok (false, s0)
       /\ step_wait fuel s0 = Ok (false, s1)
       /\ handleShouldRecrawl s1 = Ok (false, s1)
       /\ coll_empty (localPending s1) = true
       /\ done_initial s1 = true
       /\ step_settle s1 = Ok (c, s'))
  /\ (forall s c s' new,
        doSettleThings s = Ok (c, s') -> log s' = log s ++ new ->
        (In EvSettled new <-> done_initial s = true)).
Proof.
  split; [| exact doSettleThings_settled].
  intros fuel s c s' new Hstep Hlog Hin.
  apply stepIoThread_paths in Hstep.
  destruct Hstep as [Hstop Hc Hs
                    | s0 pinged s1 s2 s3 Hstop Hwait Hsr Hrecrawl Hcrawl Hs Hc
                    | s0 s1 Hstop Hwait Hsr Hempty Hsettle
                    | s0 pinged s1 Hstop Hwait Hsr Hcond Hproc].
  - subst s'. rewrite <- (app_nil_r (log s)) in Hlog at 1.
    apply app_inv_head in Hlog. subst new. destruct Hin.
  - exfalso. eapply unsettled_not_settled; [exact Hlog | | exact Hin].
    apply stopThreads_load_same in Hstop.
    destruct Hstop as (_ & _ & _ & Hl0 & _).
    pose proof (step_wait_waited fuel s0) as Hw. rewrite Hwait in Hw.
    pose proof (fullCrawl_crawled fuel s2) as Hcr. rewrite Hcrawl in Hcr.
    rewrite handleShouldRecrawl_eq, Hsr in Hrecrawl.
    assert (Hl2 : log s2 = log s1).
    { injection Hrecrawl as <-. destruct (cancelled s1); reflexivity. }
    subst s'. simpl. rewrite <- Hl0.
    eapply log_ext_trans; [exact (wt_log _ _ Hw) |].
    rewrite <- Hl2. apply crawled_log_unsettled. exact Hcr.
  - exists s0, s1.
    pose proof (step_wait_waited fuel s0) as Hw. rewrite Hwait in Hw.
    rewrite handleShouldRecrawl_eq, Hsr.
    repeat split; auto. exact (wt_done_initial _ _ Hw).
  - exfalso. eapply unsettled_not_settled; [exact Hlog | | exact Hin].
    apply stopThreads_load_same in Hstop.
    destruct Hstop as (_ & _ & _ & Hl0 & _).
    pose proof (step_wait_waited fuel s0) as Hw. rewrite Hwait in Hw.
    pose proof (step_process_spec fuel s1 (wt_done_initial _ _ Hw)) as Hp.
    rewrite Hproc in Hp. destruct Hp as [_ Hp].
    rewrite <- Hl0.
    eapply log_ext_trans; [exact (wt_log _ _ Hw) |].
    destruct (pr_log _ _ Hp) as (n & Hn & Hf). exists n. split; [exact Hn |].
    eapply Forall_impl; [| exact Hf]. apply fullCrawl_event_unsettled.
Qed.

End Settle.

(** ** The recursion bound

    A run that returns under one bound returns the same under any
    larger one. *)

Section Fuel.

Context {ext : External} {root : Root}.

Lemma extends_refl {A : Type} (m : M A) : extends m m.
Proof. intros s r H. exact H. Qed.

Lemma extends_bind {A B : Type} (m m' : M A) (f f' : A -> M B) :
  extends m m' -> (forall a, extends (f a) (f' a)) ->
  extends (bind m f) (bind m' f').
Proof.
  intros Hm Hf s r H. unfold bind in *.
  destruct (m s) as [[a s1] | e] eqn:E; [| discriminate].
  rewrite (Hm _ _ E). apply Hf. exact H.
Qed.

End Fuel.

Ltac extends_step :=
  match goal with
  | |- extends ?m ?m => apply extends_refl
  | |- extends (bind _ _) (bind _ _) => apply extends_bind; [| intros ?]
  | |- extends (if ?b then _ else _) (if ?b then _ else _) => destruct b
  | |- extends (match ?x with _ => _ end) (match ?x with _ => _ end) => destruct x
  end.

Section FuelMono.

Context {ext : External} {root : Root}.

Section WithProcessPaths.

Variables pp pp' : PendingChange -> option DirEntry -> M unit.
Hypothesis pp_extends : forall p pre, extends (pp p pre) (pp' p pre).

Lemma crawl_entry_extends (dir : w_string) (pending : PendingChange)
    (recursive stat_all : bool) (dirent : DirEntry) :
  extends (crawl_entry pp dir pending recursive stat_all dirent)
    (crawl_entry pp' dir pending recursive stat_all dirent).
Proof. unfold crawl_entry. repeat extends_step; apply pp_extends. Qed.

Lemma crawl_entries_extends (dir : w_string) (pending : PendingChange)
    (recursive stat_all : bool) (entries : list DirEntry) :
  extends (crawl_entries pp dir pending recursive stat_all entries)
    (crawl_entries pp' dir pending recursive stat_all entries).
Proof.
  induction entries as [| dirent rest IH]; simpl.
  - extends_step.
  - extends_step; [apply crawl_entry_extends | exact IH].
Qed.

Lemma crawler_extends (pending : PendingChange) :
  extends (crawler pp pending) (crawler pp' pending).
Proof.
  unfold crawler. repeat extends_step. apply crawl_entries_extends.
Qed.

End WithProcessPaths.

Lemma processPath_extends (fuel : nat) :
  forall pending pre_stat,
    extends (processPath fuel pending pre_stat) (processPath (S fuel) pending pre_stat).
Proof.
  induction fuel as [| fuel IH]; intros pending pre_stat.
  - intros s r H. discriminate.
  - change (processPath (S (S fuel)) pending pre_stat)
      with (bind (w_assert (String.length root_path <=? String.length (pc_path pending))%nat
                    msg_descendant)
              (fun _ =>
                 if isCookiePrefix (pc_path pending) then
                   bind (consider_cookie pending) (fun consider =>
                     if consider then emit (EvNotifyCookie (pc_path pending)) else ret tt)
                 else if String.eqb (pc_path pending) root_path
                         || to_bool (Z.land (pc_flags pending) W_PENDING_CRAWL_ONLY)
                 then crawler (processPath (S fuel)) pending
                 else call_statPath pending pre_stat)).
    change (processPath (S fuel) pending pre_stat)
      with (bind (w_assert (String.length root_path <=? String.length (pc_path pending))%nat
                    msg_descendant)
              (fun _ =>
                 if isCookiePrefix (pc_path pending) then
                   bind (consider_cookie pending) (fun consider =>
                     if consider then emit (EvNotifyCookie (pc_path pending)) else ret tt)
                 else if String.eqb (pc_path pending) root_path
                         || to_bool (Z.land (pc_flags pending) W_PENDING_CRAWL_ONLY)
                 then crawler (processPath fuel) pending
                 else call_statPath pending pre_stat)).
    repeat extends_step. apply crawler_extends. exact IH.
Qed.

Lemma process_items_extends (fuel : nat) (pending : list PendingChange) :
  forall d, extends (process_items fuel d pending) (process_items (S fuel) d pending).
Proof.
  induction pending as [| p next IH]; intros d; simpl.
  - extends_step.
  - extends_step; [| apply IH].
    unfold process_item. repeat extends_step. apply processPath_extends.
Qed.

Lemma processAllPending_loop_extends (fuel : nat) :
  forall d all,
    extends (processAllPending_loop fuel d all) (processAllPending_loop (S fuel) d all).
Proof.
  induction fuel as [| fuel IH]; intros d all.
  - intros s r H. discriminate.
  - change (processAllPending_loop (S (S fuel)) d all)
      with (bind (gets localPending) (fun coll =>
              if coll_empty coll then ret (d, all)
              else
                bind (modify (set_localPending coll_nil)) (fun _ =>
                bind (match coll_syncs coll with
                      | [] =>
                          bind (w_check (match coll_items coll with
                                         | [] => false
                                         | _ => true
                                         end) msg_steal)
                            (fun _ => ret all)
                      | _ => ret (all ++ [coll_syncs coll])
                      end) (fun allSyncs' =>
                bind (process_items (S fuel) d (coll_items coll)) (fun d0 =>
                processAllPending_loop (S fuel) d0 allSyncs'))))).
    change (processAllPending_loop (S fuel) d all)
      with (bind (gets localPending) (fun coll =>
              if coll_empty coll then ret (d, all)
              else
                bind (modify (set_localPending coll_nil)) (fun _ =>
                bind (match coll_syncs coll with
                      | [] =>
                          bind (w_check (match coll_items coll with
                                         | [] => false
                                         | _ => true
                                         end) msg_steal)
                            (fun _ => ret all)
                      | _ => ret (all ++ [coll_syncs coll])
                      end) (fun allSyncs' =>
                bind (process_items fuel d (coll_items coll)) (fun d0 =>
                processAllPending_loop fuel d0 allSyncs'))))).
    extends_step; [extends_step |].
    extends_step; [extends_step |].
    extends_step; [extends_step |].
    extends_step; [extends_step |].
    extends_step; [apply process_items_extends | apply IH].
Qed.

Lemma processAllPending_extends (fuel : nat) :
  extends (processAllPending fuel) (processAllPending (S fuel)).
Proof.
  unfold processAllPending. extends_step; [apply processAllPending_loop_extends |].
  extends_step.
Qed.

Lemma fullCrawl_loop_extends (fuel : nat) :
  extends (fullCrawl_loop fuel) (fullCrawl_loop (S fuel)).
Proof.
  induction fuel as [| fuel IH].
  - intros s r H. discriminate.
  - change (fullCrawl_loop (S (S fuel)))
      with (bind lockShared (fun _ =>
            bind stealIntoLocal (fun _ =>
            bind (gets localPending) (fun coll =>
              if coll_empty coll then ret tt
              else bind (processAllPending (S fuel)) (fun _ =>
                   fullCrawl_loop (S fuel)))))).
    change (fullCrawl_loop (S fuel))
      with (bind lockShared (fun _ =>
            bind stealIntoLocal (fun _ =>
            bind (gets localPending) (fun coll =>
              if coll_empty coll then ret tt
              else bind (processAllPending fuel) (fun _ =>
                   fullCrawl_loop fuel))))).
    extends_step; [extends_step |].
    extends_step; [extends_step |].
    extends_step; [extends_step |].
    extends_step; [extends_step |].
    extends_step; [apply processAllPending_extends | exact IH].
Qed.

Lemma fullCrawl_extends (fuel : nat) : extends (fullCrawl fuel) (fullCrawl (S fuel)).
Proof.
  unfold fullCrawl.
  extends_step; [extends_step |].
  extends_step; [extends_step |].
  extends_step; [extends_step |].
  extends_step; [extends_step |].
  extends_step; [apply fullCrawl_loop_extends | extends_step].
Qed.

Lemma stepIoThread_extends (fuel : nat) :
  extends (stepIoThread fuel) (stepIoThread (S fuel)).
Proof.
  unfold stepIoThread.
  extends_step; [extends_step |].
  extends_step; [extends_step |].
  extends_step.
  - unfold step_wait.
    extends_step; [extends_step |].
    extends_step; [| extends_step].
    extends_step; [| extends_step].
    extends_step; [apply fullCrawl_extends | extends_step].
  - extends_step; [extends_step |].
    extends_step.
    + extends_step; [apply fullCrawl_extends | extends_step].
    + extends_step; [extends_step |].
      extends_step; [extends_step |].
      unfold step_process.
      extends_step; [extends_step |].
      extends_step; [extends_step |].
      extends_step; [extends_step |].
      extends_step; [extends_step |].
      extends_step; [apply processAllPending_extends | extends_step].
Qed.

(** More fuel changes nothing for a step that returns. *)
Lemma stepIoThread_fuel_mono (fuel fuel' : nat) (s : State)
    (r : Continue * State) :
  (fuel <= fuel')%nat -> stepIoThread fuel s = Ok r -> stepIoThread fuel' s = Ok r.
Proof.
  intros Hle. induction Hle as [| fuel' Hle IH]; intros H.
  - exact H.
  - apply stepIoThread_extends. apply IH. exact H.
Qed.

End FuelMono.

(** ** Cookies in [processPath] *)

Section Cookies.

Context {ext : External} {root : Root}.

Lemma unsettled_step_event (e : Event) : unsettled_event e -> step_event e.
Proof. destruct e; simpl; tauto. Qed.

Lemma settle_step_event (e : Event) : settle_event e -> step_event e.
Proof. destruct e; simpl; tauto. Qed.

Lemma fullCrawl_step_event (t : ClockTicks) (e : Event) :
  fullCrawl_event t e -> step_event e.
Proof. intros H. apply unsettled_step_event, (fullCrawl_event_unsettled t), H. Qed.

Lemma log_ext_weaken (P Q : Event -> Prop) (l1 l2 : list Event) :
  (forall e, P e -> Q e) ->
  (exists new, l2 = l1 ++ new /\ Forall P new) ->
  exists new, l2 = l1 ++ new /\ Forall Q new.
Proof.
  intros HPQ (new & Hl & Hf). exists new. split; [exact Hl |].
  eapply Forall_impl; [exact HPQ | exact Hf].
Qed.

Lemma stepIoThread_log (fuel : nat) (s : State) (c : Continue) (s' : State) :
  stepIoThread fuel s = Ok (c, s') ->
  exists new, log s' = log s ++ new /\ Forall step_event new.
Proof.
  intros Hstep. apply stepIoThread_paths in Hstep.
  destruct Hstep as [Hstop Hc Hs
                    | s0 pinged s1 s2 s3 Hstop Hwait Hsr Hrecrawl Hcrawl Hs Hc
                    | s0 s1 Hstop Hwait Hsr Hempty Hsettle
                    | s0 pinged s1 Hstop Hwait Hsr Hcond Hproc].
  - subst s'. exists []. rewrite app_nil_r. auto.
  - apply stopThreads_load_same in Hstop.
    destruct Hstop as (_ & _ & _ & Hl0 & _).
    pose proof (step_wait_waited fuel s0) as Hw. rewrite Hwait in Hw.
    pose proof (fullCrawl_crawled fuel s2) as Hcr. rewrite Hcrawl in Hcr.
    rewrite handleShouldRecrawl_eq, Hsr in Hrecrawl.
    assert (Hl2 : log s2 = log s1).
    { injection Hrecrawl as <-. destruct (cancelled s1); reflexivity. }
    subst s'. simpl. rewrite <- Hl0.
    eapply log_ext_trans.
    + eapply log_ext_weaken; [apply unsettled_step_event | exact (wt_log _ _ Hw)].
    + rewrite <- Hl2.
      eapply log_ext_weaken; [apply fullCrawl_step_event | exact (cr_log _ _ Hcr)].
  - apply stopThreads_load_same in Hstop.
    destruct Hstop as (_ & _ & _ & Hl0 & _).
    pose proof (step_wait_waited fuel s0) as Hw. rewrite Hwait in Hw.
    pose proof (step_settle_spec s1) as Hs. rewrite Hsettle in Hs.
    destruct Hs as (Hf & _).
    rewrite <- Hl0.
    eapply log_ext_trans.
    + eapply log_ext_weaken; [apply unsettled_step_event | exact (wt_log _ _ Hw)].
    + eapply log_ext_weaken; [apply settle_step_event | exact (fr_log _ _ _ Hf)].
  - apply stopThreads_load_same in Hstop.
    destruct Hstop as (_ & _ & _ & Hl0 & _).
    pose proof (step_wait_waited fuel s0) as Hw. rewrite Hwait in Hw.
    pose proof (step_process_spec fuel s1 (wt_done_initial _ _ Hw)) as Hp.
    rewrite Hproc in Hp. destruct Hp as [_ Hp].
    rewrite <- Hl0.
    eapply log_ext_trans.
    + eapply log_ext_weaken; [apply unsettled_step_event | exact (wt_log _ _ Hw)].
    + eapply log_ext_weaken; [apply fullCrawl_step_event | exact (pr_log _ _ Hp)].
Qed.

(** C1.  For a pending change whose path is a cookie prefix (and, as
    [processPath] asserts, no shorter than the root path), [processPath]
    returns having done nothing but, when the cookie is considered,
    notify CookieSync of the path: the view, the batch and every other
    part of the state are as before, so no node is made for the path.
    The cookie is considered, on a watcher with per-file notifications,
    exactly when the change carries VIA_NOTIFY or [done_initial] is
    false; on a watcher without, exactly when it does not carry
    IS_DESYNCED.  And in no step of the thread is [statPath], which
    makes the file nodes, called for a cookie path. *)
Theorem processPath_cookie :
  (forall fuel pending pre_stat s,
     isCookiePrefix (pc_path pending) = true ->
     (String.length root_path <= String.length (pc_path pending))%nat ->
     let considered :=
       if to_bool (Z.land watcher_flags WATCHER_HAS_PER_FILE_NOTIFICATIONS)
       then contains (pc_flags pending) W_PENDING_VIA_NOTIFY || negb (done_initial s)
       else negb (contains (pc_flags pending) W_PENDING_IS_DESYNCED) in
     processPath (S fuel) pending pre_stat s =
       Ok (tt, if considered
               then set_log (log s ++ [EvNotifyCookie (pc_path pending)]) s
               else s))
  /\ (forall fuel s c s' new p pre_stat,
        stepIoThread fuel s = Ok (c, s') -> log s' = log s ++ new ->
        In (EvStatPath p pre_stat) new ->
        isCookiePrefix (pc_path p) = false).
Proof.
  split.
  - intros fuel pending pre_stat s Hcookie Hlen. simpl.
    apply Nat.leb_le in Hlen.
    unfold bind, w_assert. rewrite Hlen. simpl. rewrite Hcookie.
    unfold consider_cookie.
    destruct (to_bool (Z.land watcher_flags WATCHER_HAS_PER_FILE_NOTIFICATIONS)).
    + unfold bind, gets, ret. rewrite via_notify_contains.
      destruct (contains (pc_flags pending) W_PENDING_VIA_NOTIFY
                || negb (done_initial s)); reflexivity.
    + unfold ret, contains.
      destruct (negb (Z.land (pc_flags pending) W_PENDING_IS_DESYNCED
                      =? W_PENDING_IS_DESYNCED)); reflexivity.
  - intros fuel s c s' new p pre_stat Hstep Hlog Hin.
    apply stepIoThread_log in Hstep. destruct Hstep as (new' & Hl & Hf).
    rewrite Hlog in Hl. apply app_inv_head in Hl. subst new'.
    rewrite Forall_forall in Hf. exact (Hf _ Hin).
Qed.

End Cookies.

(** ** The settle timeout *)

Section Backoff.

Context {ext : External} {root : Root}.

Lemma coll_empty_nil (c : PendingChanges) : coll_empty c = true -> c = coll_nil.
Proof.
  destruct c as [[| p items] [| y syncs]]; simpl; intros H;
    try discriminate; reflexivity.
Qed.

(** A step of a quiet thread settles. *)
Lemma quiet_step (fuel : nat) (s : State) :
  quiet s -> (forall w, considerReap w = false) ->
  ms_min <= currentTimeout s * 2 <= ms_max ->
  exists s',
    stepIoThread fuel s = Ok (ContinueLoop, s')
    /\ quiet s'
    /\ biggestTimeout s' = biggestTimeout s
    /\ currentTimeout s' = Z.min (biggestTimeout s) (currentTimeout s * 2).
Proof.
  intros (He & Hs & Hd & Hr & Hl & Hp) Hreap Hrange.
  apply coll_empty_nil in Hl. apply coll_empty_nil in Hp.
  destruct s as [di ca sr rc cp v t st pfw bT cT lp w en lg].
  simpl in *. subst en st di sr lp pfw.
  unfold stepIoThread, step_wait, step_settle, doSettleThings, handleShouldRecrawl,
    double_timeout, stealIntoLocal, lockShared, stopThreads_load, emit, modify, gets,
    bind, ret.
  destruct (considerAgeOut w v) as [v' w'] eqn:Hage.
  assert (Hin : (ms_min <=? cT * 2) && (cT * 2 <=? ms_max) = true).
  { apply andb_true_intro. split; apply Z.leb_le; lia. }
  cbn - [Z.mul Z.leb Z.min ms_min ms_max]. rewrite Hreap.
  cbn - [Z.mul Z.leb Z.min ms_min ms_max]. rewrite !Hage.
  cbn - [Z.mul Z.leb Z.min ms_min ms_max]. rewrite Hin.
  cbn - [Z.mul Z.leb Z.min ms_min ms_max].
  eexists. split; [reflexivity |].
  unfold quiet. cbn - [Z.mul Z.leb Z.min ms_min ms_max]. auto 10.
Qed.

Lemma backoff_arith (b c k : Z) :
  0 <= c -> 0 <= b -> 1 <= k ->
  Z.min b (Z.min b (c * 2) * k) = Z.min b (c * (2 * k)).
Proof. intros Hc Hb Hk. nia. Qed.

Lemma quiet_steps (n : nat) :
  forall s,
    quiet s -> (forall w, considerReap w = false) ->
    0 <= currentTimeout s <= biggestTimeout s ->
    biggestTimeout s * 2 <= ms_max ->
    exists s',
      io_steps n s s' /\ quiet s'
      /\ biggestTimeout s' = biggestTimeout s
      /\ currentTimeout s' =
           Z.min (biggestTimeout s) (currentTimeout s * 2 ^ Z.of_nat n).
Proof.
  induction n as [| n IH]; intros s Hq Hreap Hc Hb.
  - exists s. split; [constructor | split; [exact Hq | split; [reflexivity |]]].
    simpl. lia.
  - assert (Hrange : ms_min <= currentTimeout s * 2 <= ms_max)
      by (unfold ms_min; lia).
    destruct (quiet_step 0 s Hq Hreap Hrange) as (s1 & Hstep & Hq1 & Hb1 & Hc1).
    destruct (IH s1 Hq1 Hreap) as (s' & Hsteps & Hq' & Hb' & Hc'); [lia | lia |].
    exists s'. split; [| split; [exact Hq' | split; [congruence |]]].
    + eapply io_steps_S; [exists 0%nat, ContinueLoop; exact Hstep | exact Hsteps].
    + rewrite Hc', Hb1, Hc1.
      rewrite Nat2Z.inj_succ, Z.pow_succ_r by lia.
      apply backoff_arith; lia.
Qed.

(** C9.  A step that is not cut short by the stop flag wakes up with
    [currentTimeout] as it was, or reset to [trigger_settle] when the
    step began with a full crawl.  When it recrawls, and when it has
    pending items to process (a ping, or a batch that is not empty), it
    goes on and ends with [currentTimeout] reset to [trigger_settle].
    When it settles (no ping, empty batch, no recrawl pending) it
    either goes on with [currentTimeout] doubled and capped at
    [biggestTimeout], or stops with [currentTimeout] as it was;
    [biggestTimeout] never changes.  The batch stage itself, whenever
    it returns, says to go on and leaves [currentTimeout] at
    [trigger_settle], and it fails only on the recursion bound or the
    assertion of [processPath].  So a thread that has settled and gets
    no event, and is not reaped, takes step after step, each doubling
    the timeout up to [biggestTimeout]: after [n] of them it is the
    smaller of [biggestTimeout] and 2^n times what it was. *)
Theorem currentTimeout_backoff :
  (forall fuel s c s',
     stepIoThread fuel s = Ok (c, s') ->
     (c = Stop /\ stopIn s = Some O /\ s' = s)
     \/ exists s0 pinged s1,
          stopThreads_load s = Ok (false, s0)
          /\ step_wait fuel s0 = Ok (pinged, s1)
          /\ currentTimeout s1 =
               (if done_initial s then currentTimeout s else trigger_settle)
          /\ biggestTimeout s' = biggestTimeout s
          /\ (if shouldRecrawl s1
              then c = ContinueLoop /\ currentTimeout s' = trigger_settle
              else if negb pinged && coll_empty (localPending s1)
                   then (c = ContinueLoop
                         /\ currentTimeout s' =
                              Z.min (biggestTimeout s) (currentTimeout s1 * 2))
                        \/ (c = Stop /\ currentTimeout s' = currentTimeout s1)
                   else c = ContinueLoop /\ currentTimeout s' = trigger_settle))
  /\ (forall n s,
        quiet s -> (forall w, considerReap w = false) ->
        0 <= currentTimeout s <= biggestTimeout s ->
        biggestTimeout s * 2 <= ms_max ->
        exists s',
          io_steps n s s' /\ quiet s'
          /\ biggestTimeout s' = biggestTimeout s
          /\ currentTimeout s' =
               Z.min (biggestTimeout s) (currentTimeout s * 2 ^ Z.of_nat n))
  /\ (forall fuel s,
        done_initial s = true ->
        match step_process fuel s with
        | Ok (c, s') =>
            c = ContinueLoop /\ currentTimeout s' = trigger_settle
            /\ biggestTimeout s' = biggestTimeout s
        | Err e => crawl_failure e
        end).
Proof.
  split; [| split; [intros n s; apply quiet_steps |]].
  2:{ intros fuel s Hdi. pose proof (step_process_spec fuel s Hdi) as Hp.
      destruct (step_process fuel s) as [[c s'] | e]; [| exact Hp].
      destruct Hp as [Hc Hp].
      split; [exact Hc | split; [exact (pr_current _ _ Hp) | exact (pr_biggest _ _ Hp)]]. }
  intros fuel s c s' Hstep. apply stepIoThread_paths in Hstep.
  destruct Hstep as [Hstop Hc Hs
                    | s0 pinged s1 s2 s3 Hstop Hwait Hsr Hrecrawl Hcrawl Hs Hc
                    | s0 s1 Hstop Hwait Hsr Hempty Hsettle
                    | s0 pinged s1 Hstop Hwait Hsr Hcond Hproc].
  - left. split; [exact Hc | split; [| exact Hs]].
    unfold stopThreads_load in Hstop.
    destruct (stopIn s) as [[| n] |]; congruence.
  - right. exists s0, pinged, s1.
    pose proof (stopThreads_load_same _ _ _ Hstop)
      as (_ & _ & _ & _ & Hd0 & _ & Hc0 & Hb0).
    pose proof (step_wait_waited fuel s0) as Hw. rewrite Hwait in Hw.
    pose proof (fullCrawl_crawled fuel s2) as Hcr. rewrite Hcrawl in Hcr.
    rewrite handleShouldRecrawl_eq, Hsr in Hrecrawl.
    assert (Hb2 : biggestTimeout s2 = biggestTimeout s1).
    { injection Hrecrawl as <-. destruct (cancelled s1); reflexivity. }
    repeat split; auto.
    + rewrite (wt_current _ _ Hw), Hd0, Hc0. reflexivity.
    + subst s'. simpl. rewrite (cr_biggest _ _ Hcr), Hb2, (wt_biggest _ _ Hw). exact Hb0.
    + rewrite Hsr. subst s'. split; [exact Hc | reflexivity].
  - right. exists s0, false, s1.
    pose proof (stopThreads_load_same _ _ _ Hstop)
      as (_ & _ & _ & _ & Hd0 & _ & Hc0 & Hb0).
    pose proof (step_wait_waited fuel s0) as Hw. rewrite Hwait in Hw.
    pose proof (step_settle_spec s1) as Hs. rewrite Hsettle in Hs.
    destruct Hs as (Hf & Hcont & Hstopped).
    repeat split; auto.
    + rewrite (wt_current _ _ Hw), Hd0, Hc0. reflexivity.
    + rewrite (fr_biggest _ _ _ Hf). simpl. rewrite (wt_biggest _ _ Hw). exact Hb0.
    + rewrite Hsr, Hempty. simpl. destruct c.
      * right. split; [reflexivity | exact (Hstopped eq_refl)].
      * left. split; [reflexivity |].
        rewrite (Hcont eq_refl), (wt_biggest _ _ Hw), Hb0. reflexivity.
  - right. exists s0, pinged, s1.
    pose proof (stopThreads_load_same _ _ _ Hstop)
      as (_ & _ & _ & _ & Hd0 & _ & Hc0 & Hb0).
    pose proof (step_wait_waited fuel s0) as Hw. rewrite Hwait in Hw.
    pose proof (step_process_spec fuel s1 (wt_done_initial _ _ Hw)) as Hp.
    rewrite Hproc in Hp. destruct Hp as [Hc Hp].
    repeat split; auto.
    + rewrite (wt_current _ _ Hw), Hd0, Hc0. reflexivity.
    + rewrite (pr_biggest _ _ Hp), (wt_biggest _ _ Hw). exact Hb0.
    + rewrite Hsr, Hcond. split; [exact Hc | exact (pr_current _ _ Hp)].
Qed.

End Backoff.

(** ** The tick *)

Section Tick.

Context {ext : External} {root : Root}.

Lemma process_events_tick (t : ClockTicks) (new : list Event) :
  Forall (fullCrawl_event t) new ->
  forall t' p, In (EvProcess t' p) new -> t' = t.
Proof.
  intros Hf t' p Hin. rewrite Forall_forall in Hf. exact (Hf _ Hin).
Qed.

Lemma step_process_ok_done (fuel : nat) (s : State) (c : Continue) (s' : State) :
  step_process fuel s = Ok (c, s') -> done_initial s = true.
Proof.
  intros H. destruct (done_initial s) eqn:Hdi; [reflexivity |].
  rewrite (step_process_pending_crawl fuel s Hdi) in H. discriminate.
Qed.

Lemma fetch_add_1_twice (t : ClockTicks) :
  fetch_add_1 (fetch_add_1 t) = (t + 2) mod tick_modulus.
Proof.
  unfold fetch_add_1. rewrite Z.add_mod_idemp_l by (unfold tick_modulus; lia).
  f_equal. lia.
Qed.

Lemma stepIoThread_tick (fuel : nat) (s : State) (c : Continue) (s' : State) :
  stepIoThread fuel s = Ok (c, s') ->
  mostRecentTick s' = mostRecentTick s
  \/ mostRecentTick s' = (mostRecentTick s + 1) mod tick_modulus
  \/ mostRecentTick s' = (mostRecentTick s + 2) mod tick_modulus.
Proof.
  intros Hstep. apply stepIoThread_paths in Hstep.
  destruct Hstep as [Hstop Hc Hs
                    | s0 pinged s1 s2 s3 Hstop Hwait Hsr Hrecrawl Hcrawl Hs Hc
                    | s0 s1 Hstop Hwait Hsr Hempty Hsettle
                    | s0 pinged s1 Hstop Hwait Hsr Hcond Hproc].
  - left. subst s'. reflexivity.
  - pose proof (stopThreads_load_same _ _ _ Hstop)
      as (_ & _ & _ & _ & Hd0 & Ht0 & _).
    pose proof (step_wait_waited fuel s0) as Hw. rewrite Hwait in Hw.
    pose proof (fullCrawl_crawled fuel s2) as Hcr. rewrite Hcrawl in Hcr.
    rewrite handleShouldRecrawl_eq, Hsr in Hrecrawl.
    assert (Ht2 : mostRecentTick s2 = mostRecentTick s1).
    { injection Hrecrawl as <-. destruct (cancelled s1); reflexivity. }
    right. subst s'. simpl.
    rewrite (cr_tick _ _ Hcr), Ht2, (wt_tick _ _ Hw), Ht0.
    destruct (done_initial s0).
    + left. reflexivity.
    + right. apply fetch_add_1_twice.
  - pose proof (stopThreads_load_same _ _ _ Hstop)
      as (_ & _ & _ & _ & Hd0 & Ht0 & _).
    pose proof (step_wait_waited fuel s0) as Hw. rewrite Hwait in Hw.
    pose proof (step_settle_spec s1) as Hs. rewrite Hsettle in Hs.
    destruct Hs as (Hf & _).
    rewrite (fr_tick _ _ _ Hf). simpl. rewrite (wt_tick _ _ Hw), Ht0.
    destruct (done_initial s0); [left | right; left]; reflexivity.
  - pose proof (stopThreads_load_same _ _ _ Hstop)
      as (_ & _ & _ & _ & Hd0 & Ht0 & _).
    pose proof (step_wait_waited fuel s0) as Hw. rewrite Hwait in Hw.
    pose proof (step_process_spec fuel s1 (wt_done_initial _ _ Hw)) as Hp.
    rewrite Hproc in Hp. destruct Hp as [_ Hp].
    right. rewrite (pr_tick _ _ Hp), (wt_tick _ _ Hw), Ht0.
    destruct (done_initial s0).
    + left. reflexivity.
    + right. apply fetch_add_1_twice.
Qed.

Lemma io_step_tick_mono (s s' : State) :
  io_step s s' -> 0 <= mostRecentTick s ->
  mostRecentTick s + 2 < tick_modulus ->
  mostRecentTick s <= mostRecentTick s' <= mostRecentTick s + 2.
Proof.
  intros (fuel & c & Hstep) H0 H2.
  apply stepIoThread_tick in Hstep.
  destruct Hstep as [-> | [-> | ->]]; [lia | |];
    rewrite Z.mod_small by lia; lia.
Qed.

(** C8, amended.  [fullCrawl] and the batch stage of a step each add one
    to [mostRecentTick], modulo 2^64, before any item is handed to
    [processPath]: every item of the pass is processed at the new tick.
    A step adds at most two, modulo 2^64; so over any [n] steps that
    start far enough from the wrap-around of the 64-bit counter the
    tick never decreases. *)
Theorem mostRecentTick_steps :
  (forall fuel s u s',
     fullCrawl fuel s = Ok (u, s') ->
     mostRecentTick s' = fetch_add_1 (mostRecentTick s)
     /\ forall new t p,
          log s' = log s ++ new -> In (EvProcess t p) new -> t = mostRecentTick s')
  /\ (forall fuel s c s',
        step_process fuel s = Ok (c, s') ->
        mostRecentTick s' = fetch_add_1 (mostRecentTick s)
        /\ forall new t p,
             log s' = log s ++ new -> In (EvProcess t p) new -> t = mostRecentTick s')
  /\ (forall fuel s c s',
        stepIoThread fuel s = Ok (c, s') ->
        mostRecentTick s' = mostRecentTick s
        \/ mostRecentTick s' = (mostRecentTick s + 1) mod tick_modulus
        \/ mostRecentTick s' = (mostRecentTick s + 2) mod tick_modulus)
  /\ (forall n s s',
        io_steps n s s' -> 0 <= mostRecentTick s ->
        mostRecentTick s + 2 * Z.of_nat n < tick_modulus ->
        mostRecentTick s <= mostRecentTick s' <= mostRecentTick s + 2 * Z.of_nat n).
Proof.
  split; [| split; [| split]].
  - intros fuel s u s' H.
    pose proof (fullCrawl_crawled fuel s) as Hc. rewrite H in Hc.
    split; [exact (cr_tick _ _ Hc) |].
    intros new t p Hl Hin.
    destruct (cr_log _ _ Hc) as (new' & Hl' & Hf).
    rewrite Hl in Hl'. apply app_inv_head in Hl'. subst new'.
    eapply process_events_tick; eassumption.
  - intros fuel s c s' H.
    pose proof (step_process_spec fuel s (step_process_ok_done _ _ _ _ H)) as Hp.
    rewrite H in Hp. destruct Hp as [_ Hp].
    split; [exact (pr_tick _ _ Hp) |].
    intros new t p Hl Hin.
    destruct (pr_log _ _ Hp) as (new' & Hl' & Hf).
    rewrite Hl in Hl'. apply app_inv_head in Hl'. subst new'.
    eapply process_events_tick; eassumption.
  - exact stepIoThread_tick.
  - intros n s s' Hsteps. induction Hsteps as [s | n s1 s2 s3 Hstep Hrest IH].
    + intros. lia.
    + intros H0 Hn.
      assert (mostRecentTick s1 <= mostRecentTick s2 <= mostRecentTick s1 + 2)
        by (apply io_step_tick_mono; [exact Hstep | lia | lia]).
      assert (mostRecentTick s2 <= mostRecentTick s3
              <= mostRecentTick s2 + 2 * Z.of_nat n) by (apply IH; lia).
      lia.
Qed.

End Tick.

(** ** A pass over the batch *)

Section Pass.

Context {ext : External} {root : Root}.

Lemma crawl_event_not_sync (e : Event) : crawl_event e -> not_sync e.
Proof. destruct e; simpl; unfold not_sync; simpl; tauto. Qed.

Lemma crawl_events_not_process (new : list Event) (t : ClockTicks)
    (p : PendingChange) :
  Forall crawl_event new -> ~ In (EvProcess t p) new.
Proof.
  intros Hf Hin. rewrite Forall_forall in Hf. exact (Hf _ Hin).
Qed.

Lemma desynced_in_app (l1 l2 : list Event) :
  desynced_in (l1 ++ l2) <-> desynced_in l1 \/ desynced_in l2.
Proof.
  unfold desynced_in. split.
  - intros (t & p & Hin & Hd). apply in_app_or in Hin.
    destruct Hin; [left | right]; eauto.
  - intros [(t & p & Hin & Hd) | (t & p & Hin & Hd)];
      exists t, p; (split; [apply in_or_app; auto | exact Hd]).
Qed.

Lemma desynced_in_nil : ~ desynced_in [].
Proof. intros (t & p & [] & _). Qed.

Lemma stopThreads_load_never (s : State) :
  stopIn s = None -> stopThreads_load s = Ok (false, s).
Proof. intros H. unfold stopThreads_load. rewrite H. reflexivity. Qed.

Lemma process_item_spec (fuel : nat) (d : IsDesynced) (p : PendingChange)
    (s : State) (d' : IsDesynced) (s' : State) :
  process_item fuel d p s = Ok (d', s') ->
  exists new,
    log s' = log s ++ new /\ Forall not_sync new
    /\ (d' = DesyncedYes <-> d = DesyncedYes \/ desynced_in new)
    /\ (stopIn s = None -> stopIn s' = None /\ exists t, In (EvProcess t p) new).
Proof.
  unfold process_item. intros H. bind_inv H.
  pose proof (stopThreads_load_same _ _ _ E) as (_ & _ & _ & Hl0 & _).
  destruct a.
  - unfold ret in H. injection H as <- <-.
    exists []. rewrite app_nil_r. split; [exact Hl0 | split; [constructor | split]].
    + pose proof desynced_in_nil. tauto.
    + intros Hnever. rewrite (stopThreads_load_never _ Hnever) in E. discriminate.
  - unfold bind at 1 in H. simpl in H. bind_inv H.
    unfold ret in H. injection H as <- <-.
    pose proof (processPath_frame fuel p None
                  (set_log (log s0 ++ [EvProcess (mostRecentTick s0) p]) s0)) as Hf.
    rewrite E0 in Hf. destruct Hf as [_ _ _ _ _ _ Hstop' (new & Hl & Hc)].
    simpl in Hl, Hstop'.
    exists (EvProcess (mostRecentTick s0) p :: new). split; [| split; [| split]].
    + rewrite Hl, Hl0, <- app_assoc. reflexivity.
    + constructor; [unfold not_sync; simpl; tauto |].
      eapply Forall_impl; [| exact Hc]. apply crawl_event_not_sync.
    + assert (Hd : desynced_in (EvProcess (mostRecentTick s0) p :: new)
                   <-> desynced_crawl p = true).
      { split.
        - intros (t & q & [Heq | Hin] & Hq).
          + injection Heq as _ <-. exact Hq.
          + exfalso. eapply crawl_events_not_process; eassumption.
        - intros Hq. exists (mostRecentTick s0), p. split; [left; reflexivity | exact Hq]. }
      rewrite Hd. unfold desynced_crawl.
      destruct (to_bool (Z.land (pc_flags p) W_PENDING_IS_DESYNCED));
        destruct (to_bool (Z.land (pc_flags p) W_PENDING_CRAWL_ONLY));
        simpl; split; intros; try tauto; try (left; assumption);
        intuition discriminate.
    + intros Hnever. rewrite (stopThreads_load_never _ Hnever) in E.
      injection E as <-. split; [exact (Hstop' Hnever) |].
      exists (mostRecentTick s). left. reflexivity.
Qed.

Lemma process_items_spec (fuel : nat) (pending : list PendingChange) :
  forall (d : IsDesynced) (s : State) (d' : IsDesynced) (s' : State),
    process_items fuel d pending s = Ok (d', s') ->
    exists new,
      log s' = log s ++ new /\ Forall not_sync new
      /\ (d' = DesyncedYes <-> d = DesyncedYes \/ desynced_in new)
      /\ (stopIn s = None ->
          stopIn s' = None
          /\ forall p, In p pending -> exists t, In (EvProcess t p) new).
Proof.
  induction pending as [| p next IH]; intros d s d' s' H; simpl in H.
  - unfold ret in H. injection H as <- <-.
    exists []. rewrite app_nil_r.
    split; [reflexivity | split; [constructor | split]].
    + pose proof desynced_in_nil. tauto.
    + intros Hnever. split; [exact Hnever | intros q []].
  - bind_inv H.
    apply process_item_spec in E. destruct E as (n1 & Hl1 & Hf1 & Hd1 & Hp1).
    apply IH in H. destruct H as (n2 & Hl2 & Hf2 & Hd2 & Hp2).
    exists (n1 ++ n2). split; [| split; [| split]].
    + rewrite Hl2, Hl1, app_assoc. reflexivity.
    + apply Forall_app. auto.
    + rewrite desynced_in_app. tauto.
    + intros Hnever. destruct (Hp1 Hnever) as (Hn1 & t1 & Hin1).
      destruct (Hp2 Hn1) as (Hn2 & Hall).
      split; [exact Hn2 |]. intros q [<- | Hq].
      * exists t1. apply in_or_app. left. exact Hin1.
      * destruct (Hall q Hq) as (t & Hin). exists t. apply in_or_app. right. exact Hin.
Qed.

Lemma processAllPending_loop_spec (fuel : nat) :
  forall (d : IsDesynced) (all : list (list Promise)) (s : State)
         (d' : IsDesynced) (all' : list (list Promise)) (s' : State),
    processAllPending_loop fuel d all s = Ok ((d', all'), s') ->
    coll_empty (localPending s') = true
    /\ (exists new,
          log s' = log s ++ new /\ Forall not_sync new
          /\ (d' = DesyncedYes <-> d = DesyncedYes \/ desynced_in new)
          /\ (stopIn s = None ->
              forall p, In p (coll_items (localPending s)) ->
                        exists t, In (EvProcess t p) new))
    /\ exists more,
         all' = all ++ more /\ incl (coll_syncs (localPending s)) (List.concat more).
Proof.
  induction fuel as [| fuel IH]; intros d all s d' all' s' H; simpl in H.
  - discriminate.
  - unfold bind at 1 in H. simpl in H.
    destruct (coll_empty (localPending s)) eqn:Hempty.
    + unfold ret in H. injection H as <- <- <-.
      unfold coll_empty in Hempty.
      destruct (coll_items (localPending s)) eqn:Hitems; [| discriminate].
      destruct (coll_syncs (localPending s)) eqn:Hsyncs; [| discriminate].
      split; [unfold coll_empty; rewrite Hitems, Hsyncs; reflexivity | split].
      * exists []. rewrite app_nil_r.
        split; [reflexivity | split; [constructor | split]].
        -- pose proof desynced_in_nil. tauto.
        -- intros _ q [].
      * exists []. rewrite app_nil_r. split; [reflexivity |]. apply incl_nil_l.
    + unfold bind at 1 in H. simpl in H. bind_inv H. bind_inv H.
      apply process_items_spec in E0. destruct E0 as (n1 & Hl1 & Hf1 & Hd1 & Hp1).
      apply IH in H.
      destruct H as (He & (n2 & Hl2 & Hf2 & Hd2 & _) & (more & Hall & _)).
      assert (Hs : log s0 = log s /\ stopIn s0 = stopIn s /\
                   a = all ++ match coll_syncs (localPending s) with
                              | [] => []
                              | _ => [coll_syncs (localPending s)]
                              end).
      { destruct (coll_syncs (localPending s)) eqn:Hsyncs.
        - bind_inv E. unfold ret in E. injection E as <- <-.
          unfold w_check in E0.
          destruct (coll_items (localPending s)); [discriminate |].
          unfold ret in E0. injection E0 as E0. subst s2.
          rewrite app_nil_r. simpl. auto.
        - unfold ret in E. injection E as <- <-. simpl. auto. }
      destruct Hs as (Hl0 & Hstop0 & Ha).
      split; [exact He | split].
      * exists (n1 ++ n2). split; [| split; [| split]].
        -- rewrite Hl2, Hl1, Hl0, app_assoc. reflexivity.
        -- apply Forall_app. auto.
        -- rewrite desynced_in_app. tauto.
        -- intros Hnever q Hq. rewrite <- Hstop0 in Hnever.
           destruct (Hp1 Hnever) as (_ & Hall1).
           destruct (Hall1 q Hq) as (t & Hin).
           exists t. apply in_or_app. left. exact Hin.
      * subst a. rewrite <- app_assoc in Hall.
        eexists. split; [exact Hall |].
        rewrite concat_app. apply incl_appl.
        destruct (coll_syncs (localPending s)).
        -- apply incl_nil_l.
        -- cbn [List.concat]. rewrite app_nil_r. apply incl_refl.
Qed.

Lemma crawl_events_filtered (new : list Event) :
  Forall crawl_event new -> filter is_process_event new = [].
Proof.
  induction 1 as [| e l He Hl IH]; [reflexivity |].
  simpl. rewrite IH. destruct e; simpl in *; try reflexivity; contradiction.
Qed.

Lemma process_items_order (fuel : nat) (pending : list PendingChange) :
  forall d s d' s',
    process_items fuel d pending s = Ok (d', s') ->
    stopIn s = None ->
    stopIn s' = None /\ mostRecentTick s' = mostRecentTick s
    /\ exists new,
         log s' = log s ++ new
         /\ filter is_process_event new = map (EvProcess (mostRecentTick s)) pending.
Proof.
  induction pending as [| p next IH]; intros d s d' s' H Hnone; simpl in H.
  - unfold ret in H. injection H as <- <-.
    split; [exact Hnone | split; [reflexivity |]].
    exists []. rewrite app_nil_r. auto.
  - bind_inv H. unfold process_item in E.
    unfold bind at 1 in E. unfold stopThreads_load at 1 in E.
    rewrite Hnone in E. cbv beta iota in E.
    unfold bind at 1 in E. unfold modify at 1 in E. cbv beta iota in E.
    match type of E with
    | bind (processPath fuel p None) _ ?x = _ => set (s1 := x) in *
    end.
    pose proof (processPath_frame fuel p None s1) as Hf.
    bind_inv E. unfold ret in E. injection E as <- <-.
    destruct Hf as [h1 h2 h3 h4 h5 h6 h7 (new1 & hl & hf)].
    assert (Hnone2 : stopIn s2 = None) by (apply h7; exact Hnone).
    destruct (IH _ _ _ _ H Hnone2) as (Hn' & Ht' & new2 & Hl2 & Hfilter).
    split; [exact Hn' | split; [rewrite Ht', h4; reflexivity |]].
    exists ([EvProcess (mostRecentTick s) p] ++ new1 ++ new2). split.
    + rewrite Hl2, hl. subst s1. simpl. rewrite <- !app_assoc. reflexivity.
    + rewrite !filter_app, (crawl_events_filtered _ hf), Hfilter, h4.
      reflexivity.
Qed.

Lemma processAllPending_loop_rounds (fuel : nat) :
  forall (d : IsDesynced) (all : list (list Promise)) (s : State)
         (d' : IsDesynced) (all' : list (list Promise)) (s' : State),
    processAllPending_loop fuel d all s = Ok ((d', all'), s') ->
    exists heads,
      rounds s heads s'
      /\ List.concat all' =
           List.concat all
             ++ List.concat (map (fun h => coll_syncs (localPending h)) heads)
      /\ (stopIn s = None ->
          forall new,
            log s' = log s ++ new ->
            filter is_process_event new =
              map (EvProcess (mostRecentTick s))
                (List.concat (map (fun h => coll_items (localPending h)) heads))).
Proof.
  induction fuel as [| fuel IH]; intros d all s d' all' s' H; simpl in H.
  - discriminate.
  - unfold bind at 1 in H. simpl in H.
    destruct (coll_empty (localPending s)) eqn:Hempty.
    + unfold ret in H. injection H as <- <- <-.
      exists []. split; [apply rounds_done; exact Hempty | split].
      * simpl. rewrite app_nil_r. reflexivity.
      * intros _ new Hlog.
        rewrite <- (app_nil_r (log s)) in Hlog at 1.
        apply app_inv_head in Hlog. subst new. reflexivity.
    + unfold bind at 1 in H. simpl in H. bind_inv H. bind_inv H.
      assert (Hs : s0 = set_localPending coll_nil s /\
                   List.concat a = List.concat all ++ coll_syncs (localPending s)).
      { destruct (coll_syncs (localPending s)) eqn:Hsyncs.
        - bind_inv E. unfold ret in E. injection E as <- <-.
          unfold w_check in E1.
          destruct (coll_items (localPending s)); [discriminate |].
          unfold ret in E1. injection E1 as E1. subst s2.
          rewrite app_nil_r. auto.
        - unfold ret in E. injection E as <- <-.
          rewrite concat_app. simpl. rewrite app_nil_r. auto. }
      destruct Hs as (-> & Ha).
      pose proof (processAllPending_loop_spec _ _ _ _ _ _ _ H)
        as (_ & (n2 & Hl2 & _) & _).
      destruct (IH _ _ _ _ _ _ H) as (heads & Hrounds & Hall & Hitems).
      exists (s :: heads). split; [| split].
      * eapply rounds_more; eassumption.
      * rewrite Hall, Ha. simpl. rewrite <- app_assoc. reflexivity.
      * intros Hnone new Hlog.
        destruct (process_items_order _ _ _ _ _ _ E0 Hnone)
          as (Hnone1 & Htick & n1 & Hl1 & Hf1).
        simpl in Hl1, Htick, Hf1.
        rewrite Hl2, Hl1, <- app_assoc in Hlog. apply app_inv_head in Hlog.
        subst new. rewrite filter_app, Hf1, (Hitems Hnone1 n2 Hl2), Htick.
        simpl. rewrite map_app. reflexivity.
Qed.

Lemma resolve_syncs_eq (syncs : list Promise) (s : State) :
  resolve_syncs syncs s = Ok (tt, set_log (log s ++ map EvSyncSetValue syncs) s).
Proof.
  revert s. induction syncs as [| sync rest IH]; intros s; simpl.
  - rewrite app_nil_r. destruct s; reflexivity.
  - unfold bind, emit, modify. rewrite IH. simpl.
    rewrite <- app_assoc. reflexivity.
Qed.

Lemma processAllPending_spec (fuel : nat) (s : State) (r : IsDesynced) (s' : State) :
  processAllPending fuel s = Ok (r, s') ->
  exists s_mid syncs new,
    coll_empty (localPending s_mid) = true
    /\ log s_mid = log s ++ new /\ Forall not_sync new
    /\ s' = set_log (log s_mid ++ map EvSyncSetValue syncs) s_mid
    /\ incl (coll_syncs (localPending s)) syncs
    /\ (r = DesyncedYes <-> desynced_in new)
    /\ (stopIn s = None ->
        forall p, In p (coll_items (localPending s)) ->
                  exists t, In (EvProcess t p) new).
Proof.
  unfold processAllPending. intros H. bind_inv H. destruct a as [d all].
  unfold bind at 1 in H. rewrite resolve_syncs_eq in H.
  unfold ret in H. simpl in H. injection H as <- <-.
  apply processAllPending_loop_spec in E.
  destruct E as (He & (new & Hl & Hf & Hd & Hp) & (more & Hall & Hincl)).
  simpl in Hall. subst all.
  exists s0, (List.concat more), new.
  repeat split; auto.
  - intros Hy. apply Hd in Hy. destruct Hy; [discriminate | assumption].
  - intros Hin. apply Hd. right. exact Hin.
Qed.

(** C7.  A pass of [processAllPending] that returns resolves sync
    promises only at its very end: when the first one is resolved the
    batch is empty, so nothing of the pass is left to process, and no
    promise had been resolved before; the promises resolved include
    every one the batch held when the pass began.  Unless the stop flag
    is raised during the pass, every item the batch held when the pass
    began has by then been handed to [processPath].

    The same holds of what [processPath] appends during the pass.  The
    pass is a chain of turns of the outer loop, which ends only when
    the loop finds the batch empty: each turn takes whatever the batch
    holds by then and runs the inner loop over all of it.  The promises
    resolved at the end are those the batch held at the head of each
    turn, in order, and nothing else; and unless the stop flag is
    raised, the items handed to [processPath] before the first promise
    is resolved are exactly the items the batch held at the head of
    each turn, in order, each once. *)
Theorem syncs_resolved_after_pass (fuel : nat) (s : State) (r : IsDesynced)
    (s' : State) :
  processAllPending fuel s = Ok (r, s') ->
  exists s_mid syncs new heads,
    coll_empty (localPending s_mid) = true
    /\ log s_mid = log s ++ new /\ Forall not_sync new
    /\ s' = set_log (log s_mid ++ map EvSyncSetValue syncs) s_mid
    /\ incl (coll_syncs (localPending s)) syncs
    /\ (stopIn s = None ->
        forall p, In p (coll_items (localPending s)) ->
                  exists t, In (EvProcess t p) new)
    /\ rounds s heads s_mid
    /\ syncs = List.concat (map (fun h => coll_syncs (localPending h)) heads)
    /\ (stopIn s = None ->
        filter is_process_event new =
          map (EvProcess (mostRecentTick s))
            (List.concat (map (fun h => coll_items (localPending h)) heads))).
Proof.
  unfold processAllPending. intros H. bind_inv H. destruct a as [d all].
  unfold bind at 1 in H. rewrite resolve_syncs_eq in H.
  unfold ret in H. simpl in H. injection H as <- <-.
  destruct (processAllPending_loop_rounds _ _ _ _ _ _ _ E)
    as (heads & Hrounds & Hall & Hitems).
  apply processAllPending_loop_spec in E.
  destruct E as (He & (new & Hl & Hf & Hd & Hp) & (more & Hmore & Hincl)).
  simpl in Hmore, Hall. subst all.
  exists s0, (List.concat more), new, heads.
  repeat split; auto.
Qed.

End Pass.

(** ** Desynced passes *)

Section Desync.

Context {ext : External} {root : Root}.

Lemma desynced_in_syncs (syncs : list Promise) :
  ~ desynced_in (map EvSyncSetValue syncs).
Proof.
  intros (t & p & Hin & _). apply in_map_iff in Hin.
  destruct Hin as (x & Hx & _). discriminate.
Qed.

(** C6.  A pass of [processAllPending] returns Desynced exactly when one
    of the items it handed to [processPath] carried both IS_DESYNCED and
    CRAWL_ONLY; and a step that reaches the batch stage and gets
    Desynced from the pass ends by aborting all cookies, while one that
    gets NotDesynced does not. *)
Theorem desynced_pass_aborts_cookies :
  (forall fuel s r s' new,
     processAllPending fuel s = Ok (r, s') -> log s' = log s ++ new ->
     (r = DesyncedYes <-> desynced_in new))
  /\ (forall fuel s s0 pinged s1 r s2,
        stopThreads_load s = Ok (false, s0) ->
        step_wait fuel s0 = Ok (pinged, s1) ->
        shouldRecrawl s1 = false ->
        negb pinged && coll_empty (localPending s1) = false ->
        processAllPending fuel
          (set_mostRecentTick (fetch_add_1 (mostRecentTick s1))
             (set_currentTimeout trigger_settle s1)) = Ok (r, s2) ->
        stepIoThread fuel s =
          Ok (ContinueLoop,
              match r with
              | DesyncedYes => set_log (log s2 ++ [EvAbortAllCookies]) s2
              | DesyncedNo => s2
              end)).
Proof.
  split.
  - intros fuel s r s' new H Hl.
    apply processAllPending_spec in H.
    destruct H as (s_mid & syncs & new0 & _ & Hl0 & _ & Hs' & _ & Hd & _).
    subst s'. simpl in Hl. rewrite Hl0, <- app_assoc in Hl.
    apply app_inv_head in Hl. subst new.
    rewrite Hd, desynced_in_app.
    pose proof (desynced_in_syncs syncs). tauto.
  - intros fuel s s0 pinged s1 r s2 Hstop Hwait Hsr Hcond Hpass.
    pose proof (step_wait_waited fuel s0) as Hw. rewrite Hwait in Hw.
    unfold stepIoThread. unfold bind at 1. rewrite Hstop.
    unfold bind at 1. rewrite Hwait.
    unfold bind at 1. rewrite handleShouldRecrawl_eq, Hsr.
    unfold bind at 1. simpl. rewrite Hcond.
    unfold step_process. unfold bind at 1. simpl.
    unfold bind at 1. simpl. rewrite (wt_done_initial _ _ Hw).
    unfold bind at 1. simpl. unfold bind at 1. simpl.
    unfold bind at 1. rewrite Hpass.
    destruct r; reflexivity.
Qed.

End Desync.

(** ** Failures while crawling *)

Section CrawlErrors.

Context {ext : External} {root : Root}.

Lemma runs_ret {A : Type} (Q : Event -> Prop) (a : A) : runs Q (ret a).
Proof.
  intros s. exists a, s. split; [reflexivity |].
  exists []. rewrite app_nil_r. auto.
Qed.

Lemma runs_gets {A : Type} (Q : Event -> Prop) (f : State -> A) : runs Q (gets f).
Proof.
  intros s. exists (f s), s. split; [reflexivity |].
  exists []. rewrite app_nil_r. auto.
Qed.

Lemma runs_modify (Q : Event -> Prop) (f : State -> State) :
  (forall s, log (f s) = log s) -> runs Q (modify f).
Proof.
  intros H s. exists tt, (f s). split; [reflexivity |].
  exists []. rewrite app_nil_r, H. auto.
Qed.

Lemma runs_emit (Q : Event -> Prop) (e : Event) : Q e -> runs Q (emit e).
Proof.
  intros H s. eexists tt, _. split; [reflexivity |].
  exists [e]. simpl. auto.
Qed.

Lemma runs_bind {A B : Type} (Q : Event -> Prop) (m : M A) (f : A -> M B) :
  runs Q m -> (forall a, runs Q (f a)) -> runs Q (bind m f).
Proof.
  intros Hm Hf s. destruct (Hm s) as (a & s1 & E1 & n1 & L1 & F1).
  destruct (Hf a s1) as (b & s2 & E2 & n2 & L2 & F2).
  exists b, s2. unfold bind. rewrite E1. split; [exact E2 |].
  exists (n1 ++ n2). rewrite L2, L1, app_assoc. split; [reflexivity |].
  apply Forall_app. auto.
Qed.

Lemma length_append (a b : string) :
  String.length (String.append a b) = (String.length a + String.length b)%nat.
Proof. induction a as [| c a IH]; simpl; [reflexivity | rewrite IH; reflexivity]. Qed.

Lemma child_longer (dir name : w_string) :
  (String.length dir < String.length (getFullPathToChild dir name))%nat.
Proof.
  unfold getFullPathToChild. rewrite !length_append. simpl. lia.
Qed.

Lemma longer_not_root (p : w_string) :
  (String.length root_path < String.length p)%nat -> String.eqb p root_path = false.
Proof.
  intros H. destruct (String.eqb_spec p root_path) as [-> | Hne]; [lia | reflexivity].
Qed.

Lemma call_statPath_runs (pending : PendingChange) (pre_stat : option DirEntry) :
  runs listing_event (call_statPath pending pre_stat).
Proof.
  unfold call_statPath. apply runs_bind; [apply runs_emit; exact I |].
  intros _. apply runs_modify. intros s.
  destruct (statPath (world s) (view s) (localPending s) pending pre_stat) as [[v c] w].
  reflexivity.
Qed.

Lemma coll_add_runs (p : PendingChange) : runs listing_event (coll_add p).
Proof.
  unfold coll_add. apply runs_bind; [apply runs_emit; exact I |].
  intros _. apply runs_modify. reflexivity.
Qed.

(** A change made by [crawler] for a child never comes back to
    [crawler]: it is a cookie or goes to [statPath]. *)
Lemma processPath_child_runs (fuel : nat) (p : PendingChange)
    (pre_stat : option DirEntry) :
  (String.length root_path < String.length (pc_path p))%nat ->
  to_bool (Z.land (pc_flags p) W_PENDING_CRAWL_ONLY) = false ->
  runs listing_event (processPath (S fuel) p pre_stat).
Proof.
  intros Hlen Hflag. simpl.
  assert (Hleb : (String.length root_path <=? String.length (pc_path p))%nat = true)
    by (apply Nat.leb_le; lia).
  rewrite Hleb, (longer_not_root _ Hlen), Hflag. simpl.
  apply runs_bind; [apply runs_ret |]. intros _.
  destruct (isCookiePrefix (pc_path p)).
  - apply runs_bind.
    + unfold consider_cookie.
      destruct (to_bool (Z.land watcher_flags WATCHER_HAS_PER_FILE_NOTIFICATIONS)).
      * apply runs_bind; [apply runs_gets | intros; apply runs_ret].
      * apply runs_ret.
    + intros []; [apply runs_emit; exact I | apply runs_ret].
  - apply call_statPath_runs.
Qed.

Lemma child_flags_not_crawl_only (recursive absent desynced : bool) :
  to_bool
    (Z.land
       (if desynced
        then set_flag (if recursive || absent then set_flag 0 W_PENDING_RECURSIVE else 0)
               W_PENDING_IS_DESYNCED
        else if recursive || absent then set_flag 0 W_PENDING_RECURSIVE else 0)
       W_PENDING_CRAWL_ONLY) = false.
Proof. destruct desynced, recursive, absent; reflexivity. Qed.

Lemma crawl_entry_runs (fuel : nat) (dir : w_string) (pending : PendingChange)
    (recursive stat_all : bool) (dirent : DirEntry) :
  (String.length root_path <= String.length dir)%nat ->
  runs listing_event
    (crawl_entry (processPath (S fuel)) dir pending recursive stat_all dirent).
Proof.
  intros Hlen. unfold crawl_entry.
  destruct (is_dot_or_dotdot (d_name dirent)); [apply runs_ret |].
  apply runs_bind; [apply runs_gets |]. intros file.
  apply runs_bind.
  - destruct file; [apply runs_modify; reflexivity | apply runs_ret].
  - intros _.
    match goal with |- runs _ (if ?b then _ else _) => destruct b end;
      [| apply runs_ret].
    apply processPath_child_runs.
    + simpl. pose proof (child_longer dir (d_name dirent)). lia.
    + simpl. apply child_flags_not_crawl_only.
Qed.

Lemma crawl_entries_runs (fuel : nat) (dir : w_string) (pending : PendingChange)
    (recursive stat_all : bool) (entries : list DirEntry) :
  (String.length root_path <= String.length dir)%nat ->
  runs listing_event
    (crawl_entries (processPath (S fuel)) dir pending recursive stat_all entries).
Proof.
  intros Hlen. induction entries as [| dirent rest IH]; simpl.
  - apply runs_ret.
  - apply runs_bind; [apply crawl_entry_runs; exact Hlen | intros _; exact IH].
Qed.

Lemma requeue_children_runs (dir : w_string) (now : time_point) (recursive : bool)
    (fs : list (w_string * watchman_file)) :
  runs listing_event (requeue_children dir now recursive fs).
Proof.
  induction fs as [| [name file] rest IH]; simpl.
  - apply runs_ret.
  - apply runs_bind; [| intros _; exact IH].
    destruct (f_exists file && (maybe_deleted file || f_isDir file && recursive));
      [apply coll_add_runs | apply runs_ret].
Qed.

Lemma open_failed_eq (dir : w_string) (now : time_point) (syscall : string)
    (err : error_code) (s : State) :
  exists s',
    open_failed dir now syscall err s = Ok (tt, s')
    /\ localPending s' = localPending s
    /\ log s' =
         log s ++ [EvHandleOpenErrno dir syscall err;
                   EvMarkDirDeleted dir (mostRecentTick s)].
Proof.
  unfold open_failed, bind, emit, modify, gets. simpl.
  destruct (markDirDeleted (handle_open_errno (world s) dir now syscall err)
              (view s) dir (mostRecentTick s) now) as [v w].
  eexists. split; [reflexivity |]. simpl.
  rewrite <- app_assoc. auto.
Qed.

Lemma bind_run {A B : Type} (m : M A) (f : A -> M B) (s s1 : State) (a : A) :
  m s = Ok (a, s1) -> bind m f s = f a s1.
Proof. intros H. unfold bind. rewrite H. reflexivity. Qed.

Lemma listing_not_deleted (new : list Event) :
  Forall listing_event new ->
  forall d t, ~ In (EvMarkDirDeleted d t) new.
Proof.
  intros Hf d t Hin. rewrite Forall_forall in Hf. exact (Hf _ Hin).
Qed.

Lemma check_root_inode_some (dir : w_string) (pending : PendingChange)
    (recursive : bool) (s : State) (r : bool) (s1 : State) :
  check_root_inode dir pending recursive s = Ok (Some r, s1) -> log s1 = log s.
Proof.
  unfold check_root_inode. unfold bind at 1. unfold gets at 1. cbv beta iota.
  destruct (getFileInformation (world s) (pc_path pending) case_sensitive)
    as [err | ino].
  - intros H.
    destruct (open_failed_eq dir (pc_now pending) "getFileInformation" err s)
      as (sx & Hrun & _).
    rewrite (bind_run _ _ _ _ _ Hrun) in H. discriminate.
  - unfold bind, gets, scheduleRecrawl, emit, modify, ret. simpl.
    destruct (negb (ino =? rootInode (view s)));
      [destruct (negb (rootInode (view s) =? 0)) |];
      intros H; try discriminate; injection H as _ <-; reflexivity.
Qed.

(** C4, amended.  None of the three failures is fatal: [crawler] returns.
    When [startWatchDir] fails for a sub-path, or [getFileInformation]
    fails for the root, [crawler] hands the error to [handle_open_errno],
    marks the directory deleted at the current tick and returns, and the
    batch is left as it was.  When [readDir] fails in the middle of the
    enumeration of a directory that opened (the root, once its inode
    was checked, or any other), the entries read so far have been
    handled, [crawler] adds the directory's path to the batch again,
    with no flags, and then goes on to its post-processing: what it
    returns is what the re-queueing of the directory's children leaves,
    run from the state the re-add left.  It does not mark the
    directory deleted. *)
Theorem crawler_io_failures (pp : PendingChange -> option DirEntry -> M unit)
    (pending : PendingChange) (s : State) :
  (forall err w',
     String.eqb (pc_path pending) root_path = false ->
     startWatchDir (world s) (pc_path pending) = (inl err, w') ->
     exists s',
       crawler pp pending s = Ok (tt, s')
       /\ localPending s' = localPending s
       /\ log s' =
            log s ++ [EvHandleOpenErrno (pc_path pending) "opendir" err;
                      EvMarkDirDeleted (pc_path pending) (mostRecentTick s)])
  /\ (forall err,
        String.eqb (pc_path pending) root_path = true ->
        getFileInformation (world s) (pc_path pending) case_sensitive = inl err ->
        exists s',
          crawler pp pending s = Ok (tt, s')
          /\ localPending s' = localPending s
          /\ log s' =
               log s ++ [EvHandleOpenErrno (pc_path pending) "getFileInformation" err;
                         EvMarkDirDeleted (pc_path pending) (mostRecentTick s)])
  /\ (forall fuel recursive s1 osdir err w',
        (String.length root_path <= String.length (pc_path pending))%nat ->
        (if String.eqb (pc_path pending) root_path
         then check_root_inode (pc_path pending) pending
                (contains (pc_flags pending) W_PENDING_RECURSIVE)
         else ret (Some (contains (pc_flags pending) W_PENDING_RECURSIVE)))
          (set_view (resolveDir (view s) (pc_path pending)) s)
        = Ok (Some recursive, s1) ->
        startWatchDir (world s1) (pc_path pending) = (inr osdir, w') ->
        dh_error osdir = Some err ->
        let stat_all :=
          if to_bool (Z.land watcher_flags WATCHER_HAS_PER_FILE_NOTIFICATIONS)
          then to_bool (Z.land watcher_flags WATCHER_COALESCED_RENAME)
          else contains (pc_flags pending) W_PENDING_NONRECURSIVE_SCAN in
        let readd := mkPending (pc_path pending) (pc_now pending) 0 in
        exists s2 s' new,
          crawl_entries (processPath (S fuel)) (pc_path pending) pending recursive
            stat_all (dh_entries osdir)
            (set_view (update_dir (view s1) (pc_path pending) flag_maybe_deleted)
               (set_world w' s1))
          = Ok (tt, s2)
          /\ requeue_children (pc_path pending) (pc_now pending) recursive
               (dir_files (view s2) (pc_path pending))
               (set_localPending (pc_add readd (localPending s2))
                  (set_log (log s2 ++ [EvPendingAdd readd]) s2))
             = Ok (tt, s')
          /\ crawler (processPath (S fuel)) pending s = Ok (tt, s')
          /\ log s' = log s ++ new
          /\ In (EvPendingAdd readd) new
          /\ forall d t, ~ In (EvMarkDirDeleted d t) new).
Proof.
  split; [| split].
  - intros err w' Hsub Hopen.
    unfold crawler. unfold bind at 1. simpl. rewrite Hsub.
    unfold bind at 1. simpl. unfold bind at 1. simpl. rewrite Hopen.
    match goal with |- context [open_failed ?d ?n ?c ?e ?x] =>
      destruct (open_failed_eq d n c e x) as (s' & Hrun & Hcoll & Hlog)
    end.
    exists s'. split; [exact Hrun | split; [exact Hcoll | exact Hlog]].
  - intros err Hroot Hstat.
    unfold crawler. unfold bind at 1. simpl. rewrite Hroot.
    unfold bind at 1. unfold check_root_inode. unfold bind at 1. simpl.
    rewrite Hstat.
    match goal with |- context [open_failed ?d ?n ?c ?e] =>
      destruct (open_failed_eq d n c e
                  (set_view (resolveDir (view s) (pc_path pending)) s))
        as (s' & Hrun & Hcoll & Hlog)
    end.
    rewrite (bind_run _ _ _ _ _ Hrun). simpl.
    exists s'. split; [reflexivity | split; [exact Hcoll | exact Hlog]].
  - intros fuel recursive s1 osdir err w' Hlen Hcheck Hopen Herr stat_all readd.
    assert (Hl1 : log s1 = log s).
    { destruct (String.eqb (pc_path pending) root_path).
      - apply check_root_inode_some in Hcheck. exact Hcheck.
      - unfold ret in Hcheck. injection Hcheck as _ <-. reflexivity. }
    destruct (crawl_entries_runs fuel (pc_path pending) pending recursive stat_all
                (dh_entries osdir) Hlen
                (set_view (update_dir (view s1) (pc_path pending) flag_maybe_deleted)
                   (set_world w' s1)))
      as ([] & s2 & Hrun1 & n1 & Hl2 & Hf1).
    destruct (requeue_children_runs (pc_path pending) (pc_now pending) recursive
                (dir_files (view s2) (pc_path pending))
                (set_localPending (pc_add readd (localPending s2))
                   (set_log (log s2 ++ [EvPendingAdd readd]) s2)))
      as ([] & s' & Hrun2 & n2 & Hl3 & Hf2).
    exists s2, s', (n1 ++ EvPendingAdd readd :: n2).
    split; [exact Hrun1 | split; [exact Hrun2 | split; [| split; [| split]]]].
    + revert Hrun1 Hrun2. generalize (processPath (S fuel)). intros pp1 Hrun1 Hrun2.
      unfold crawler. cbv zeta.
      erewrite bind_run by reflexivity.
      rewrite (bind_run _ _ _ _ _ Hcheck). cbv beta iota.
      erewrite bind_run by (rewrite Hopen; reflexivity). cbv beta iota.
      erewrite bind_run by reflexivity.
      rewrite (bind_run _ _ _ _ _ Hrun1). rewrite Herr.
      erewrite bind_run by reflexivity.
      erewrite bind_run by reflexivity.
      exact Hrun2.
    + rewrite Hl3. simpl. rewrite Hl2. simpl. rewrite Hl1.
      rewrite <- !app_assoc. reflexivity.
    + apply in_or_app. right. left. reflexivity.
    + apply listing_not_deleted. apply Forall_app. split; [exact Hf1 |].
      constructor; [exact I | exact Hf2].
Qed.

End CrawlErrors.

(** ** The statements on the small root *)

Section OnSmallRoot.

#[local] Existing Instance Demo.root_small.

Lemma processPath_cookie_witness :
  @isCookiePrefix Demo.ext_small (pc_path Demo.cookie_change) = true
  /\ processPath (ext := Demo.ext_small) 1 Demo.cookie_change None Demo.first_state =
       Ok (tt,
           set_log (log Demo.first_state ++ [EvNotifyCookie (pc_path Demo.cookie_change)])
             Demo.first_state)
  /\ @isCookiePrefix Demo.ext_small (pc_path Demo.child_change) = false.
Proof.
  split; [vm_compute; reflexivity | split].
  - refine (proj1 (processPath_cookie (ext := Demo.ext_small) (root := Demo.root_small))
              0%nat Demo.cookie_change None Demo.first_state eq_refl _).
    vm_compute. lia.
  - apply (proj2 (processPath_cookie (ext := Demo.ext_small) (root := Demo.root_small))
             5%nat Demo.first_state ContinueLoop Demo.first_done (log Demo.first_done)
             Demo.child_change (Some (mkDirEntry "a"))).
    + vm_compute. reflexivity.
    + vm_compute. reflexivity.
    + vm_compute. right. left. reflexivity.
Defined.

Lemma settled_only_when_quiet_witness :
  exists s0 s1,
    stopThreads_load Demo.first_state = Ok (false, s0)
    /\ step_wait 5 s0 = Ok (false, s1)
    /\ handleShouldRecrawl s1 = Ok (false, s1)
    /\ coll_empty (localPending s1) = true
    /\ done_initial s1 = true
    /\ step_settle s1 = Ok (ContinueLoop, Demo.first_done).
Proof.
  apply (proj1 settled_only_when_quiet 5%nat Demo.first_state ContinueLoop
           Demo.first_done (log Demo.first_done)).
  - vm_compute. reflexivity.
  - (vm_compute; reflexivity).
  - vm_compute. do 6 right. left. (vm_compute; reflexivity).
Defined.

(** C3 as stated fails: with [gc_interval] 100 ms and [idle_reap_age]
    50 ms the thread starts with 50 ms, not with the largest of the
    non-zero values, 24 hours. *)
Lemma biggestTimeout_counterexample :
  getBiggestTimeout Demo.root_gc = 50
  /\ spec_biggestTimeout Demo.root_gc = hours_24
  /\ getBiggestTimeout Demo.root_gc <> spec_biggestTimeout Demo.root_gc.
Proof.
  split; [(vm_compute; reflexivity) | split; [(vm_compute; reflexivity) |]].
  vm_compute. discriminate.
Qed.

(** C4 as stated fails: when [startWatchDir] fails for [/w/sub] the
    directory is marked deleted but nothing is added to the batch; when
    [readDir] fails in [/w/sub] the path is added again but the
    directory is not marked deleted. *)
Lemma crawler_io_failures_counterexample :
  (exists s',
     crawler (processPath 1) Demo.sub_crawl Demo.idle_small = Ok (tt, s')
     /\ coll_items (localPending s') = []
     /\ log s' = [EvHandleOpenErrno (pc_path Demo.sub_crawl) "opendir" 2;
                  EvMarkDirDeleted (pc_path Demo.sub_crawl) 2])
  /\ (exists s',
        crawler (processPath 1) Demo.sub_crawl Demo.idle_readfail = Ok (tt, s')
        /\ coll_items (localPending s') = [mkPending (pc_path Demo.sub_crawl) 0 0]
        /\ forall d t, ~ In (EvMarkDirDeleted d t) (log s')).
Proof.
  split.
  - eexists. split; [vm_compute; reflexivity | split; (vm_compute; reflexivity)].
  - eexists. split; [vm_compute; reflexivity | split; [(vm_compute; reflexivity) |]].
    intros d t [H | [H | []]]; discriminate.
Qed.

Lemma crawler_io_failures_witness :
  (exists s',
     crawler (processPath 1) Demo.sub_crawl Demo.idle_small = Ok (tt, s')
     /\ localPending s' = coll_nil
     /\ log s' = [EvHandleOpenErrno (pc_path Demo.sub_crawl) "opendir" 2;
                  EvMarkDirDeleted (pc_path Demo.sub_crawl) 2])
  /\ (exists s',
        crawler (processPath 1) Demo.root_crawl Demo.idle_statfail = Ok (tt, s')
        /\ localPending s' = coll_nil
        /\ log s' = [EvHandleOpenErrno (pc_path Demo.root_crawl) "getFileInformation" 13;
                     EvMarkDirDeleted (pc_path Demo.root_crawl) 2])
  /\ (exists s2 s' new,
        crawl_entries (ext := Demo.ext_readfail) (processPath 1) "/w/sub"%string
          Demo.sub_crawl false false [mkDirEntry "a"]
          (set_view (update_dir (view Demo.readfail_opened) "/w/sub"%string
                       flag_maybe_deleted)
             (set_world (ext := Demo.ext_readfail) tt Demo.readfail_opened))
        = Ok (tt, s2)
        /\ requeue_children "/w/sub"%string 0 false
             (dir_files (view s2) "/w/sub"%string)
             (set_localPending
                (pc_add (ext := Demo.ext_readfail) (mkPending "/w/sub"%string 0 0)
                   (localPending s2))
                (set_log (log s2 ++ [EvPendingAdd (mkPending "/w/sub"%string 0 0)]) s2))
           = Ok (tt, s')
        /\ crawler (processPath 1) Demo.sub_crawl Demo.readfail_known = Ok (tt, s')
        /\ log s' = log Demo.readfail_known ++ new
        /\ In (EvPendingAdd (mkPending "/w/sub"%string 0 0)) new
        /\ forall d t, ~ In (EvMarkDirDeleted d t) new).
Proof.
  split; [| split].
  - apply (proj1 (crawler_io_failures (processPath 1) Demo.sub_crawl Demo.idle_small)
             2 tt); (vm_compute; reflexivity).
  - apply (proj1 (proj2 (crawler_io_failures (processPath 1) Demo.root_crawl Demo.idle_statfail))
             13); (vm_compute; reflexivity).
  - refine (proj2 (proj2 (crawler_io_failures (ext := Demo.ext_readfail)
                            (processPath 1) Demo.sub_crawl Demo.readfail_known))
              0%nat false Demo.readfail_opened (mkDirHandle [mkDirEntry "a"] (Some 5))
              5 tt _ _ _ _).
    + vm_compute. lia.
    + vm_compute. reflexivity.
    + vm_compute. reflexivity.
    + vm_compute. reflexivity.
Defined.

(** C5 as stated fails: with [shouldRecrawl] set on a cancelled root,
    [handleShouldRecrawl] returns true and [done_initial] stays true. *)
Lemma handleShouldRecrawl_counterexample :
  shouldRecrawl (Demo.recrawl_state true) = true
  /\ cancelled (Demo.recrawl_state true) = true
  /\ handleShouldRecrawl (Demo.recrawl_state true) = Ok (true, Demo.recrawl_state true)
  /\ ~ (exists s',
          handleShouldRecrawl (Demo.recrawl_state true) = Ok (true, s')
          /\ done_initial s' = false).
Proof.
  split; [(vm_compute; reflexivity) | split; [(vm_compute; reflexivity) | split; [(vm_compute; reflexivity) |]]].
  intros (s' & Hrun & Hcleared).
  change (Ok (true, Demo.recrawl_state true) = Ok (true, s')) in Hrun.
  injection Hrun as <-. discriminate Hcleared.
Qed.

Lemma handleShouldRecrawl_when_set_witness :
  handleShouldRecrawl (Demo.recrawl_state false) =
    Ok (true,
        set_done_initial false (set_recrawlCount 1 (Demo.recrawl_state false))).
Proof.
  exact (handleShouldRecrawl_when_set (Demo.recrawl_state false) eq_refl).
Defined.

Lemma desynced_pass_aborts_cookies_witness :
  (DesyncedYes = DesyncedYes <-> desynced_in (log Demo.batch_done))
  /\ stepIoThread 5 Demo.desync_state =
       Ok (ContinueLoop,
           set_log (log Demo.desync_passed ++ [EvAbortAllCookies]) Demo.desync_passed).
Proof.
  split.
  - apply (proj1 desynced_pass_aborts_cookies 5%nat Demo.batch_state DesyncedYes
             Demo.batch_done (log Demo.batch_done)).
    + vm_compute. reflexivity.
    + (vm_compute; reflexivity).
  - apply (proj2 desynced_pass_aborts_cookies 5%nat Demo.desync_state Demo.desync_state
             true Demo.desync_woken DesyncedYes Demo.desync_passed).
    + (vm_compute; reflexivity).
    + vm_compute. reflexivity.
    + (vm_compute; reflexivity).
    + (vm_compute; reflexivity).
    + vm_compute. reflexivity.
Defined.

Lemma syncs_resolved_after_pass_witness :
  exists s_mid syncs new heads,
    coll_empty (localPending s_mid) = true
    /\ log s_mid = log Demo.readfail_batch ++ new /\ Forall not_sync new
    /\ Demo.readfail_batch_done = set_log (log s_mid ++ map EvSyncSetValue syncs) s_mid
    /\ incl (coll_syncs (localPending Demo.readfail_batch)) syncs
    /\ (stopIn Demo.readfail_batch = None ->
        forall p, In p (coll_items (localPending Demo.readfail_batch)) ->
                  exists t, In (EvProcess t p) new)
    /\ rounds (ext := Demo.ext_readfail) Demo.readfail_batch heads s_mid
    /\ syncs = List.concat (map (fun h => coll_syncs (localPending h)) heads)
    /\ (stopIn Demo.readfail_batch = None ->
        filter is_process_event new =
          map (EvProcess (mostRecentTick Demo.readfail_batch))
            (List.concat (map (fun h => coll_items (localPending h)) heads))).
Proof.
  apply (syncs_resolved_after_pass (ext := Demo.ext_readfail) 5 Demo.readfail_batch
           DesyncedNo Demo.readfail_batch_done).
  vm_compute. reflexivity.
Defined.

(** C8 as stated fails: a first step taken at tick 2^64 - 1 leaves the
    tick at 0. *)
Lemma mostRecentTick_counterexample :
  mostRecentTick Demo.wrapping_state = 2 ^ 64 - 1
  /\ stepIoThread 5 Demo.wrapping_state = Ok (ContinueLoop, Demo.wrapping_done)
  /\ mostRecentTick Demo.wrapping_done = 0
  /\ ~ (mostRecentTick Demo.wrapping_state <= mostRecentTick Demo.wrapping_done).
Proof.
  split; [(vm_compute; reflexivity) | split; [vm_compute; reflexivity | split; [(vm_compute; reflexivity) |]]].
  vm_compute. intros H. apply H. (vm_compute; reflexivity).
Qed.

Lemma mostRecentTick_steps_witness :
  mostRecentTick Demo.first_state <= mostRecentTick Demo.first_done
    <= mostRecentTick Demo.first_state + 2 * Z.of_nat 1.
Proof.
  apply (proj2 (proj2 (proj2 mostRecentTick_steps)) 1%nat Demo.first_state
           Demo.first_done).
  - eapply io_steps_S; [| apply io_steps_O].
    exists 5%nat, ContinueLoop. vm_compute. reflexivity.
  - vm_compute. discriminate.
  - vm_compute. reflexivity.
Defined.

Lemma currentTimeout_backoff_witness :
  ((ContinueLoop = Stop /\ stopIn Demo.backed_off_state = Some O
    /\ Demo.backed_off_done = Demo.backed_off_state)
   \/ exists s0 pinged s1,
        stopThreads_load Demo.backed_off_state = Ok (false, s0)
        /\ step_wait 5 s0 = Ok (pinged, s1)
        /\ currentTimeout s1 =
             (if done_initial Demo.backed_off_state
              then currentTimeout Demo.backed_off_state
              else trigger_settle)
        /\ biggestTimeout Demo.backed_off_done = biggestTimeout Demo.backed_off_state
        /\ (if shouldRecrawl s1
            then ContinueLoop = ContinueLoop
                 /\ currentTimeout Demo.backed_off_done = trigger_settle
            else if negb pinged && coll_empty (localPending s1)
                 then (ContinueLoop = ContinueLoop
                       /\ currentTimeout Demo.backed_off_done =
                            Z.min (biggestTimeout Demo.backed_off_state)
                              (currentTimeout s1 * 2))
                      \/ (ContinueLoop = Stop
                          /\ currentTimeout Demo.backed_off_done = currentTimeout s1)
                 else ContinueLoop = ContinueLoop
                      /\ currentTimeout Demo.backed_off_done = trigger_settle))
  /\ (exists s',
        io_steps 3 Demo.first_done s' /\ quiet s'
        /\ biggestTimeout s' = biggestTimeout Demo.first_done
        /\ currentTimeout s' =
             Z.min (biggestTimeout Demo.first_done)
               (currentTimeout Demo.first_done * 2 ^ Z.of_nat 3))
  /\ match step_process 5 Demo.desync_woken with
     | Ok (c, s') =>
         c = ContinueLoop /\ currentTimeout s' = trigger_settle
         /\ biggestTimeout s' = biggestTimeout Demo.desync_woken
     | Err e => crawl_failure e
     end.
Proof.
  split; [| split].
  - apply (proj1 currentTimeout_backoff 5%nat Demo.backed_off_state ContinueLoop
             Demo.backed_off_done).
    vm_compute. reflexivity.
  - apply (proj1 (proj2 currentTimeout_backoff) 3%nat Demo.first_done).
    + unfold quiet. vm_compute. repeat split; reflexivity.
    + intros w. reflexivity.
    + vm_compute. split; discriminate.
    + vm_compute. discriminate.
  - apply (proj2 (proj2 currentTimeout_backoff) 5%nat Demo.desync_woken).
    vm_compute. reflexivity.
Defined.

Lemma full_crawl_check_holds_witness :
  done_initial Demo.first_woken = true.
Proof.
  apply (proj1 (full_crawl_check_holds 5 Demo.first_state) Demo.first_state false
           Demo.first_woken Demo.first_woken).
  - (vm_compute; reflexivity).
  - vm_compute. reflexivity.
  - vm_compute. reflexivity.
Defined.

End OnSmallRoot.

(** ** What the thread's calls have in common *)

Section ThreadEvents.

Context {ext : External} {root : Root}.

Lemma logs_refl (P : Event -> Prop) (s : State) : logs P s s.
Proof. exists []. rewrite app_nil_r. split; [reflexivity | constructor]. Qed.

Lemma logs_trans (P : Event -> Prop) (s1 s2 s3 : State) :
  logs P s1 s2 -> logs P s2 s3 -> logs P s1 s3.
Proof. unfold logs. intros H1 H2. eapply log_ext_trans; eassumption. Qed.

Lemma logs_same (P : Event -> Prop) (s s' : State) : log s' = log s -> logs P s s'.
Proof.
  intros H. exists []. rewrite app_nil_r. split; [exact H | constructor].
Qed.

Lemma emit_logs (P : Event -> Prop) (E : Failure -> Prop) (e : Event) :
  P e -> post (logs P) E (emit e).
Proof.
  intros H. apply post_modify. intros s. exists [e].
  split; [reflexivity | constructor; [exact H | constructor]].
Qed.

End ThreadEvents.

Ltac logs_set :=
  repeat match goal with
         | |- context [match ?x with pair _ _ => _ end] => destruct x
         end;
  apply logs_same; reflexivity.

Ltac logs_step :=
  match goal with
  | |- post _ _ (bind _ _) => apply post_bind; [apply logs_trans | | intros ?]
  | |- post _ _ (ret _) => apply post_ret, logs_refl
  | |- post _ _ (gets _) => apply post_gets, logs_refl
  | |- post _ _ (modify _) => apply post_modify; intros ?; logs_set
  | |- post _ _ (fail _) => apply post_fail; exact I
  | |- post _ _ (emit _) => apply emit_logs
  | |- post _ _ (w_check ?b _) => destruct b; unfold w_check
  | |- post _ _ (w_assert ?b _) => destruct b; unfold w_assert
  | |- post _ _ (if ?b then _ else _) => destruct b
  | |- post _ _ (match ?x with _ => _ end) => destruct x
  end.

Section ThreadEventsOfCalls.

Context {ext : External} {root : Root}.

Abbreviation thread_post := (post (logs thread_event) any_failure).

Lemma scheduleRecrawl_thread : thread_post (scheduleRecrawl reason_root_replaced).
Proof. unfold scheduleRecrawl. repeat logs_step. reflexivity. Qed.

Lemma coll_add_thread (p : PendingChange) :
  pc_flags p = 0 \/ pc_flags p = W_PENDING_RECURSIVE -> thread_post (coll_add p).
Proof. intros H. unfold coll_add. repeat logs_step. exact H. Qed.

Lemma open_failed_thread (dir : w_string) (now : time_point) (syscall : string)
    (err : error_code) :
  syscall = "opendir"%string \/ syscall = "getFileInformation"%string ->
  thread_post (open_failed dir now syscall err).
Proof. intros H. unfold open_failed. repeat logs_step; [exact H | exact I]. Qed.

Lemma check_root_inode_thread (dir : w_string) (pending : PendingChange)
    (recursive : bool) : thread_post (check_root_inode dir pending recursive).
Proof.
  unfold check_root_inode. repeat logs_step;
    try apply scheduleRecrawl_thread.
  apply open_failed_thread. right. reflexivity.
Qed.

Lemma consider_cookie_thread (pending : PendingChange) :
  thread_post (consider_cookie pending).
Proof. unfold consider_cookie. repeat logs_step. Qed.

Lemma requeue_children_thread (dir : w_string) (now : time_point)
    (recursive : bool) (fs : list (w_string * watchman_file)) :
  thread_post (requeue_children dir now recursive fs).
Proof.
  induction fs as [| [name file] rest IH]; simpl.
  - logs_step.
  - logs_step; [| exact IH]. logs_step; [| logs_step].
    apply coll_add_thread. simpl. destruct recursive; auto.
Qed.

Section WithProcessPath.

Variable pp : PendingChange -> option DirEntry -> M unit.
Hypothesis pp_thread : forall p pre, thread_post (pp p pre).

Lemma crawl_entries_thread (dir : w_string) (pending : PendingChange)
    (recursive stat_all : bool) (entries : list DirEntry) :
  thread_post (crawl_entries pp dir pending recursive stat_all entries).
Proof.
  induction entries as [| dirent rest IH]; simpl.
  - logs_step.
  - logs_step; [| exact IH].
    unfold crawl_entry. repeat logs_step; apply pp_thread.
Qed.

Lemma crawler_thread (pending : PendingChange) : thread_post (crawler pp pending).
Proof.
  unfold crawler. logs_step; [logs_step |].
  logs_step.
  - logs_step; [apply check_root_inode_thread | logs_step].
  - logs_step; [| logs_step].
    logs_step.
    + intros s. destruct (startWatchDir (world s) (pc_path pending)) as [r w].
      apply logs_same. reflexivity.
    + logs_step; [apply open_failed_thread; left; reflexivity |].
      logs_step; [logs_step |].
      logs_step; [apply crawl_entries_thread |].
      logs_step.
      * logs_step; [apply coll_add_thread; left; reflexivity | logs_step].
      * logs_step; [logs_step | apply requeue_children_thread].
Qed.

End WithProcessPath.

Lemma processPath_thread (fuel : nat) :
  forall pending pre_stat, thread_post (processPath fuel pending pre_stat).
Proof.
  induction fuel as [| fuel IH]; intros pending pre_stat; simpl.
  - logs_step.
  - destruct (String.length root_path <=? String.length (pc_path pending))%nat
      eqn:Hlen; unfold w_assert.
    2:{ intros s. exact I. }
    apply Nat.leb_le in Hlen.
    logs_step; [logs_step |].
    destruct (isCookiePrefix (pc_path pending)) eqn:Hcookie.
    + logs_step; [apply consider_cookie_thread |].
      logs_step; [| logs_step]. apply emit_logs. split; assumption.
    + destruct (String.eqb (pc_path pending) root_path) eqn:Hroot; simpl.
      * apply crawler_thread, IH.
      * destruct (to_bool (Z.land (pc_flags pending) W_PENDING_CRAWL_ONLY)) eqn:Hcrawl.
        -- apply crawler_thread, IH.
        -- unfold call_statPath. repeat logs_step. repeat split; assumption.
Qed.

Lemma stopThreads_load_logs (P : Event -> Prop) (E : Failure -> Prop) :
  post (logs P) E stopThreads_load.
Proof.
  intros s. unfold stopThreads_load.
  destruct (stopIn s) as [[| n] |]; apply logs_same; reflexivity.
Qed.

Lemma lockShared_logs (P : Event -> Prop) (E : Failure -> Prop) :
  post (logs P) E lockShared.
Proof.
  intros s. unfold lockShared. destruct (env s); apply logs_same; reflexivity.
Qed.

Lemma process_items_thread (fuel : nat) (pending : list PendingChange) :
  forall d, thread_post (process_items fuel d pending).
Proof.
  induction pending as [| p next IH]; intros d; simpl.
  - logs_step.
  - logs_step; [| apply IH].
    unfold process_item. logs_step; [apply stopThreads_load_logs |].
    logs_step; [logs_step |].
    logs_step.
    + apply post_modify. intros s. eexists. split; [reflexivity |].
      constructor; [exact I | constructor].
    + logs_step; [apply processPath_thread | logs_step].
Qed.

Lemma processAllPending_thread (fuel : nat) : thread_post (processAllPending fuel).
Proof.
  assert (Hloop : forall n d all, thread_post (processAllPending_loop n d all)).
  { induction n as [| n IH]; intros d all; simpl.
    - logs_step.
    - logs_step; [logs_step |].
      logs_step; [logs_step |].
      logs_step; [logs_step |].
      logs_step.
      + repeat logs_step.
      + logs_step; [apply process_items_thread | apply IH]. }
  assert (Hsyncs : forall l, thread_post (resolve_syncs l)).
  { induction l as [| x l IH]; simpl.
    - logs_step.
    - logs_step; [apply emit_logs; exact I | exact IH]. }
  unfold processAllPending.
  logs_step; [apply Hloop |]. logs_step; [apply Hsyncs | logs_step].
Qed.

Lemma fullCrawl_thread (fuel : nat) : thread_post (fullCrawl fuel).
Proof.
  assert (Hloop : forall n, thread_post (fullCrawl_loop n)).
  { induction n as [| n IH]; simpl.
    - logs_step.
    - logs_step; [apply lockShared_logs |].
      logs_step; [unfold stealIntoLocal; logs_step |].
      logs_step; [logs_step |].
      logs_step; [logs_step |].
      logs_step; [apply processAllPending_thread | exact IH]. }
  unfold fullCrawl.
  logs_step; [logs_step |].
  logs_step; [logs_step |].
  logs_step; [apply lockShared_logs |].
  logs_step; [logs_step |].
  logs_step; [apply Hloop |].
  repeat logs_step; exact I.
Qed.

Lemma stepIoThread_thread (fuel : nat) : thread_post (stepIoThread fuel).
Proof.
  unfold stepIoThread.
  logs_step; [apply stopThreads_load_logs |].
  logs_step; [logs_step |].
  logs_step.
  - unfold step_wait.
    logs_step; [logs_step |].
    logs_step.
    + logs_step; [| logs_step].
      logs_step; [apply fullCrawl_thread | logs_step].
    + logs_step; [logs_step |].
      logs_step; [apply emit_logs; exact I |].
      logs_step; [apply lockShared_logs |].
      logs_step; [unfold stealIntoLocal; logs_step | logs_step].
  - logs_step; [unfold handleShouldRecrawl; repeat logs_step |].
    logs_step.
    + logs_step; [apply fullCrawl_thread |]. repeat logs_step.
    + logs_step; [logs_step |].
      logs_step.
      * unfold step_settle, doSettleThings, double_timeout.
        repeat logs_step; exact I.
      * unfold step_process.
        logs_step; [logs_step |].
        logs_step; [logs_step |].
        logs_step; [repeat logs_step |].
        logs_step; [logs_step |].
        logs_step; [apply processAllPending_thread |].
        repeat logs_step. exact I.
Qed.

End ThreadEventsOfCalls.

Ltac run_inv H :=
  bind_inv H;
  try match goal with
      | E : modify _ _ = Ok _ |- _ => unfold modify in E; inversion E; subst; clear E
      | E : gets _ _ = Ok _ |- _ => unfold gets in E; inversion E; subst; clear E
      | E : ret _ _ = Ok _ |- _ => unfold ret in E; inversion E; subst; clear E
      | E : emit _ _ = Ok _ |- _ =>
          unfold emit, modify in E; inversion E; subst; clear E
      end.

Section ThreadInvariants.

Context {ext : External} {root : Root}.

Lemma step_thread_events (fuel : nat) (s : State) (c : Continue) (s' : State)
    (new : list Event) :
  stepIoThread fuel s = Ok (c, s') -> log s' = log s ++ new ->
  Forall thread_event new.
Proof.
  intros Hstep Hlog.
  pose proof (stepIoThread_thread fuel s) as H. rewrite Hstep in H.
  destruct H as (new' & Hl & Hf).
  rewrite Hlog in Hl. apply app_inv_head in Hl. subst new'. exact Hf.
Qed.

(** X1.  In no step of the thread is [statPath] called for a cookie
    path, for the root path or for a CRAWL_ONLY item, and the path it
    gets is never shorter than the root path. *)
Theorem statPath_never_for_root (fuel : nat) (s : State) (c : Continue)
    (s' : State) (new : list Event) (p : PendingChange) (pre_stat : option DirEntry) :
  stepIoThread fuel s = Ok (c, s') -> log s' = log s ++ new ->
  In (EvStatPath p pre_stat) new ->
  isCookiePrefix (pc_path p) = false
  /\ String.eqb (pc_path p) root_path = false
  /\ to_bool (Z.land (pc_flags p) W_PENDING_CRAWL_ONLY) = false
  /\ (String.length root_path <= String.length (pc_path p))%nat.
Proof.
  intros Hstep Hlog Hin.
  pose proof (step_thread_events _ _ _ _ _ Hstep Hlog) as Hf.
  rewrite Forall_forall in Hf. apply Hf in Hin. exact Hin.
Qed.

(** X2.  In no step of the thread is CookieSync notified of a path that
    is not a cookie prefix. *)
Theorem notifyCookie_only_cookies (fuel : nat) (s : State) (c : Continue)
    (s' : State) (new : list Event) (path : w_string) :
  stepIoThread fuel s = Ok (c, s') -> log s' = log s ++ new ->
  In (EvNotifyCookie path) new ->
  isCookiePrefix path = true
  /\ (String.length root_path <= String.length path)%nat.
Proof.
  intros Hstep Hlog Hin.
  pose proof (step_thread_events _ _ _ _ _ Hstep Hlog) as Hf.
  rewrite Forall_forall in Hf. apply Hf in Hin. exact Hin.
Qed.

(** X3.  Whatever [crawler] itself adds to the batch in a step carries
    no flag, or RECURSIVE alone: a re-queued path is never marked
    VIA_NOTIFY, CRAWL_ONLY or IS_DESYNCED; and the one reason the
    thread schedules a recrawl for is the replacement of the root. *)
Theorem crawler_adds_plain_items (fuel : nat) (s : State) (c : Continue)
    (s' : State) (new : list Event) :
  stepIoThread fuel s = Ok (c, s') -> log s' = log s ++ new ->
  (forall p, In (EvPendingAdd p) new ->
             pc_flags p = 0 \/ pc_flags p = W_PENDING_RECURSIVE)
  /\ (forall why, In (EvScheduleRecrawl why) new -> why = reason_root_replaced).
Proof.
  intros Hstep Hlog.
  pose proof (step_thread_events _ _ _ _ _ Hstep Hlog) as Hf.
  rewrite Forall_forall in Hf.
  split; intros x Hin; apply Hf in Hin; exact Hin.
Qed.

End ThreadInvariants.

(** ** Becoming ready to query *)

Section Ready.

Context {ext : External} {root : Root}.

Lemma fullCrawl_loop_drained (fuel : nat) (s s' : State) (u : unit) :
  fullCrawl_loop fuel s = Ok (u, s') -> pendingFromWatcher s' = coll_nil.
Proof.
  revert s. induction fuel as [| fuel IH]; intros s H; simpl in H.
  - discriminate.
  - bind_inv H. bind_inv H. bind_inv H.
    unfold gets in E1. injection E1 as <- <-.
    unfold stealIntoLocal, modify in E0. injection E0 as <-.
    destruct (coll_empty (localPending s1)) eqn:Hempty.
    + unfold ret in H. injection H as <- <-. subst s1. reflexivity.
    + bind_inv H. eapply IH. exact H.
Qed.

Lemma pass_events_not_ready (t : ClockTicks) (new : list Event) :
  Forall (pass_event t) new -> filter is_ready_event new = [].
Proof.
  induction 1 as [| e l He Hl IH]; [reflexivity |].
  simpl. rewrite IH. destruct e; simpl in *; try reflexivity; contradiction.
Qed.

Lemma fullCrawl_shape (fuel : nat) (s : State) (u : unit) (s' : State) :
  fullCrawl fuel s = Ok (u, s') ->
  crawlPromise s' = false
  /\ pendingFromWatcher s' = coll_nil
  /\ exists new,
       log s' =
         log s ++ new ++ (if crawlPromise s then [EvReadyToQuery] else [])
               ++ [EvAbortAllCookies]
       /\ Forall (pass_event (mostRecentTick s')) new.
Proof.
  unfold fullCrawl.
  unfold bind at 1. simpl. unfold bind at 1. simpl. unfold bind at 1.
  destruct (lockShared_ok (set_mostRecentTick (fetch_add_1 (mostRecentTick s)) s))
    as (pinged & s1 & Hlock).
  pose proof (lockShared_pass (set_mostRecentTick (fetch_add_1 (mostRecentTick s)) s))
    as Hf1.
  rewrite Hlock in *. unfold bind at 1. simpl. unfold bind at 1.
  match goal with |- context [fullCrawl_loop fuel ?x] => set (s2 := x) end.
  assert (Hf2 : pass_frame s1 s2) by (subst s2; pass_set).
  pose proof (fullCrawl_loop_pass fuel s2) as Hf3.
  destruct (fullCrawl_loop fuel s2) as [[u3 s3] | e] eqn:Hloop; [| discriminate].
  pose proof (fullCrawl_loop_drained _ _ _ _ Hloop) as Hdrained.
  pose proof (pass_frame_trans _ _ _ Hf1 (pass_frame_trans _ _ _ Hf2 Hf3)) as Hf.
  destruct Hf as [h1 h2 h3 h4 h5 h6 h7 (new & hl & hf)]. simpl in *.
  unfold bind at 1. simpl. unfold bind at 1. simpl.
  rewrite <- h3.
  destruct (crawlPromise s3) eqn:Hpromise; simpl; intros H; injection H as _ <-; simpl.
  - split; [reflexivity | split; [exact Hdrained |]].
    exists new. split.
    + rewrite hl. rewrite <- !app_assoc. reflexivity.
    + rewrite h4. exact hf.
  - split; [exact Hpromise | split; [exact Hdrained |]].
    exists new. split.
    + rewrite hl. rewrite <- !app_assoc. reflexivity.
    + rewrite h4. exact hf.
Qed.

(** X4.  A full crawl that returns has set [done_initial], cleared
    [shouldRecrawl] (also when [crawler] asked for a recrawl during
    this very crawl: a root replacement detected in it is forgotten),
    reset the ready promise and emptied the local batch.  What it did
    is, in this order: its passes, all at the new tick; then at most
    one fulfilment of the ready promise, and certainly one when a
    promise was waiting as the crawl began; then, last of all, the
    abort of the cookies. *)
Theorem fullCrawl_leaves_root_ready (fuel : nat) (s : State) (u : unit)
    (s' : State) :
  fullCrawl fuel s = Ok (u, s') ->
  done_initial s' = true /\ shouldRecrawl s' = false /\ crawlPromise s' = false
  /\ localPending s' = coll_nil
  /\ exists new ready,
       log s' = log s ++ new ++ ready ++ [EvAbortAllCookies]
       /\ Forall (pass_event (mostRecentTick s')) new
       /\ (ready = [] \/ ready = [EvReadyToQuery])
       /\ (crawlPromise s = true -> ready = [EvReadyToQuery]).
Proof.
  intros H.
  pose proof (fullCrawl_crawled fuel s) as Hc. rewrite H in Hc.
  destruct (fullCrawl_shape _ _ _ _ H) as (Hp & _ & (new & Hl & Hf)).
  split; [exact (cr_done_initial _ _ Hc) |].
  split; [exact (cr_shouldRecrawl _ _ Hc) |].
  split; [exact Hp |].
  split; [apply coll_empty_nil; exact (cr_local _ _ Hc) |].
  exists new, (if crawlPromise s then [EvReadyToQuery] else []).
  split; [exact Hl | split; [exact Hf | split]].
  - destruct (crawlPromise s); auto.
  - intros ->. reflexivity.
Qed.

(** X5.  While the root is not ready (the crawl is not done, or a
    recrawl is pending) every caller of [waitUntilReadyToQuery] gets
    the one shared future: the first call makes the promise, a second
    call finds it and changes nothing.  When the root is ready and no
    promise is waiting the caller gets a satisfied future and nothing
    changes. *)
Theorem waitUntilReadyToQuery_shares (valid : bool) (s : State) :
  (done_initial s && negb (shouldRecrawl s) = false ->
   exists s1,
     waitUntilReadyToQuery valid s = Ok ((SharedFuture, true), s1)
     /\ crawlPromise s1 = true
     /\ (s1 = s \/ s1 = set_crawlPromise true s)
     /\ waitUntilReadyToQuery true s1 = Ok ((SharedFuture, true), s1))
  /\ (done_initial s && negb (shouldRecrawl s) = true ->
      crawlPromise s = false ->
      waitUntilReadyToQuery valid s = Ok ((SatisfiedFuture, valid), s)).
Proof.
  split.
  - intros Hnot. cbv [waitUntilReadyToQuery bind gets modify ret].
    destruct (crawlPromise s && valid) eqn:Hpv.
    + apply andb_true_iff in Hpv. destruct Hpv as [Hp ->].
      exists s. rewrite Hp. simpl. auto.
    + exists (set_crawlPromise true s). rewrite Hnot. simpl. auto.
  - intros Hready Hp. cbv [waitUntilReadyToQuery bind gets modify ret].
    rewrite Hp. cbn [andb]. rewrite Hready. reflexivity.
Qed.

(** X6.  The shared future a caller was handed is fulfilled exactly once
    by the full crawl that follows, and a caller that asks after that
    crawl gets a satisfied future, with nothing changed. *)
Theorem shared_future_fulfilled_once (valid : bool) (fuel : nat) (s s1 s2 : State)
    (v : bool) (u : unit) (new : list Event) :
  waitUntilReadyToQuery valid s = Ok ((SharedFuture, v), s1) ->
  fullCrawl fuel s1 = Ok (u, s2) ->
  log s2 = log s1 ++ new ->
  List.length (filter is_ready_event new) = 1%nat
  /\ waitUntilReadyToQuery v s2 = Ok ((SatisfiedFuture, v), s2).
Proof.
  intros Hwait Hcrawl Hlog.
  assert (Hp1 : crawlPromise s1 = true).
  { cbv [waitUntilReadyToQuery bind gets modify ret] in Hwait.
    destruct (crawlPromise s && valid) eqn:Hpv.
    - injection Hwait as _ <-. apply andb_true_iff in Hpv. tauto.
    - destruct (done_initial s && negb (shouldRecrawl s)); [discriminate |].
      injection Hwait as _ <-. reflexivity. }
  pose proof (fullCrawl_crawled fuel s1) as Hc. rewrite Hcrawl in Hc.
  destruct (fullCrawl_shape _ _ _ _ Hcrawl) as (Hp2 & _ & (new0 & Hl & Hf)).
  rewrite Hp1 in Hl. rewrite Hlog in Hl. apply app_inv_head in Hl. subst new.
  split.
  - rewrite !filter_app, (pass_events_not_ready _ _ Hf). reflexivity.
  - cbv [waitUntilReadyToQuery bind gets modify ret].
    rewrite Hp2. cbn [andb].
    rewrite (cr_done_initial _ _ Hc), (cr_shouldRecrawl _ _ Hc). reflexivity.
Qed.

(** X7.  A client-mode crawl that returns leaves the root ready; it never
    waits on the shared queue and never announces that the root has
    settled. *)
Theorem clientModeCrawl_does_not_settle (fuel : nat) (s : State) (u : unit)
    (s' : State) (new : list Event) :
  clientModeCrawl fuel s = Ok (u, s') -> log s' = log s ++ new ->
  done_initial s' = true /\ shouldRecrawl s' = false
  /\ ~ In EvSettled new
  /\ (forall timeout, ~ In (EvLockAndWait timeout) new).
Proof.
  intros H Hlog. unfold clientModeCrawl in H. run_inv H.
  pose proof (fullCrawl_crawled fuel (set_localPending coll_nil s)) as Hc.
  rewrite H in Hc.
  destruct (cr_log _ _ Hc) as (new' & Hl & Hf). simpl in Hl.
  rewrite Hlog in Hl. apply app_inv_head in Hl. subst new'.
  rewrite Forall_forall in Hf.
  split; [exact (cr_done_initial _ _ Hc) | split; [exact (cr_shouldRecrawl _ _ Hc) |]].
  split.
  - intros Hin. exact (Hf _ Hin).
  - intros timeout Hin. exact (Hf _ Hin).
Qed.

End Ready.

(** ** Why the thread stops, and what a step leaves *)

Section Stopping.

Context {ext : External} {root : Root}.

Lemma stopThreads_load_up (s s0 : State) :
  stopThreads_load s = Ok (true, s0) -> stopIn s = Some O.
Proof.
  unfold stopThreads_load. intros H.
  destruct (stopIn s) as [[| n] |]; congruence.
Qed.

Lemma stopThreads_load_count (s s0 : State) (b : bool) :
  stopThreads_load s = Ok (b, s0) -> recrawlCount s0 = recrawlCount s.
Proof.
  unfold stopThreads_load. intros H.
  destruct (stopIn s) as [[| n] |]; injection H as <- <-; reflexivity.
Qed.

Lemma step_settle_stop (s s' : State) :
  step_settle s = Ok (Stop, s') ->
  done_initial s = true /\ considerReap (world s) = true
  /\ s' = set_log (log s ++ reap_events) s.
Proof.
  intros H. unfold step_settle in H. bind_inv H. destruct a.
  - unfold ret in H. injection H as <-.
    unfold doSettleThings, bind, gets, emit, modify, ret in E. simpl in E.
    destruct (done_initial s); simpl in E; [| discriminate].
    destruct (considerReap (world s)); simpl in E.
    + injection E as <-. repeat split. unfold set_log. simpl.
      rewrite <- !app_assoc. reflexivity.
    + destruct (considerAgeOut (world s) (view s)); discriminate.
  - run_inv H. bind_inv H. run_inv H. discriminate.
Qed.

Lemma step_process_continues (fuel : nat) (s : State) (c : Continue) (s' : State) :
  step_process fuel s = Ok (c, s') -> c = ContinueLoop.
Proof.
  intros H.
  pose proof (step_process_spec fuel s (step_process_ok_done _ _ _ _ H)) as Hp.
  rewrite H in Hp. tauto.
Qed.

Lemma stepIoThread_stop_inv (fuel : nat) (s s' : State) :
  stepIoThread fuel s = Ok (Stop, s') ->
  (stopIn s = Some O /\ s' = s)
  \/ (exists s0 s1,
        stopThreads_load s = Ok (false, s0)
        /\ step_wait fuel s0 = Ok (false, s1)
        /\ shouldRecrawl s1 = false
        /\ coll_empty (localPending s1) = true
        /\ considerReap (world s1) = true
        /\ s' = set_log (log s1 ++ reap_events) s1).
Proof.
  intros Hstep. apply stepIoThread_paths in Hstep.
  destruct Hstep as [Hstop Hc Hs
                    | s0 pinged s1 s2 s3 Hstop Hwait Hsr Hrecrawl Hcrawl Hs Hc
                    | s0 s1 Hstop Hwait Hsr Hempty Hsettle
                    | s0 pinged s1 Hstop Hwait Hsr Hcond Hproc].
  - left. split; [exact (stopThreads_load_up _ _ Hstop) | exact Hs].
  - discriminate.
  - right. destruct (step_settle_stop _ _ Hsettle) as (_ & Hreap & Hs).
    exists s0, s1. auto 10.
  - apply step_process_continues in Hproc. discriminate.
Qed.

(** X8.  A step tells the thread to stop in two cases only.  Either the
    stop flag was up when the step began, and the step did nothing at
    all; or the wait timed out with nothing to do and no recrawl asked
    for, [considerReap] said the idle root is to be reaped, and the
    step ended by warming the cache, announcing the settle and stopping
    the watch, in that order. *)
Theorem step_stops_by_flag_or_reap (fuel : nat) (s s' : State) :
  stepIoThread fuel s = Ok (Stop, s') ->
  (stopIn s = Some O /\ s' = s)
  \/ (exists s0 s1,
        stopThreads_load s = Ok (false, s0)
        /\ step_wait fuel s0 = Ok (false, s1)
        /\ shouldRecrawl s1 = false
        /\ coll_empty (localPending s1) = true
        /\ considerReap (world s1) = true
        /\ s' = set_log (log s1 ++ [EvWarmContentCache; EvSettled; EvStopWatch]) s1).
Proof. exact (stepIoThread_stop_inv fuel s s'). Qed.

Lemma ioThread_loop_returns (steps fuel : nat) (s : State) (u : unit) (s' : State) :
  ioThread_loop steps fuel s = Ok (u, s') ->
  stopIn s' = Some O \/ exists l, log s' = l ++ reap_events.
Proof.
  revert s. induction steps as [| steps IH]; intros s H; simpl in H.
  - discriminate.
  - bind_inv H. destruct a.
    + unfold ret in H. injection H as Hs. subst s'.
      destruct (stepIoThread_stop_inv _ _ _ E)
        as [[Hup ->] | (s1 & s2 & _ & _ & _ & _ & _ & ->)].
      * left. exact Hup.
      * right. exists (log s2). reflexivity.
    + exact (IH _ H).
Qed.

(** X9.  The thread returns only once the stop flag is up or once the
    idle root has been reaped: in the second case stopping the watch is
    the last thing it did, right after announcing the settle. *)
Theorem ioThread_returns_by_flag_or_reap (steps fuel : nat) (s : State) (u : unit)
    (s' : State) :
  ioThread steps fuel s = Ok (u, s') ->
  stopIn s' = Some O
  \/ exists l, log s' = l ++ [EvWarmContentCache; EvSettled; EvStopWatch].
Proof.
  intros H. unfold ioThread in H. run_inv H.
  exact (ioThread_loop_returns _ _ _ _ _ H).
Qed.

Lemma step_wait_count (fuel : nat) (s : State) :
  match step_wait fuel s with
  | Ok (_, s') => recrawlCount s' = recrawlCount s
  | Err _ => True
  end.
Proof.
  unfold step_wait. unfold bind at 1. simpl.
  destruct (done_initial s) eqn:Hdi; simpl.
  - unfold bind at 1. simpl.
    match goal with |- match ?m s with _ => _ end =>
      pose proof (step_wait_tail_frame any_failure s) as Ht;
      change (match m s with
              | Ok (_, s') => recrawlCount s' = recrawlCount s
              | Err _ => True end)
    end.
    match type of Ht with match ?m with _ => _ end =>
      destruct m as [[pinged s1] | e]; [| exact I] end.
    exact (fr_recrawlCount _ _ _ Ht).
  - unfold bind at 1. unfold bind at 1.
    pose proof (fullCrawl_crawled fuel s) as Hc.
    destruct (fullCrawl fuel s) as [[u s1] | e]; [| exact I].
    simpl.
    match goal with |- match ?m ?x with _ => _ end =>
      pose proof (step_wait_tail_frame any_failure x) as Ht;
      change (match m x with
              | Ok (_, s') => recrawlCount s' = recrawlCount s
              | Err _ => True end)
    end.
    match type of Ht with match ?m with _ => _ end =>
      destruct m as [[pinged s2] | e]; [| exact I] end.
    rewrite (fr_recrawlCount _ _ _ Ht). simpl. exact (cr_recrawlCount _ _ Hc).
Qed.

Lemma step_process_count (fuel : nat) (s : State) :
  match step_process fuel s with
  | Ok (_, s') => recrawlCount s' = recrawlCount s
  | Err _ => True
  end.
Proof.
  unfold step_process. unfold bind at 1. simpl.
  unfold bind at 1. simpl. unfold bind at 1.
  destruct (done_initial s); simpl; [| exact I].
  unfold bind at 1. simpl. unfold bind at 1.
  match goal with |- context [processAllPending fuel ?x] => set (s1 := x) end.
  pose proof (processAllPending_pass fuel s1) as Hp.
  destruct (processAllPending fuel s1) as [[d s2] | e]; [| exact I].
  destruct Hp as [h1 h2 h3 h4 h5 h6 h7 hl]. subst s1. simpl in *.
  destruct d; simpl; exact h2.
Qed.

Lemma stepIoThread_ready_count (fuel : nat) (s : State) (c : Continue) (s' : State) :
  stepIoThread fuel s = Ok (c, s') ->
  (stopIn s = Some O /\ s' = s)
  \/ (done_initial s' = true
      /\ exists s0 pinged s1,
           stopThreads_load s = Ok (false, s0)
           /\ step_wait fuel s0 = Ok (pinged, s1)
           /\ recrawlCount s' =
                if shouldRecrawl s1 && negb (cancelled s1)
                then (recrawlCount s + 1) mod recrawl_modulus
                else recrawlCount s).
Proof.
  intros Hstep. apply stepIoThread_paths in Hstep.
  destruct Hstep as [Hstop Hc Hs
                    | s0 pinged s1 s2 s3 Hstop Hwait Hsr Hrecrawl Hcrawl Hs Hc
                    | s0 s1 Hstop Hwait Hsr Hempty Hsettle
                    | s0 pinged s1 Hstop Hwait Hsr Hcond Hproc].
  - left. split; [exact (stopThreads_load_up _ _ Hstop) | exact Hs].
  - right.
    pose proof (stopThreads_load_count _ _ _ Hstop) as Hc0.
    pose proof (step_wait_count fuel s0) as Hc1. rewrite Hwait in Hc1.
    pose proof (fullCrawl_crawled fuel s2) as Hcr. rewrite Hcrawl in Hcr.
    rewrite handleShouldRecrawl_eq, Hsr in Hrecrawl.
    split; [subst s'; exact (cr_done_initial _ _ Hcr) |].
    exists s0, pinged, s1. split; [exact Hstop | split; [exact Hwait |]].
    subst s'. simpl. rewrite (cr_recrawlCount _ _ Hcr), Hsr.
    injection Hrecrawl as <-.
    destruct (cancelled s1); simpl; congruence.
  - right.
    pose proof (stopThreads_load_count _ _ _ Hstop) as Hc0.
    pose proof (step_wait_count fuel s0) as Hc1. rewrite Hwait in Hc1.
    pose proof (step_wait_waited fuel s0) as Hw. rewrite Hwait in Hw.
    pose proof (step_settle_spec s1) as Hs. rewrite Hsettle in Hs.
    destruct Hs as (Hf & _).
    split.
    + rewrite (fr_done_initial _ _ _ Hf). exact (wt_done_initial _ _ Hw).
    + exists s0, false, s1. split; [exact Hstop | split; [exact Hwait |]].
      rewrite Hsr. simpl. rewrite (fr_recrawlCount _ _ _ Hf). simpl. congruence.
  - right.
    pose proof (stopThreads_load_count _ _ _ Hstop) as Hc0.
    pose proof (step_wait_count fuel s0) as Hc1. rewrite Hwait in Hc1.
    pose proof (step_wait_waited fuel s0) as Hw. rewrite Hwait in Hw.
    pose proof (step_process_spec fuel s1 (wt_done_initial _ _ Hw)) as Hp.
    rewrite Hproc in Hp. destruct Hp as [_ Hp].
    pose proof (step_process_count fuel s1) as Hc2. rewrite Hproc in Hc2.
    split; [exact (pr_done_initial _ _ Hp) |].
    exists s0, pinged, s1. split; [exact Hstop | split; [exact Hwait |]].
    rewrite Hsr. simpl. congruence.
Qed.

(** X10.  A step that does anything at all leaves the root crawled
    ([done_initial] is true when it returns), whichever way it went.
    It adds one to [recrawlCount], modulo 2^32, exactly when a recrawl
    was asked for by the time the wait ended and the root was not
    cancelled; in every other case the count is what it was. *)
Theorem step_leaves_root_crawled (fuel : nat) (s : State) (c : Continue)
    (s' : State) :
  stepIoThread fuel s = Ok (c, s') ->
  stopIn s <> Some O ->
  done_initial s' = true
  /\ exists s0 pinged s1,
       stopThreads_load s = Ok (false, s0)
       /\ step_wait fuel s0 = Ok (pinged, s1)
       /\ recrawlCount s' =
            if shouldRecrawl s1 && negb (cancelled s1)
            then (recrawlCount s + 1) mod recrawl_modulus
            else recrawlCount s.
Proof.
  intros Hstep Hup.
  destruct (stepIoThread_ready_count _ _ _ _ Hstep) as [[Hs _] | H].
  - contradiction.
  - exact H.
Qed.

Lemma process_items_stopped (fuel : nat) (d : IsDesynced)
    (pending : list PendingChange) (s : State) :
  stopIn s = Some O -> process_items fuel d pending s = Ok (d, s).
Proof.
  intros Hup. induction pending as [| p next IH]; simpl; [reflexivity |].
  unfold bind at 1. unfold process_item. unfold bind at 1.
  unfold stopThreads_load at 1. rewrite Hup. simpl. exact IH.
Qed.

(** X11.  With the stop flag up, a pass still walks the whole batch but
    hands no item to [processPath]: the items are dropped, the state
    of the view is untouched, the sync promises the batch held are
    resolved all the same, in order, and the answer is that nothing
    was desynced. *)
Theorem processAllPending_when_stopped (fuel : nat) (s : State) :
  stopIn s = Some O ->
  processAllPending (S (S fuel)) s =
    Ok (DesyncedNo,
        set_log (log s ++ map EvSyncSetValue (coll_syncs (localPending s)))
          (set_localPending coll_nil s)).
Proof.
  intros Hup. unfold processAllPending.
  assert (Hloop :
    processAllPending_loop (S (S fuel)) DesyncedNo [] s =
      Ok ((DesyncedNo,
           match coll_syncs (localPending s) with
           | [] => []
           | _ => [coll_syncs (localPending s)]
           end), set_localPending coll_nil s)).
  { cbn [processAllPending_loop]. unfold bind at 1. unfold gets at 1. cbv beta iota.
    destruct (coll_empty (localPending s)) eqn:Hempty.
    - apply coll_empty_nil in Hempty. unfold ret. rewrite Hempty.
      destruct s; simpl in *. subst. reflexivity.
    - unfold bind at 1. unfold modify at 1. cbv beta iota.
      unfold coll_empty in Hempty.
      destruct (localPending s) as [items syncs] eqn:Hcoll. simpl in *.
      destruct syncs as [| sync syncs].
      + destruct items as [| item items]; [discriminate |].
        unfold bind at 1. unfold bind at 1. unfold w_check, ret at 1. cbv beta iota.
        unfold ret at 1. cbv beta iota.
        unfold bind at 1. rewrite process_items_stopped by exact Hup.
        unfold bind at 1. unfold gets at 1. reflexivity.
      + unfold bind at 1. unfold ret at 1. cbv beta iota.
        unfold bind at 1. rewrite process_items_stopped by exact Hup.
        unfold bind at 1. unfold gets at 1. reflexivity. }
  unfold bind at 1. rewrite Hloop. cbv beta iota.
  unfold bind at 1. rewrite resolve_syncs_eq. unfold ret. simpl.
  destruct (coll_syncs (localPending s)); simpl; rewrite ?app_nil_r; reflexivity.
Qed.

End Stopping.

(** ** What a crawl does with the root and with the entries it reads *)

Section CrawlCases.

Context {ext : External} {root : Root}.

Lemma rootInode_resolveDir (v : ViewDatabase) (p : w_string) :
  rootInode (resolveDir v p) = rootInode v.
Proof. unfold resolveDir. destruct (assoc p (dirs v)); reflexivity. Qed.

(** X12.  When [crawler] is handed the root and finds there an inode
    other than the one it recorded (and it had recorded one), it asks
    for a recrawl and returns at once: [shouldRecrawl] is set, the
    directory is not opened, nothing is listed, statted or re-queued,
    and the recorded inode is left as it was. *)
Theorem crawler_root_replaced (pp : PendingChange -> option DirEntry -> M unit)
    (pending : PendingChange) (s : State) (ino : Z) :
  String.eqb (pc_path pending) root_path = true ->
  getFileInformation (world s) (pc_path pending) case_sensitive = inr ino ->
  ino <> rootInode (view s) ->
  rootInode (view s) <> 0 ->
  exists s',
    crawler pp pending s = Ok (tt, s')
    /\ s' = set_shouldRecrawl true
              (set_log (log s ++ [EvScheduleRecrawl reason_root_replaced])
                 (set_view (resolveDir (view s) (pc_path pending)) s))
    /\ rootInode (view s') = rootInode (view s).
Proof.
  intros Hroot Hinfo Hino Hset.
  eexists. split; [| split; [reflexivity |]].
  - unfold crawler. unfold bind at 1. unfold modify at 1. cbv beta iota.
    rewrite Hroot. unfold bind at 1. unfold check_root_inode.
    unfold bind at 1. unfold gets at 1. cbv beta iota. cbn [world set_view].
    rewrite Hinfo. unfold bind at 1. unfold gets at 1. cbv beta iota.
    cbn [view set_view]. rewrite rootInode_resolveDir.
    destruct (Z.eqb_spec ino (rootInode (view s))); [contradiction |].
    destruct (Z.eqb_spec (rootInode (view s)) 0); [contradiction |].
    reflexivity.
  - simpl. apply rootInode_resolveDir.
Qed.

Lemma flags_with_recursive (f other : PendingFlags) :
  Z.land W_PENDING_RECURSIVE other = 0 ->
  Z.land (set_flag f W_PENDING_RECURSIVE) other = Z.land f other.
Proof.
  intros H. unfold set_flag. rewrite Z.land_lor_distr_l, H, Z.lor_0_r. reflexivity.
Qed.

Lemma crawl_entries_same_parent (pp : PendingChange -> option DirEntry -> M unit)
    (dir : w_string) (p q : PendingChange) (recursive stat_all : bool)
    (entries : list DirEntry) :
  pc_now p = pc_now q ->
  Z.land (pc_flags p) W_PENDING_IS_DESYNCED = Z.land (pc_flags q) W_PENDING_IS_DESYNCED ->
  crawl_entries pp dir p recursive stat_all entries
  = crawl_entries pp dir q recursive stat_all entries.
Proof.
  intros Hnow Hflags. induction entries as [| e rest IH]; simpl; [reflexivity |].
  rewrite IH. unfold crawl_entry. rewrite Hnow, Hflags. reflexivity.
Qed.

(** X13.  The first crawl of the root (the view has recorded no inode
    yet, and the root has one) goes on exactly as if the item had
    carried RECURSIVE, whether it did or not: same calls, same state,
    same result. *)
Theorem crawler_first_root_crawl (pp : PendingChange -> option DirEntry -> M unit)
    (pending : PendingChange) (s : State) (ino : Z) :
  String.eqb (pc_path pending) root_path = true ->
  getFileInformation (world s) (pc_path pending) case_sensitive = inr ino ->
  rootInode (view s) = 0 ->
  ino <> 0 ->
  crawler pp pending s
  = crawler pp
      (mkPending (pc_path pending) (pc_now pending)
         (set_flag (pc_flags pending) W_PENDING_RECURSIVE)) s.
Proof.
  intros Hroot Hinfo Hzero Hino.
  assert (Hcheck : forall q recursive,
    pc_path q = pc_path pending ->
    check_root_inode (pc_path pending) q recursive
      (set_view (resolveDir (view s) (pc_path pending)) s)
    = Ok (Some true,
          set_view (setRootInode (resolveDir (view s) (pc_path pending)) ino)
            (set_view (resolveDir (view s) (pc_path pending)) s))).
  { intros q recursive Hq. unfold check_root_inode.
    unfold bind at 1. unfold gets at 1. cbv beta iota. cbn [world set_view].
    rewrite Hq, Hinfo. unfold bind at 1. unfold gets at 1. cbv beta iota.
    cbn [view set_view]. rewrite rootInode_resolveDir, Hzero.
    destruct (Z.eqb_spec ino 0); [contradiction |]. reflexivity. }
  unfold crawler. cbn [pc_path pc_now pc_flags].
  unfold bind at 1. unfold modify at 1. cbv beta iota.
  symmetry. unfold bind at 1. unfold modify at 1. cbv beta iota. symmetry.
  rewrite Hroot.
  unfold bind at 1. rewrite Hcheck by reflexivity. cbv beta iota.
  symmetry. unfold bind at 1. rewrite Hcheck by reflexivity. cbv beta iota.
  symmetry.
  unfold bind at 1. symmetry. unfold bind at 1. symmetry.
  match goal with
  | |- match ?m with _ => _ end = _ => destruct m as [[[err | osdir] s1] | e]
  end; try reflexivity.
  unfold contains.
  rewrite (flags_with_recursive (pc_flags pending) W_PENDING_NONRECURSIVE_SCAN)
    by reflexivity.
  rewrite (crawl_entries_same_parent pp (pc_path pending) pending
             (mkPending (pc_path pending) (pc_now pending)
                (set_flag (pc_flags pending) W_PENDING_RECURSIVE)));
    [reflexivity | reflexivity |].
  simpl. symmetry. apply flags_with_recursive. reflexivity.
Qed.

(** X14.  A cookie that [crawler] comes across while listing a
    directory is never statted: at most its [maybe_deleted] mark is
    cleared, when the view holds it.  It is notified in these cases
    only: the entry is looked at (the view does not hold it as
    existing, or the crawl is recursive or stats everything), and
    then, with a watcher that notifies per file, the initial crawl is
    not yet done; with another watcher, the directory is not being
    crawled because of a desync.  In every other case nothing is
    notified. *)
Theorem crawled_cookie_entry (fuel : nat) (dir : w_string) (pending : PendingChange)
    (recursive stat_all : bool) (dirent : DirEntry) (s : State)
    (file : option watchman_file) :
  is_dot_or_dotdot (d_name dirent) = false ->
  (String.length root_path <= String.length dir)%nat ->
  isCookiePrefix (getFullPathToChild dir (d_name dirent)) = true ->
  assoc (d_name dirent) (dir_files (view s) dir) = file ->
  crawl_entry (processPath (S fuel)) dir pending recursive stat_all dirent s =
    Ok (tt,
        let absent := match file with Some f => negb (f_exists f) | None => true end in
        let s1 :=
          match file with
          | Some _ =>
              set_view (update_dir (view s) dir (clear_maybe_deleted (d_name dirent))) s
          | None => s
          end in
        if (absent || stat_all || recursive)
           && (if to_bool (Z.land watcher_flags WATCHER_HAS_PER_FILE_NOTIFICATIONS)
               then negb (done_initial s)
               else negb (to_bool (Z.land (pc_flags pending) W_PENDING_IS_DESYNCED)))
        then set_log
               (log s1 ++ [EvNotifyCookie (getFullPathToChild dir (d_name dirent))]) s1
        else s1).
Proof.
  intros Hdot Hlen Hcookie Hfile.
  pose proof (child_longer dir (d_name dirent)) as Hchild.
  assert (Hlenb :
    (String.length root_path
       <=? String.length (getFullPathToChild dir (d_name dirent)))%nat = true)
    by (apply Nat.leb_le; lia).
  cbv zeta.
  set (s1 := match file with
             | Some _ => set_view _ s
             | None => s
             end).
  assert (Hs1 :
    match file with
    | Some _ =>
        modify (fun s0 =>
          set_view (update_dir (view s0) dir (clear_maybe_deleted (d_name dirent))) s0)
    | None => ret tt
    end s = Ok (tt, s1)) by (subst s1; destruct file; reflexivity).
  assert (Hdi1 : done_initial s1 = done_initial s)
    by (subst s1; destruct file; reflexivity).
  clearbody s1.
  unfold crawl_entry. rewrite Hdot.
  unfold bind at 1. unfold gets at 1. cbv beta iota. rewrite Hfile.
  unfold bind at 1. rewrite Hs1. cbv beta iota.
  destruct (match file with Some f => negb (f_exists f) | None => true end
            || stat_all || recursive); [| reflexivity].
  cbn [processPath pc_path pc_flags andb].
  rewrite Hlenb. unfold w_assert. unfold bind at 1. unfold ret at 1. cbv beta iota.
  rewrite Hcookie. unfold bind at 1. unfold consider_cookie.
  destruct (to_bool (Z.land watcher_flags WATCHER_HAS_PER_FILE_NOTIFICATIONS));
    destruct (to_bool (Z.land (pc_flags pending) W_PENDING_IS_DESYNCED));
    destruct (recursive || _);
    cbv [bind gets ret emit modify]; simpl; rewrite ?Hdi1;
    try (destruct (done_initial s)); reflexivity.
Qed.

(** X15.  An entry other than a cookie that [crawler] reads is handed
    to [statPath], never crawled on the spot, and the directory entry
    just read goes along as [pre_stat].  The item is RECURSIVE when the
    crawl is recursive or the view did not know the file as existing,
    and IS_DESYNCED when the parent item is; it is never VIA_NOTIFY or
    CRAWL_ONLY.  A file the view knows as existing is left alone
    unless the crawl is recursive or stats everything: only its
    [maybe_deleted] mark is cleared. *)
Theorem crawled_file_entry (fuel : nat) (dir : w_string) (pending : PendingChange)
    (recursive stat_all : bool) (dirent : DirEntry) (s : State)
    (file : option watchman_file) :
  is_dot_or_dotdot (d_name dirent) = false ->
  (String.length root_path <= String.length dir)%nat ->
  isCookiePrefix (getFullPathToChild dir (d_name dirent)) = false ->
  assoc (d_name dirent) (dir_files (view s) dir) = file ->
  let absent := match file with Some f => negb (f_exists f) | None => true end in
  let s1 :=
    match file with
    | Some _ =>
        set_view (update_dir (view s) dir (clear_maybe_deleted (d_name dirent))) s
    | None => s
    end in
  crawl_entry (processPath (S fuel)) dir pending recursive stat_all dirent s =
    if absent || stat_all || recursive
    then call_statPath (entry_change dir (d_name dirent) pending (recursive || absent))
           (Some dirent) s1
    else Ok (tt, s1).
Proof.
  intros Hdot Hlen Hcookie Hfile absent s1.
  pose proof (child_longer dir (d_name dirent)) as Hchild.
  assert (Hnotroot :
    String.eqb (getFullPathToChild dir (d_name dirent)) root_path = false)
    by (apply longer_not_root; lia).
  assert (Hlenb :
    (String.length root_path
       <=? String.length (getFullPathToChild dir (d_name dirent)))%nat = true)
    by (apply Nat.leb_le; lia).
  unfold crawl_entry. rewrite Hdot.
  unfold bind at 1. unfold gets at 1. cbv beta iota. rewrite Hfile.
  unfold bind at 1.
  assert (Hs1 :
    match file with
    | Some _ =>
        modify (fun s0 =>
          set_view (update_dir (view s0) dir (clear_maybe_deleted (d_name dirent))) s0)
    | None => ret tt
    end s = Ok (tt, s1)) by (subst s1; destruct file; reflexivity).
  rewrite Hs1. cbv beta iota. fold absent.
  destruct (absent || stat_all || recursive); [| reflexivity].
  unfold entry_change.
  cbn [processPath pc_path pc_flags].
  rewrite Hlenb. unfold w_assert. unfold bind at 1. unfold ret at 1. cbv beta iota.
  rewrite Hcookie, Hnotroot.
  destruct (recursive || absent);
    destruct (to_bool (Z.land (pc_flags pending) W_PENDING_IS_DESYNCED));
    reflexivity.
Qed.

Lemma assoc_update_same {A : Type} (k : w_string) (g : A -> A)
    (l : list (w_string * A)) :
  assoc k (assoc_update k g l) = option_map g (assoc k l).
Proof.
  induction l as [| [k' a] l IH]; simpl; [reflexivity |].
  destruct (String.eqb k k') eqn:Hk; simpl; rewrite Hk; [reflexivity | exact IH].
Qed.

Lemma assoc_app_new {A : Type} (k : w_string) (a : A) (l : list (w_string * A)) :
  assoc k l = None -> assoc k (l ++ [(k, a)]) = Some a.
Proof.
  induction l as [| [k' a'] l IH]; simpl.
  - intros _. rewrite String.eqb_refl. reflexivity.
  - destruct (String.eqb k k'); [discriminate | exact IH].
Qed.

Lemma dir_files_updated (v : ViewDatabase) (p : w_string)
    (f : list (w_string * watchman_file) -> list (w_string * watchman_file)) :
  dir_files (update_dir (resolveDir v p) p f) p = f (dir_files v p).
Proof.
  unfold dir_files, update_dir, resolveDir. simpl.
  destruct (assoc p (dirs v)) as [d |] eqn:Hd; simpl.
  - rewrite assoc_update_same, Hd. reflexivity.
  - rewrite assoc_update_same, (assoc_app_new _ _ _ Hd). reflexivity.
Qed.

Lemma requeued_cons (dir : w_string) (now : time_point) (recursive : bool)
    (name : w_string) (f : watchman_file) (fs : list (w_string * watchman_file)) :
  requeued dir now recursive ((name, f) :: fs) =
    if f_exists f
    then mkPending (getFullPathToChild dir name) now
           (if recursive then W_PENDING_RECURSIVE else 0)
         :: requeued dir now recursive fs
    else requeued dir now recursive fs.
Proof. unfold requeued. simpl. destruct (f_exists f); reflexivity. Qed.

Lemma requeue_children_flagged_cons (dir : w_string) (now : time_point)
    (recursive : bool) (name : w_string) (f : watchman_file)
    (fs : list (w_string * watchman_file)) :
  requeue_children dir now recursive (flag_maybe_deleted ((name, f) :: fs)) =
    bind (if f_exists f
          then coll_add (mkPending (getFullPathToChild dir name) now
                           (if recursive then W_PENDING_RECURSIVE else 0))
          else ret tt)
         (fun _ => requeue_children dir now recursive (flag_maybe_deleted fs)).
Proof.
  unfold flag_maybe_deleted. simpl.
  destruct (f_exists f) eqn:Hex; simpl; rewrite ?Hex; reflexivity.
Qed.

Lemma requeue_children_flagged (dir : w_string) (now : time_point) (recursive : bool)
    (fs : list (w_string * watchman_file)) (s : State) :
  exists s',
    requeue_children dir now recursive (flag_maybe_deleted fs) s = Ok (tt, s')
    /\ log s' = log s ++ map EvPendingAdd (requeued dir now recursive fs)
    /\ coll_items (localPending s') =
         fold_left (fun acc p => pending_add p acc) (requeued dir now recursive fs)
           (coll_items (localPending s))
    /\ coll_syncs (localPending s') = coll_syncs (localPending s)
    /\ view s' = view s /\ world s' = world s.
Proof.
  revert s. induction fs as [| [name f] fs IH]; intros s.
  - exists s. simpl. rewrite app_nil_r. auto 10.
  - rewrite requeue_children_flagged_cons, requeued_cons.
    destruct (f_exists f).
    + unfold bind at 1. unfold coll_add, bind, emit, modify. cbv beta iota.
      match goal with |- context [requeue_children _ _ _ _ ?x] =>
        destruct (IH x) as (s' & Hrun & Hl & Hi & Hs & Hv & Hw) end.
      exists s'. split; [exact Hrun |]. simpl in *.
      rewrite Hl, Hi, Hs, Hv, Hw, <- app_assoc. auto 10.
    + unfold bind at 1. unfold ret at 1. cbv beta iota.
      exact (IH s).
Qed.

(** X16.  When a directory other than the root opens and lists nothing,
    [crawler] re-queues every child the view holds as existing, none
    that it holds as deleted, in the order of the view, each with
    RECURSIVE exactly when the crawl is recursive; nothing is statted
    and the syncs of the batch are untouched. *)
Theorem crawler_empty_listing (pp : PendingChange -> option DirEntry -> M unit)
    (pending : PendingChange) (s : State) (w' : World) :
  String.eqb (pc_path pending) root_path = false ->
  startWatchDir (world s) (pc_path pending) = (inr (mkDirHandle [] None), w') ->
  let adds :=
    requeued (pc_path pending) (pc_now pending)
      (contains (pc_flags pending) W_PENDING_RECURSIVE)
      (dir_files (view s) (pc_path pending)) in
  exists s',
    crawler pp pending s = Ok (tt, s')
    /\ log s' = log s ++ map EvPendingAdd adds
    /\ coll_items (localPending s') =
         fold_left (fun acc p => pending_add p acc) adds (coll_items (localPending s))
    /\ coll_syncs (localPending s') = coll_syncs (localPending s)
    /\ view s' =
         update_dir (resolveDir (view s) (pc_path pending)) (pc_path pending)
           flag_maybe_deleted.
Proof.
  intros Hroot Hopen adds.
  unfold crawler. rewrite Hroot.
  unfold bind at 1. unfold modify at 1. cbv beta iota.
  unfold bind at 1. unfold ret at 1. cbv beta iota.
  unfold bind at 1. cbn [world set_view]. rewrite Hopen. cbv beta iota.
  unfold bind at 1. unfold modify at 1. cbv beta iota.
  cbn [dh_entries dh_error crawl_entries].
  unfold bind at 1. unfold ret at 1. cbv beta iota.
  unfold bind at 1. unfold ret at 1. cbv beta iota.
  unfold bind at 1. unfold gets at 1. cbv beta iota.
  cbn [view set_view set_world]. rewrite dir_files_updated.
  match goal with |- context [requeue_children ?d ?n ?r (flag_maybe_deleted ?fs) ?x] =>
    destruct (requeue_children_flagged d n r fs x)
      as (s' & Hrun & Hl & Hi & Hs & Hv & Hw) end.
  exists s'. split; [exact Hrun |]. simpl in *.
  subst adds. rewrite Hl, Hi, Hs, Hv. auto.
Qed.

End CrawlCases.

(** ** The timeouts over the life of the thread *)

Section TimeoutRange.

Context {ext : External} {root : Root}.

Lemma stepIoThread_timeouts (fuel : nat) (s : State) (c : Continue) (s' : State) :
  stepIoThread fuel s = Ok (c, s') ->
  biggestTimeout s' = biggestTimeout s
  /\ (currentTimeout s' = currentTimeout s
      \/ currentTimeout s' = trigger_settle
      \/ exists t, (t = currentTimeout s \/ t = trigger_settle)
                   /\ currentTimeout s' = Z.min (biggestTimeout s) (t * 2)).
Proof.
  intros Hstep. apply stepIoThread_paths in Hstep.
  destruct Hstep as [Hstop Hc Hs
                    | s0 pinged s1 s2 s3 Hstop Hwait Hsr Hrecrawl Hcrawl Hs Hc
                    | s0 s1 Hstop Hwait Hsr Hempty Hsettle
                    | s0 pinged s1 Hstop Hwait Hsr Hcond Hproc].
  - subst s'. auto.
  - pose proof (stopThreads_load_same _ _ _ Hstop)
      as (_ & _ & _ & _ & _ & _ & Hc0 & Hb0).
    pose proof (step_wait_waited fuel s0) as Hw. rewrite Hwait in Hw.
    pose proof (fullCrawl_crawled fuel s2) as Hcr. rewrite Hcrawl in Hcr.
    rewrite handleShouldRecrawl_eq, Hsr in Hrecrawl.
    assert (Hb2 : biggestTimeout s2 = biggestTimeout s1).
    { injection Hrecrawl as <-. destruct (cancelled s1); reflexivity. }
    subst s'. simpl. split; [| auto].
    rewrite (cr_biggest _ _ Hcr), Hb2, (wt_biggest _ _ Hw). exact Hb0.
  - pose proof (stopThreads_load_same _ _ _ Hstop)
      as (_ & _ & _ & _ & _ & _ & Hc0 & Hb0).
    pose proof (step_wait_waited fuel s0) as Hw. rewrite Hwait in Hw.
    pose proof (step_settle_spec s1) as Hs. rewrite Hsettle in Hs.
    destruct Hs as (Hf & Hcont & Hstopped).
    pose proof (wt_current _ _ Hw) as Hc1. pose proof (wt_biggest _ _ Hw) as Hb1.
    split.
    + rewrite (fr_biggest _ _ _ Hf). simpl. congruence.
    + destruct c.
      * rewrite (Hstopped eq_refl), Hc1, Hc0.
        destruct (done_initial s0); auto.
      * right. right. rewrite (Hcont eq_refl), Hc1, Hb1, Hb0, Hc0.
        destruct (done_initial s0); eauto.
  - pose proof (stopThreads_load_same _ _ _ Hstop)
      as (_ & _ & _ & _ & _ & _ & Hc0 & Hb0).
    pose proof (step_wait_waited fuel s0) as Hw. rewrite Hwait in Hw.
    pose proof (step_process_spec fuel s1 (wt_done_initial _ _ Hw)) as Hp.
    rewrite Hproc in Hp. destruct Hp as [_ Hp].
    split; [| right; left; exact (pr_current _ _ Hp)].
    rewrite (pr_biggest _ _ Hp), (wt_biggest _ _ Hw). exact Hb0.
Qed.

Lemma step_settle_overflow (s : State) (e : Failure) :
  step_settle s = Err e ->
  (ms_min <=? currentTimeout s * 2) && (currentTimeout s * 2 <=? ms_max) = false.
Proof.
  unfold step_settle. unfold bind at 1.
  pose proof (doSettleThings_frame (fun _ => False) s) as Hd.
  destruct (doSettleThings s) as [[c s1] | e1]; [| contradiction].
  destruct c; [discriminate |].
  unfold bind, gets, double_timeout. simpl.
  rewrite (fr_current _ _ _ Hd).
  destruct ((ms_min <=? currentTimeout s * 2) && (currentTimeout s * 2 <=? ms_max));
    [discriminate | reflexivity].
Qed.

Lemma stepIoThread_overflow (fuel : nat) (s : State) :
  stepIoThread fuel s = Err SignedOverflow ->
  exists t, (t = currentTimeout s \/ t = trigger_settle)
            /\ (ms_min <=? t * 2) && (t * 2 <=? ms_max) = false.
Proof.
  unfold stepIoThread. unfold bind at 1.
  destruct (stopThreads_load s) as [[stop s0] | e0] eqn:Hstop.
  2:{ unfold stopThreads_load in Hstop.
      destruct (stopIn s) as [[| n] |]; discriminate. }
  pose proof (stopThreads_load_same _ _ _ Hstop)
    as (_ & _ & _ & _ & _ & _ & Hc0 & _).
  destruct stop; [discriminate |].
  unfold bind at 1.
  pose proof (step_wait_waited fuel s0) as Hw.
  destruct (step_wait fuel s0) as [[pinged s1] | e1].
  2:{ intros H. injection H as ->. destruct Hw; discriminate. }
  unfold bind at 1. rewrite handleShouldRecrawl_eq.
  destruct (shouldRecrawl s1).
  - unfold bind at 1.
    match goal with |- context [fullCrawl fuel ?x] =>
      pose proof (fullCrawl_crawled fuel x) as Hc;
      destruct (fullCrawl fuel x) as [[u s2] | e2]
    end.
    + discriminate.
    + intros H. injection H as ->. destruct Hc; discriminate.
  - unfold bind at 1. simpl.
    destruct (negb pinged && coll_empty (localPending s1)).
    + intros H. apply step_settle_overflow in H.
      rewrite (wt_current _ _ Hw), Hc0 in H.
      destruct (done_initial s0); eauto.
    + pose proof (step_process_spec fuel s1 (wt_done_initial _ _ Hw)) as Hp.
      destruct (step_process fuel s1) as [[c s2] | e2]; [discriminate |].
      intros H. injection H as ->. destruct Hp; discriminate.
Qed.

Lemma io_steps_timeouts (n : nat) (s s' : State) :
  io_steps n s s' ->
  0 < trigger_settle -> 0 < biggestTimeout s ->
  0 < currentTimeout s <= Z.max trigger_settle (biggestTimeout s) ->
  biggestTimeout s' = biggestTimeout s
  /\ 0 < currentTimeout s' <= Z.max trigger_settle (biggestTimeout s).
Proof.
  intros Hsteps Hts. induction Hsteps as [s | n s1 s2 s3 Hstep Hsteps IH].
  - auto.
  - intros Hb Hc. destruct Hstep as (fuel & c & Hstep).
    apply stepIoThread_timeouts in Hstep.
    destruct Hstep as (Hb2 & Hc2).
    rewrite <- Hb2. apply IH; rewrite Hb2; [exact Hb |].
    destruct Hc2 as [-> | [-> | (t & Ht & ->)]]; [exact Hc | lia |].
    destruct Ht as [-> | ->]; lia.
Qed.

(** X17.  Started with a positive settle period and positive timeouts,
    the thread keeps [biggestTimeout] as it is and [currentTimeout]
    positive and no larger than the larger of [trigger_settle] and
    [biggestTimeout], however many steps it takes; and when twice that
    bound fits the signed 64-bit count of milliseconds, the doubling of
    the timeout never overflows. *)
Theorem currentTimeout_stays_in_range (n : nat) (s s' : State) :
  io_steps n s s' ->
  0 < trigger_settle -> 0 < biggestTimeout s ->
  0 < currentTimeout s <= Z.max trigger_settle (biggestTimeout s) ->
  biggestTimeout s' = biggestTimeout s
  /\ 0 < currentTimeout s' <= Z.max trigger_settle (biggestTimeout s)
  /\ (Z.max trigger_settle (biggestTimeout s) * 2 <= ms_max ->
      forall fuel, stepIoThread fuel s' <> Err SignedOverflow).
Proof.
  intros Hsteps Hts Hb Hc.
  destruct (io_steps_timeouts _ _ _ Hsteps Hts Hb Hc) as (Hb' & Hc').
  split; [exact Hb' | split; [exact Hc' |]].
  intros Hfit fuel Hov.
  apply stepIoThread_overflow in Hov. destruct Hov as (t & Ht & Hno).
  apply andb_false_iff in Hno. unfold ms_min in Hno.
  destruct Hno as [Hno | Hno]; apply Z.leb_gt in Hno; destruct Ht as [-> | ->]; lia.
Qed.

(** X18.  A step whose wait comes back without a ping, with an empty
    batch and no recrawl asked for, always announces the settle: the
    early return of [doSettleThings] is never taken from a step.  It
    warms the cache, enqueues "settled", and then either stops the
    watch and tells the thread to stop, or ages out and goes on with
    the timeout doubled, according to [considerReap]. *)
Theorem quiet_wakeup_settles (fuel : nat) (s s0 s1 : State) :
  stopThreads_load s = Ok (false, s0) ->
  step_wait fuel s0 = Ok (false, s1) ->
  shouldRecrawl s1 = false ->
  coll_empty (localPending s1) = true ->
  ms_min <= currentTimeout s1 * 2 <= ms_max ->
  exists c s' last,
    stepIoThread fuel s = Ok (c, s')
    /\ log s' = log s1 ++ [EvWarmContentCache; EvSettled; last]
    /\ ((considerReap (world s1) = true /\ c = Stop /\ last = EvStopWatch
         /\ currentTimeout s' = currentTimeout s1)
        \/ (considerReap (world s1) = false /\ c = ContinueLoop /\ last = EvAgeOut
            /\ currentTimeout s' =
                 Z.min (biggestTimeout s1) (currentTimeout s1 * 2))).
Proof.
  intros Hstop Hwait Hsr Hempty Hfit.
  pose proof (step_wait_waited fuel s0) as Hw. rewrite Hwait in Hw.
  pose proof (wt_done_initial _ _ Hw) as Hdi.
  assert (Hfitb :
    (ms_min <=? currentTimeout s1 * 2) && (currentTimeout s1 * 2 <=? ms_max) = true).
  { apply andb_true_iff. split; apply Z.leb_le; lia. }
  unfold stepIoThread. unfold bind at 1. rewrite Hstop. cbv beta iota.
  unfold bind at 1. rewrite Hwait. cbv beta iota.
  unfold bind at 1. rewrite handleShouldRecrawl_eq, Hsr. cbv beta iota.
  unfold bind at 1. unfold gets at 1. cbv beta iota.
  rewrite Hempty. cbn [negb andb].
  unfold step_settle, doSettleThings.
  cbv [bind gets emit modify ret double_timeout]. simpl.
  rewrite Hdi. simpl.
  destruct (considerReap (world s1)) eqn:Hreap; simpl.
  - do 3 eexists. split; [reflexivity |]. simpl.
    rewrite <- !app_assoc. split; [reflexivity |]. left. auto.
  - destruct (considerAgeOut (world s1) (view s1)) as [v w] eqn:Hage. simpl.
    rewrite Hfitb. simpl.
    do 3 eexists. split; [reflexivity |]. simpl.
    rewrite <- !app_assoc. split; [reflexivity |]. right. auto.
Qed.

End TimeoutRange.

(** ** The order of a pass *)

Section PassOrder.

Context {ext : External} {root : Root}.

(** X19.  Unless the stop flag goes up, the inner loop of a pass hands
    the items of the batch to [processPath] one by one in the order of
    the batch, each exactly once and all at the one tick of the pass;
    nothing [processPath] does raises the stop flag or moves the
    tick. *)
Theorem items_processed_in_order (fuel : nat) (pending : list PendingChange)
    (d : IsDesynced) (s : State) (d' : IsDesynced) (s' : State) (new : list Event) :
  process_items fuel d pending s = Ok (d', s') ->
  stopIn s = None ->
  log s' = log s ++ new ->
  filter is_process_event new = map (EvProcess (mostRecentTick s)) pending
  /\ stopIn s' = None
  /\ mostRecentTick s' = mostRecentTick s.
Proof.
  intros H Hnone Hlog.
  destruct (process_items_order _ _ _ _ _ _ H Hnone) as (Hn & Ht & new' & Hl & Hf).
  rewrite Hlog in Hl. apply app_inv_head in Hl. subst new'. auto.
Qed.

End PassOrder.

(** ** The properties above, on the small root *)

Section OnSmallRootRuns.

#[local] Existing Instance Demo.root_small.

Lemma statPath_never_for_root_witness :
  @isCookiePrefix Demo.ext_small (pc_path Demo.child_change) = false
  /\ String.eqb (pc_path Demo.child_change) root_path = false
  /\ to_bool (Z.land (pc_flags Demo.child_change) W_PENDING_CRAWL_ONLY) = false
  /\ (String.length root_path <= String.length (pc_path Demo.child_change))%nat.
Proof.
  apply (statPath_never_for_root (ext := Demo.ext_small) (root := Demo.root_small)
           5%nat Demo.first_state ContinueLoop Demo.first_done (log Demo.first_done)
           Demo.child_change (Some (mkDirEntry "a"))).
  - vm_compute. reflexivity.
  - vm_compute. reflexivity.
  - vm_compute. right. left. reflexivity.
Defined.

Lemma notifyCookie_only_cookies_witness :
  @isCookiePrefix Demo.ext_small (pc_path Demo.cookie_change) = true
  /\ (String.length root_path <= String.length (pc_path Demo.cookie_change))%nat.
Proof.
  apply (notifyCookie_only_cookies (ext := Demo.ext_small) (root := Demo.root_small)
           5%nat Demo.first_state ContinueLoop Demo.first_done (log Demo.first_done)
           (pc_path Demo.cookie_change)).
  - vm_compute. reflexivity.
  - vm_compute. reflexivity.
  - vm_compute. do 2 right. left. reflexivity.
Defined.

Lemma crawler_adds_plain_items_witness :
  (forall p, In (EvPendingAdd p) (log Demo.readfail_done) ->
             pc_flags p = 0 \/ pc_flags p = W_PENDING_RECURSIVE)
  /\ (forall why, In (EvScheduleRecrawl why) (log Demo.readfail_done) ->
                  why = reason_root_replaced).
Proof.
  apply (crawler_adds_plain_items (ext := Demo.ext_readfail) (root := Demo.root_small)
           6%nat Demo.readfail_state ContinueLoop Demo.readfail_done
           (log Demo.readfail_done)).
  - vm_compute. reflexivity.
  - vm_compute. reflexivity.
Defined.

Lemma fullCrawl_leaves_root_ready_witness :
  (done_initial Demo.promised_done = true
   /\ shouldRecrawl Demo.promised_done = false
   /\ crawlPromise Demo.promised_done = false
   /\ localPending Demo.promised_done = coll_nil
   /\ exists new ready,
        log Demo.promised_done =
          log Demo.promised_state ++ new ++ ready ++ [EvAbortAllCookies]
        /\ Forall (pass_event (ext := Demo.ext_small)
                     (mostRecentTick Demo.promised_done)) new
        /\ (ready = [] \/ ready = [EvReadyToQuery])
        /\ (crawlPromise Demo.promised_state = true -> ready = [EvReadyToQuery]))
  /\ In (EvScheduleRecrawl reason_root_replaced) (log Demo.replaced_done)
  /\ (done_initial Demo.replaced_done = true
      /\ shouldRecrawl Demo.replaced_done = false
      /\ crawlPromise Demo.replaced_done = false
      /\ localPending Demo.replaced_done = coll_nil
      /\ exists new ready,
           log Demo.replaced_done =
             log Demo.replaced_state ++ new ++ ready ++ [EvAbortAllCookies]
           /\ Forall (pass_event (ext := Demo.ext_replaced)
                        (mostRecentTick Demo.replaced_done)) new
           /\ (ready = [] \/ ready = [EvReadyToQuery])
           /\ (crawlPromise Demo.replaced_state = true -> ready = [EvReadyToQuery])).
Proof.
  split; [| split].
  - apply (fullCrawl_leaves_root_ready (ext := Demo.ext_small) (root := Demo.root_small)
             5%nat Demo.promised_state tt Demo.promised_done).
    vm_compute. reflexivity.
  - vm_compute. right. left. reflexivity.
  - apply (fullCrawl_leaves_root_ready (ext := Demo.ext_replaced)
             (root := Demo.root_small) 5%nat Demo.replaced_state tt Demo.replaced_done).
    vm_compute. reflexivity.
Defined.

Lemma waitUntilReadyToQuery_shares_witness :
  exists s1,
    waitUntilReadyToQuery false Demo.first_state = Ok ((SharedFuture, true), s1)
    /\ crawlPromise s1 = true
    /\ (s1 = Demo.first_state \/ s1 = set_crawlPromise true Demo.first_state)
    /\ waitUntilReadyToQuery true s1 = Ok ((SharedFuture, true), s1).
Proof.
  apply (proj1 (waitUntilReadyToQuery_shares (ext := Demo.ext_small) false
                  Demo.first_state)).
  vm_compute. reflexivity.
Defined.

Lemma shared_future_fulfilled_once_witness :
  List.length (filter is_ready_event (log Demo.promised_done)) = 1%nat
  /\ waitUntilReadyToQuery true Demo.promised_done =
       Ok ((SatisfiedFuture, true), Demo.promised_done).
Proof.
  apply (shared_future_fulfilled_once (ext := Demo.ext_small) (root := Demo.root_small)
           false 5%nat Demo.first_state Demo.promised_state Demo.promised_done true tt
           (log Demo.promised_done)).
  - vm_compute. reflexivity.
  - vm_compute. reflexivity.
  - vm_compute. reflexivity.
Defined.

Lemma clientModeCrawl_does_not_settle_witness :
  done_initial Demo.client_done = true /\ shouldRecrawl Demo.client_done = false
  /\ ~ In EvSettled (log Demo.client_done)
  /\ (forall timeout, ~ In (EvLockAndWait timeout) (log Demo.client_done)).
Proof.
  apply (clientModeCrawl_does_not_settle (ext := Demo.ext_small)
           (root := Demo.root_small) 5%nat Demo.first_state tt Demo.client_done
           (log Demo.client_done)).
  - vm_compute. reflexivity.
  - vm_compute. reflexivity.
Defined.

Lemma step_stops_by_flag_or_reap_witness :
  (stopIn Demo.reap_state = Some O /\ Demo.reap_done = Demo.reap_state)
  \/ (exists s0 s1,
        stopThreads_load Demo.reap_state = Ok (false, s0)
        /\ step_wait 5 s0 = Ok (false, s1)
        /\ shouldRecrawl s1 = false
        /\ coll_empty (localPending s1) = true
        /\ @considerReap Demo.ext_reap (world s1) = true
        /\ Demo.reap_done =
             set_log (log s1 ++ [EvWarmContentCache; EvSettled; EvStopWatch]) s1).
Proof.
  apply (step_stops_by_flag_or_reap (ext := Demo.ext_reap) (root := Demo.root_small)
           5%nat Demo.reap_state Demo.reap_done).
  vm_compute. reflexivity.
Defined.

Lemma ioThread_returns_by_flag_or_reap_witness :
  stopIn Demo.reap_thread_done = Some O
  \/ exists l,
       log Demo.reap_thread_done = l ++ [EvWarmContentCache; EvSettled; EvStopWatch].
Proof.
  apply (ioThread_returns_by_flag_or_reap (ext := Demo.ext_reap)
           (root := Demo.root_small) 1%nat 5%nat Demo.reap_first tt).
  vm_compute. reflexivity.
Defined.

Lemma step_leaves_root_crawled_witness :
  done_initial Demo.first_done = true
  /\ exists s0 pinged s1,
       stopThreads_load Demo.first_state = Ok (false, s0)
       /\ step_wait 5 s0 = Ok (pinged, s1)
       /\ recrawlCount Demo.first_done =
            if shouldRecrawl s1 && negb (cancelled s1)
            then (recrawlCount Demo.first_state + 1) mod recrawl_modulus
            else recrawlCount Demo.first_state.
Proof.
  apply (step_leaves_root_crawled (ext := Demo.ext_small) (root := Demo.root_small)
           5%nat Demo.first_state ContinueLoop Demo.first_done).
  - vm_compute. reflexivity.
  - vm_compute. discriminate.
Defined.

Lemma processAllPending_when_stopped_witness :
  processAllPending 2 Demo.stopped_batch =
    Ok (DesyncedNo,
        set_log (log Demo.stopped_batch
                   ++ map EvSyncSetValue (coll_syncs (localPending Demo.stopped_batch)))
          (set_localPending coll_nil Demo.stopped_batch)).
Proof.
  apply (processAllPending_when_stopped (ext := Demo.ext_small)
           (root := Demo.root_small) 0%nat Demo.stopped_batch).
  vm_compute. reflexivity.
Defined.

Lemma crawler_root_replaced_witness :
  exists s',
    crawler (processPath 1) Demo.root_crawl Demo.idle_replaced = Ok (tt, s')
    /\ s' = set_shouldRecrawl true
              (set_log (log Demo.idle_replaced
                          ++ [EvScheduleRecrawl reason_root_replaced])
                 (set_view (resolveDir (view Demo.idle_replaced)
                              (pc_path Demo.root_crawl)) Demo.idle_replaced))
    /\ rootInode (view s') = rootInode (view Demo.idle_replaced).
Proof.
  apply (crawler_root_replaced (ext := Demo.ext_replaced) (root := Demo.root_small)
           (processPath 1) Demo.root_crawl Demo.idle_replaced 8).
  - vm_compute. reflexivity.
  - vm_compute. reflexivity.
  - vm_compute. discriminate.
  - vm_compute. discriminate.
Defined.

Lemma crawler_first_root_crawl_witness :
  crawler (processPath 2) Demo.root_plain Demo.first_state
  = crawler (processPath 2)
      (mkPending (pc_path Demo.root_plain) (pc_now Demo.root_plain)
         (set_flag (pc_flags Demo.root_plain) W_PENDING_RECURSIVE))
      Demo.first_state.
Proof.
  apply (crawler_first_root_crawl (ext := Demo.ext_small) (root := Demo.root_small)
           (processPath 2) Demo.root_plain Demo.first_state 7).
  - vm_compute. reflexivity.
  - vm_compute. reflexivity.
  - vm_compute. reflexivity.
  - vm_compute. discriminate.
Defined.

Lemma crawled_cookie_entry_witness :
  crawl_entry (processPath 1) "/w"%string Demo.root_crawl true false
    (mkDirEntry ".watchman-cookie-1") Demo.idle_small =
    Ok (tt, Demo.idle_small)
  /\ crawl_entry (processPath 1) "/w"%string Demo.root_crawl true false
       (mkDirEntry ".watchman-cookie-1") Demo.first_state =
       Ok (tt,
           set_log (log Demo.first_state
                      ++ [EvNotifyCookie "/w/.watchman-cookie-1"%string])
             Demo.first_state).
Proof.
  split.
  - refine (crawled_cookie_entry (ext := Demo.ext_small) (root := Demo.root_small)
              0%nat "/w"%string Demo.root_crawl true false
              (mkDirEntry ".watchman-cookie-1") Demo.idle_small None _ _ _ _).
    + vm_compute. reflexivity.
    + vm_compute. lia.
    + vm_compute. reflexivity.
    + vm_compute. reflexivity.
  - refine (crawled_cookie_entry (ext := Demo.ext_small) (root := Demo.root_small)
              0%nat "/w"%string Demo.root_crawl true false
              (mkDirEntry ".watchman-cookie-1") Demo.first_state None _ _ _ _).
    + vm_compute. reflexivity.
    + vm_compute. lia.
    + vm_compute. reflexivity.
    + vm_compute. reflexivity.
Defined.

Lemma crawled_file_entry_witness :
  crawl_entry (processPath 1) "/w"%string Demo.root_crawl true false (mkDirEntry "a")
    Demo.idle_small =
    call_statPath (entry_change "/w"%string "a"%string Demo.root_crawl true) (Some (mkDirEntry "a"))
      Demo.idle_small.
Proof.
  refine (crawled_file_entry (ext := Demo.ext_small) (root := Demo.root_small)
            0%nat "/w"%string Demo.root_crawl true false (mkDirEntry "a")
            Demo.idle_small None _ _ _ _).
  - vm_compute. reflexivity.
  - vm_compute. lia.
  - vm_compute. reflexivity.
  - vm_compute. reflexivity.
Defined.

Lemma crawler_empty_listing_witness :
  exists s',
    crawler (processPath 1) Demo.sub_crawl Demo.emptied_state = Ok (tt, s')
    /\ log s' = log Demo.emptied_state ++ map EvPendingAdd [mkPending "/w/sub/x"%string 0 0]
    /\ coll_items (localPending s') =
         fold_left (fun acc p => @pending_add Demo.ext_empty p acc)
           [mkPending "/w/sub/x"%string 0 0] (coll_items (localPending Demo.emptied_state))
    /\ coll_syncs (localPending s') = coll_syncs (localPending Demo.emptied_state)
    /\ view s' =
         update_dir (resolveDir (view Demo.emptied_state) (pc_path Demo.sub_crawl))
           (pc_path Demo.sub_crawl) flag_maybe_deleted.
Proof.
  refine (crawler_empty_listing (ext := Demo.ext_empty) (root := Demo.root_small)
            (processPath 1) Demo.sub_crawl Demo.emptied_state tt _ _).
  - vm_compute. reflexivity.
  - vm_compute. reflexivity.
Defined.

Lemma currentTimeout_stays_in_range_witness :
  biggestTimeout Demo.first_done = biggestTimeout Demo.first_state
  /\ 0 < currentTimeout Demo.first_done
         <= Z.max trigger_settle (biggestTimeout Demo.first_state)
  /\ (Z.max trigger_settle (biggestTimeout Demo.first_state) * 2 <= ms_max ->
      forall fuel, stepIoThread fuel Demo.first_done <> Err SignedOverflow).
Proof.
  apply (currentTimeout_stays_in_range (ext := Demo.ext_small) (root := Demo.root_small)
           1%nat Demo.first_state Demo.first_done).
  - eapply io_steps_S; [| apply io_steps_O].
    exists 5%nat, ContinueLoop. vm_compute. reflexivity.
  - vm_compute. reflexivity.
  - vm_compute. reflexivity.
  - vm_compute. split; [reflexivity | discriminate].
Defined.

Lemma quiet_wakeup_settles_witness :
  exists c s' last,
    stepIoThread 5 Demo.first_state = Ok (c, s')
    /\ log s' = log Demo.first_woken ++ [EvWarmContentCache; EvSettled; last]
    /\ ((@considerReap Demo.ext_small (world Demo.first_woken) = true
         /\ c = Stop /\ last = EvStopWatch
         /\ currentTimeout s' = currentTimeout Demo.first_woken)
        \/ (@considerReap Demo.ext_small (world Demo.first_woken) = false
            /\ c = ContinueLoop /\ last = EvAgeOut
            /\ currentTimeout s' =
                 Z.min (biggestTimeout Demo.first_woken)
                   (currentTimeout Demo.first_woken * 2))).
Proof.
  apply (quiet_wakeup_settles (ext := Demo.ext_small) (root := Demo.root_small)
           5%nat Demo.first_state Demo.first_state Demo.first_woken).
  - vm_compute. reflexivity.
  - vm_compute. reflexivity.
  - vm_compute. reflexivity.
  - vm_compute. reflexivity.
  - vm_compute. split; discriminate.
Defined.

Lemma items_processed_in_order_witness :
  filter is_process_event (log Demo.items_done) =
    map (EvProcess (mostRecentTick Demo.idle_small))
      [Demo.cookie_change; Demo.child_change]
  /\ stopIn Demo.items_done = None
  /\ mostRecentTick Demo.items_done = mostRecentTick Demo.idle_small.
Proof.
  apply (items_processed_in_order (ext := Demo.ext_small) (root := Demo.root_small)
           5%nat [Demo.cookie_change; Demo.child_change] DesyncedNo Demo.idle_small
           DesyncedNo Demo.items_done (log Demo.items_done)).
  - vm_compute. reflexivity.
  - vm_compute. reflexivity.
  - vm_compute. reflexivity.
Defined.

End OnSmallRootRuns.
